(** * The router matcher of vue-router: registry and resolver

    A shallow embedding of [createRouterMatcher] (matcher/index.ts) and of
    the functions it closes over: [addRoute], [removeRoute], [getRoutes],
    [getRecordMatcher], [insertMatcher], [resolve], and the helpers
    [paramsFromLocation], [normalizeRouteRecord], [isAliasRecord],
    [mergeMetaFields], [mergeOptions], [isRecordChildOf].

    The embedding is that of the production build: [__DEV__] is false, so
    the calls to [warn] and the development-only checks are not part of it.
    The checks themselves ([isSameParam], [checkSameParams],
    [checkMissingParamsInAbsolutePath]) are embedded on their own.

    The path compiler ([createRouteRecordMatcher], [tokensToParser]) and the
    score comparator ([comparePathParserScore]) live in sibling modules; they
    are parameters of the development.

    An object used as a mapping is given by its own properties. Where the
    code looks a key up along the prototype chain ([key in params],
    [params[key]], [components[name]]) the members of [Object.prototype]
    are found as well.

    Of what consumes the matcher's result, the development embeds the pure
    parts: of RouterLink.ts, [includesParams], [getOriginalPath] and the
    computed [activeRecordIndex] and [isActive] of [useLink]; of
    RouterView.ts, the computed [depth] and [matchedRouteRef] and the choice
    of the view component. Of history/html5.ts it embeds the listeners of
    [useHistoryListeners]: [listen], its teardowns, [pauseListeners],
    [destroy] and the popstate handler. *)

From Stdlib Require Import ZArith Lia Ascii String.
From stdpp Require Import base option list gmap strings fin_maps sorting.

Set Warnings "-register-all,-clear-no-such-hyp".

(** ** Values *)

(** [RouteRecordName = string | symbol]. *)
Inductive RouteRecordName :=
  | NameString (s : string)
  | NameSymbol (n : nat).

Global Instance RouteRecordName_eq_dec : EqDecision RouteRecordName.
Proof. solve_decision. Defined.

Definition RouteRecordName_to_sum (n : RouteRecordName) : string + nat :=
  match n with NameString s => inl s | NameSymbol k => inr k end.

Definition RouteRecordName_of_sum (x : string + nat) : RouteRecordName :=
  match x with inl s => NameString s | inr k => NameSymbol k end.

Global Instance RouteRecordName_countable : Countable RouteRecordName.
Proof.
  apply (inj_countable' RouteRecordName_to_sum RouteRecordName_of_sum).
  by intros [].
Defined.

(** JavaScript truthiness of an optional name: [undefined] and the empty
    string are falsy, every other string and every symbol is truthy. *)
Definition truthyName (n : option RouteRecordName) : bool :=
  match n with
  | None => false
  | Some (NameString s) => negb (String.eqb s ""%string)
  | Some (NameSymbol _) => true
  end.

(** A param value is a string or an array of strings. *)
Inductive RouteParamValue :=
  | ParamString (s : string)
  | ParamArray (l : list string).

Abbreviation PathParams := (gmap string RouteParamValue).

(** The members a plain object inherits from [Object.prototype], as
    ECMAScript and its Annex B define them. The operator [in] and a read
    [obj[key]] follow the prototype chain and find them; [Object.keys],
    [Object.assign] and a [for ... in] loop do not (the members are not
    enumerable). *)
Definition objectPrototypeMembers : list string :=
  [ "constructor"; "hasOwnProperty"; "isPrototypeOf"; "propertyIsEnumerable";
    "toLocaleString"; "toString"; "valueOf";
    "__defineGetter__"; "__defineSetter__"; "__lookupGetter__"; "__lookupSetter__";
    "__proto__" ]%string.

(** All of them are functions held as data, except the accessor [__proto__]:
    an assignment under one of the other names creates a property of the
    object assigned to, an assignment under [__proto__] goes to the accessor
    and creates none. *)
Definition objectPrototypeDataMembers : list string :=
  List.filter (λ name, negb (String.eqb name "__proto__")) objectPrototypeMembers.

(** What an object holds, or what a read of it gives, under a key: a value
    of the kind the object is meant for, or the member of
    [Object.prototype] of the given name. *)
Inductive ObjectValue (V : Type) :=
  | Plain (v : V)
  | PrototypeMember (name : string).
Arguments Plain {V} v.
Arguments PrototypeMember {V} name.

(** [obj[key]] on a plain object given by its own properties: these first,
    then the members of [Object.prototype]; [None] is [undefined]. *)
Definition getProperty {V} (obj : gmap string V) (key : string) : option (ObjectValue V) :=
  match obj !! key with
  | Some v => Some (Plain v)
  | None =>
      if bool_decide (key ∈ objectPrototypeMembers) then Some (PrototypeMember key)
      else None
  end.

(** [MatcherLocation['params']] at run time: the own properties of a params
    object, a plain object. The type declares strings and arrays of
    strings; [paramsFromLocation] can add members of [Object.prototype].
    [__proto__] is not among the own properties: an assignment and
    [Object.assign] reach the accessor instead of creating it. *)
Abbreviation MatcherParams := (gmap string (ObjectValue RouteParamValue)).

(** View components and meta values are opaque to the matcher. *)
Inductive RouteComponent := ComponentRef (n : nat).
Inductive MetaValue := MetaString (s : string) | MetaNumber (z : Z) | MetaBool (b : bool).

Abbreviation RouteMeta := (gmap string MetaValue).

(** [redirect] is a string, or a location object or function (opaque). *)
Inductive RouteRecordRedirectOption :=
  | RedirectString (s : string)
  | RedirectObject (n : nat).

Definition truthyRedirect (r : option RouteRecordRedirectOption) : bool :=
  match r with
  | None => false
  | Some (RedirectString s) => negb (String.eqb s ""%string)
  | Some (RedirectObject _) => true
  end.

(** [PathParserOptions]: the three keys [mergeOptions] copies. *)
Record PathParserOptions := mkOptions {
  strict : bool;
  end_ : bool;
  sensitive : bool
}.

(** [RouteRecordRaw]. An absent key is [None]; [raw_children] is
    [record.children || []]; [raw_alias] is [None] when the record has no
    [alias] key, and a single string alias is the one-element list. *)
Inductive RouteRecordRaw := mkRaw {
  raw_path : string;
  raw_name : option RouteRecordName;
  raw_redirect : option RouteRecordRedirectOption;
  raw_alias : option (list string);
  raw_meta : option RouteMeta;
  raw_component : option RouteComponent;
  raw_components : option (gmap string RouteComponent);
  raw_strict : option bool;
  raw_end : option bool;
  raw_sensitive : option bool;
  raw_children : list RouteRecordRaw
}.

(** [RouteRecordNormalized], restricted to the fields the matcher reads.
    [aliasOf] refers to the canonical record. *)
Inductive RouteRecordNormalized := mkNormalized {
  rec_path : string;
  rec_redirect : option RouteRecordRedirectOption;
  rec_name : option RouteRecordName;
  rec_meta : RouteMeta;
  rec_aliasOf : option RouteRecordNormalized;
  rec_children : list RouteRecordRaw;
  rec_components : option (gmap string RouteComponent)
}.

(** A param key of a compiled pattern. *)
Record PathParserParamKey := mkKey {
  key_name : string;
  key_optional : bool;
  key_repeatable : bool
}.

(** Modelled from the spec: the compiled pattern ([PathParser], module
    pathParserRanker). [parse] returns [None] for the "no match" signal and
    [stringify] returns [None] when it throws. The matching expression is
    not a separate field: [re.test(path)] holds exactly when [parse(path)]
    is not the "no match" signal ([re_test] below). *)
Record PathParser := mkParser {
  score : list (list Z);
  keys : list PathParserParamKey;
  parse : string → option MatcherParams;
  stringify : MatcherParams → option string
}.

Definition re_test (p : PathParser) (path : string) : bool :=
  bool_decide (is_Some (parse p path)).

(** [RouteRecordMatcher]. The fields assigned once at creation ([record],
    [parent], the parser) are carried by the value; [uid] is the identity of
    the object ([===] compares it). The arrays [children] and [alias], which
    are pushed to after creation, live in the object store of the registry. *)
Inductive RouteRecordMatcher := mkMatcher {
  uid : nat;
  parser : PathParser;
  record : RouteRecordNormalized;
  parent : option RouteRecordMatcher
}.

(** [m.record], for where a variable of the source is itself named [record]. *)
Abbreviation recordOf := record (only parsing).

Definition sameMatcher (a b : RouteRecordMatcher) : bool := (uid a =? uid b).

(** The mutable part of a matcher object. *)
Record MatcherObject := mkObject {
  obj_self : RouteRecordMatcher;
  obj_children : list RouteRecordMatcher;
  obj_alias : list RouteRecordMatcher
}.

(** The state closed over by [createRouterMatcher]: the array [matchers],
    the map [matcherMap], and the store of matcher objects created so far
    (object [uid] is at index [uid]). *)
Record Registry := mkRegistry {
  objects : list MatcherObject;
  matchers : list RouteRecordMatcher;
  matcherMap : gmap RouteRecordName RouteRecordMatcher
}.

Definition emptyRegistry : Registry := mkRegistry [] [] ∅.

Definition setMatchers (l : list RouteRecordMatcher) (st : Registry) : Registry :=
  mkRegistry (objects st) l (matcherMap st).

Definition setMatcherMap (m : gmap RouteRecordName RouteRecordMatcher) (st : Registry)
  : Registry :=
  mkRegistry (objects st) (matchers st) m.

Definition setObjects (o : list MatcherObject) (st : Registry) : Registry :=
  mkRegistry o (matchers st) (matcherMap st).

(** [m.children] and [m.alias], read from the store. *)
Definition childrenOf (st : Registry) (m : RouteRecordMatcher) : list RouteRecordMatcher :=
  match objects st !! uid m with Some o => obj_children o | None => [] end.

Definition aliasesOf (st : Registry) (m : RouteRecordMatcher) : list RouteRecordMatcher :=
  match objects st !! uid m with Some o => obj_alias o | None => [] end.

(** [m.children.push(c)] and [m.alias.push(c)]. *)
Definition pushChild (m c : RouteRecordMatcher) (st : Registry) : Registry :=
  setObjects
    (alter (λ o, mkObject (obj_self o) (obj_children o ++ [c]) (obj_alias o))
           (uid m) (objects st)) st.

Definition pushAlias (m c : RouteRecordMatcher) (st : Registry) : Registry :=
  setObjects
    (alter (λ o, mkObject (obj_self o) (obj_children o) (obj_alias o ++ [c]))
           (uid m) (objects st)) st.

(** [Array.prototype.indexOf] on an array of matcher objects. *)
Fixpoint indexOf (m : RouteRecordMatcher) (l : list RouteRecordMatcher) : option nat :=
  match l with
  | [] => None
  | x :: l' => if sameMatcher x m then Some 0 else S <$> indexOf m l'
  end.

(** [l.splice(l.indexOf(m), 1)]: a negative start counts from the end, so
    index [-1] removes the last element. *)
Definition spliceIndexOf (m : RouteRecordMatcher) (l : list RouteRecordMatcher)
  : list RouteRecordMatcher :=
  match indexOf m l with
  | Some index => delete index l
  | None => delete (pred (length l)) l
  end.

(** [l.splice(i, 0, m)]. *)
Definition spliceInsert (i : nat) (m : RouteRecordMatcher) (l : list RouteRecordMatcher)
  : list RouteRecordMatcher :=
  take i l ++ m :: drop i l.

(** ** Locations and results *)

(** [MatcherLocationRaw]: [loc_name] is [Some] when the object has a [name]
    key, [loc_path] when it has a [path] key. *)
Record MatcherLocationRaw := mkLocationRaw {
  loc_name : option RouteRecordName;
  loc_path : option string;
  loc_params : option MatcherParams
}.

Record MatcherLocation := mkLocation {
  ml_name : option RouteRecordName;
  ml_path : string;
  ml_params : MatcherParams;
  ml_matched : list RouteRecordNormalized;
  ml_meta : RouteMeta
}.

(** What [resolve] throws: the router error [MATCHER_NOT_FOUND], or the
    error raised by [stringify]. *)
Inductive Thrown :=
  | MATCHER_NOT_FOUND
  | StringifyError.

Inductive Completion (A : Type) :=
  | Returns (a : A)
  | Throws (e : Thrown).
Arguments Returns {A} a.
Arguments Throws {A} e.

(** ** Pure helpers *)

(** [assign(target, source)]: the keys of [source] override. *)
Definition assign {V} (target source : gmap string V) : gmap string V :=
  source ∪ target.

(** [paramsFromLocation]. The test [key in params] holds for a property of
    [params] and for a member of [Object.prototype]; [params[key]] is then
    the property or the member, and the assignment to [newParams[key]]
    creates a property, except under [__proto__]: what is read there is the
    prototype [newParams] already has, and assigning it changes nothing. *)
Definition paramsFromLocation (params : MatcherParams) (keys : list string)
  : MatcherParams :=
  fold_left
    (λ newParams key,
       match params !! key with
       | Some v => <[key := v]> newParams
       | None =>
           if bool_decide (key ∈ objectPrototypeDataMembers)
           then <[key := PrototypeMember key]> newParams
           else newParams
       end)
    keys ∅.

(** [normalizeRouteRecord]. *)
Definition normalizeRouteRecord (record : RouteRecordRaw) : RouteRecordNormalized :=
  {| rec_path := raw_path record;
     rec_redirect := raw_redirect record;
     rec_name := raw_name record;
     rec_meta := default ∅ (raw_meta record);
     rec_aliasOf := None;
     rec_children := raw_children record;
     rec_components :=
       match raw_components record with
       | Some cs => Some cs
       | None => (λ c, {[ "default"%string := c ]}) <$> raw_component record
       end |}.

(** [isAliasRecord]: the record or one of its parents is an alias. *)
Fixpoint isAliasRecord (m : RouteRecordMatcher) : bool :=
  match m with
  | mkMatcher _ _ r p =>
      if bool_decide (is_Some (rec_aliasOf r)) then true
      else match p with
           | Some pm => isAliasRecord pm
           | None => false
           end
  end.

(** [mergeMetaFields]. *)
Definition mergeMetaFields (matched : list RouteRecordNormalized) : RouteMeta :=
  fold_left (λ meta r, assign meta (rec_meta r)) matched ∅.

(** [mergeOptions(globalOptions, record)]. *)
Definition mergeOptions (defaults : PathParserOptions) (partialOptions : RouteRecordRaw)
  : PathParserOptions :=
  {| strict := default (strict defaults) (raw_strict partialOptions);
     end_ := default (end_ defaults) (raw_end partialOptions);
     sensitive := default (sensitive defaults) (raw_sensitive partialOptions) |}.

(** The loop closing [resolve]: walk [parent] upward, [unshift]ing each
    record. *)
Fixpoint collectMatched (m : RouteRecordMatcher) (matched : list RouteRecordNormalized)
  : list RouteRecordNormalized :=
  match m with
  | mkMatcher _ _ r p =>
      match p with
      | Some pm => collectMatched pm (r :: matched)
      | None => r :: matched
      end
  end.

Definition matchedOf (matcher : option RouteRecordMatcher) : list RouteRecordNormalized :=
  match matcher with
  | Some m => collectMatched m []
  | None => []
  end.

(** [matchers.find(m => m.re.test(path))]. *)
Definition findMatcher (path : string) (l : list RouteRecordMatcher)
  : option RouteRecordMatcher :=
  List.find (λ m, re_test (parser m) path) l.

(** ** resolve *)

(** [getRecordMatcher], with the registry it leaves behind. *)
Definition getRecordMatcher (name : RouteRecordName) (st : Registry)
  : option RouteRecordMatcher * Registry :=
  (matcherMap st !! name, st).

Definition finishResolve (matcher : option RouteRecordMatcher)
    (name : option RouteRecordName) (path : string) (params : MatcherParams)
  : MatcherLocation :=
  let matched := matchedOf matcher in
  {| ml_name := name; ml_path := path; ml_params := params;
     ml_matched := matched; ml_meta := mergeMetaFields matched |}.

Definition resolve (location : MatcherLocationRaw) (currentLocation : MatcherLocation)
    (st : Registry) : Completion MatcherLocation :=
  if truthyName (loc_name location) then
    match loc_name location ≫= λ n, matcherMap st !! n with
    | None => Throws MATCHER_NOT_FOUND
    | Some matcher =>
        let name := rec_name (record matcher) in
        let params :=
          assign
            (paramsFromLocation (ml_params currentLocation)
               (key_name <$> filter (λ k, key_optional k = false) (keys (parser matcher))))
            (match loc_params location with
             | Some ps => paramsFromLocation ps (key_name <$> keys (parser matcher))
             | None => ∅
             end) in
        match stringify (parser matcher) params with
        | None => Throws StringifyError
        | Some path => Returns (finishResolve (Some matcher) name path params)
        end
    end
  else
    match loc_path location with
    | Some path =>
        match findMatcher path (matchers st) with
        | Some matcher =>
            (* [matcher.parse(path)!]: the test succeeded, so this is [Some] *)
            Returns (finishResolve (Some matcher) (rec_name (record matcher)) path
                       (default ∅ (parse (parser matcher) path)))
        | None => Returns (finishResolve None None path ∅)
        end
    | None =>
        let matcher :=
          if truthyName (ml_name currentLocation)
          then ml_name currentLocation ≫= λ n, matcherMap st !! n
          else findMatcher (ml_path currentLocation) (matchers st) in
        match matcher with
        | None => Throws MATCHER_NOT_FOUND
        | Some matcher =>
            let name := rec_name (record matcher) in
            let params :=
              assign (assign ∅ (ml_params currentLocation))
                     (default ∅ (loc_params location)) in
            match stringify (parser matcher) params with
            | None => Throws StringifyError
            | Some path => Returns (finishResolve (Some matcher) name path params)
            end
        end
    end.

(** ** The registry operations *)

(** [arr.forEach(f)] for an [f] that updates the registry and may fail to
    return. *)
Fixpoint forEach {A} (f : A → Registry → option Registry) (l : list A) (st : Registry)
  : option Registry :=
  match l with
  | [] => Some st
  | x :: l' => f x st ≫= forEach f l'
  end.

(** [arr.some(f)], left to right, stopping at the first [true]. *)
Fixpoint someM {A} (f : A → option bool) (l : list A) : option bool :=
  match l with
  | [] => Some false
  | x :: l' => f x ≫= λ b : bool, if b then Some true else someM f l'
  end.

(** [isRecordChildOf(record, parent)]. The recursion follows the [children]
    arrays of the store; [fuel] bounds its depth and [None] means the bound
    was hit. *)
Fixpoint isRecordChildOf (fuel : nat) (st : Registry) (record parent : RouteRecordMatcher)
  : option bool :=
  match fuel with
  | 0 => None
  | S fuel' =>
      someM (λ child,
               if sameMatcher child record then Some true
               else isRecordChildOf fuel' st record child)
            (childrenOf st parent)
  end.

(** The recursion of [removeRoute] on a matcher object; again [fuel] bounds
    the depth. *)
Fixpoint removeMatcher (fuel : nat) (matcherRef : RouteRecordMatcher) (st : Registry)
  : option Registry :=
  match fuel with
  | 0 => None
  | S fuel' =>
      match indexOf matcherRef (matchers st) with
      | Some index =>
          let st := setMatchers (delete index (matchers st)) st in
          let st :=
            match rec_name (record matcherRef) with
            | Some name =>
                if truthyName (Some name)
                then setMatcherMap (delete name (matcherMap st)) st else st
            | None => st
            end in
          forEach (removeMatcher fuel') (childrenOf st matcherRef) st
            ≫= forEach (removeMatcher fuel') (aliasesOf st matcherRef)
      | None => Some st
      end
  end.

(** Every chain of [children] and [alias] links is shorter than the number
    of objects created, which is the bound used by the entry points. *)
Definition depthBound (st : Registry) : nat := S (length (objects st)).

(** [removeRoute(matcherRef)], by name ([inl]) or by matcher ([inr]). *)
Definition removeRoute (matcherRef : RouteRecordName + RouteRecordMatcher) (st : Registry)
  : option Registry :=
  match matcherRef with
  | inl name =>
      match matcherMap st !! name with
      | Some matcher =>
          let st := setMatcherMap (delete name (matcherMap st)) st in
          let st := setMatchers (spliceIndexOf matcher (matchers st)) st in
          forEach (removeMatcher (depthBound st)) (childrenOf st matcher) st
            ≫= forEach (removeMatcher (depthBound st)) (aliasesOf st matcher)
      | None => Some st
      end
  | inr matcher => removeMatcher (depthBound st) matcher st
  end.

(** [getRoutes] returns the array [matchers] itself, not a copy: the result
    is a reference, and reading through it gives the array as it is then. *)
Inductive ArrayRef := MatchersArray.

Definition getRoutes (st : Registry) : ArrayRef * Registry := (MatchersArray, st).

Definition readArray (r : ArrayRef) (st : Registry) : list RouteRecordMatcher :=
  match r with MatchersArray => matchers st end.

(** The test guarding [insertMatcher] in [addRoute]. *)
Definition displaysSomething (r : RouteRecordNormalized) : bool :=
  match rec_components r with
  | Some cs => negb (length (map_to_list cs) =? 0)%nat
  | None => false
  end
  || truthyName (rec_name r)
  || truthyRedirect (rec_redirect r).

(** [path[0] !== '/'] *)
Definition notAbsolute (path : string) : bool :=
  match path with
  | String "/"%char _ => false
  | _ => true
  end.

(** [parentPath[parentPath.length - 1] === '/'] *)
Fixpoint endsWithSlash (s : string) : bool :=
  match s with
  | EmptyString => false
  | String c EmptyString => Ascii.eqb c "/"%char
  | String _ rest => endsWithSlash rest
  end.

(** The path of a record added under [parent]. *)
Definition joinPath (parent : option RouteRecordMatcher) (path : string) : string :=
  match parent with
  | Some p =>
      if notAbsolute path then
        let parentPath := rec_path (record p) in
        let connectingSlash := (if endsWithSlash parentPath then "" else "/")%string in
        (parentPath +:+ (if String.eqb path "" then "" else connectingSlash +:+ path))%string
      else path
  | None => path
  end.

Definition setPath (path : string) (r : RouteRecordNormalized) : RouteRecordNormalized :=
  mkNormalized path (rec_redirect r) (rec_name r) (rec_meta r) (rec_aliasOf r)
    (rec_children r) (rec_components r).

Definition setAliasOf (a : option RouteRecordNormalized) (r : RouteRecordNormalized)
  : RouteRecordNormalized :=
  mkNormalized (rec_path r) (rec_redirect r) (rec_name r) (rec_meta r) a
    (rec_children r) (rec_components r).

Definition setComponents (cs : option (gmap string RouteComponent))
    (r : RouteRecordNormalized) : RouteRecordNormalized :=
  mkNormalized (rec_path r) (rec_redirect r) (rec_name r) (rec_meta r) (rec_aliasOf r)
    (rec_children r) cs.

(** The parts of the sibling modules the registry relies on.

    - [compile path options] is [tokensToParser(tokenizePath(path), options)];
    - [comparePathParserScore a b] is negative when [a] ranks before [b];
    - [attach r p] tells whether [createRouteRecordMatcher] appends the new
      matcher, of record [r], to the [children] of its parent, of record [p];
    - [globalOptions] is the second argument of [createRouterMatcher], merged
      with the defaults. *)
Class PathMatcherModule := {
  compile : string → PathParserOptions → PathParser;
  comparePathParserScore : PathParser → PathParser → Z;
  attach : RouteRecordNormalized → RouteRecordNormalized → bool;
  globalOptions : PathParserOptions
}.

Section RouterMatcher.

Context {PM : PathMatcherModule}.

(** Modelled from the spec: [createRouteRecordMatcher] (module pathMatcher)
    wraps the normalized record with its compiled pattern and its parent,
    starts with empty [children] and [alias], and links the new matcher
    under its parent. The object is allocated at the next free index. *)
Definition createRouteRecordMatcher (r : RouteRecordNormalized)
    (parent : option RouteRecordMatcher) (options : PathParserOptions) (st : Registry)
  : RouteRecordMatcher * Registry :=
  let matcher := mkMatcher (length (objects st)) (compile (rec_path r) options) r parent in
  let st := setObjects (objects st ++ [mkObject matcher [] []]) st in
  (matcher,
   match parent with
   | Some p => if attach r (record p) then pushChild p matcher st else st
   | None => st
   end).

(** The [while] loop of [insertMatcher], as the index it stops at. *)
Fixpoint insertIndex (st : Registry) (matcher : RouteRecordMatcher)
    (rest : list RouteRecordMatcher) (i : nat) : option nat :=
  match rest with
  | [] => Some i
  | x :: rest' =>
      if (0 <=? comparePathParserScore (parser matcher) (parser x))%Z then
        (if negb (String.eqb (rec_path (record matcher)) (rec_path (record x)))
         then Some true
         else negb <$> isRecordChildOf (depthBound st) st matcher x)
        ≫= λ continue : bool,
             if continue then insertIndex st matcher rest' (S i) else Some i
      else Some i
  end.

(** [insertMatcher]. *)
Definition insertMatcher (matcher : RouteRecordMatcher) (st : Registry) : option Registry :=
  insertIndex st matcher (matchers st) 0 ≫= λ i,
    let st := setMatchers (spliceInsert i matcher (matchers st)) st in
    Some match rec_name (record matcher) with
         | Some name =>
             if truthyName (Some name) && negb (isAliasRecord matcher)
             then setMatcherMap (<[name := matcher]> (matcherMap st)) st
             else st
         | None => st
         end.

(** The records [addRoute] builds from one definition: the main record and
    one copy per alias. A copy is made of the main record as normalized;
    its [aliasOf] refers to the canonical record, whose path is the joined
    one by the time any matcher of a copy exists. *)
Definition normalizedRecordsOf (record : RouteRecordRaw)
    (parent originalRecord : option RouteRecordMatcher) : list RouteRecordNormalized :=
  let mainNormalizedRecord :=
    setAliasOf (recordOf <$> originalRecord)
               (normalizeRouteRecord record) in
  mainNormalizedRecord ::
    match raw_alias record with
    | Some aliases =>
        (λ alias,
           setAliasOf
             (Some match originalRecord with
                   | Some o => recordOf o
                   | None => setPath (joinPath parent (rec_path mainNormalizedRecord))
                                     mainNormalizedRecord
                   end)
             (setPath alias
                (setComponents
                   match originalRecord with
                   | Some o => rec_components (recordOf o)
                   | None => rec_components mainNormalizedRecord
                   end
                   mainNormalizedRecord)))
        <$> aliases
    | None => []
    end.

(** The variables the [for] loop of [addRoute] carries from one record to
    the next. *)
Record LoopVars := mkVars {
  originalRecord : option RouteRecordMatcher;
  originalMatcher : option RouteRecordMatcher
}.

(** One turn of the [for] loop of [addRoute]. [addChildren matcher orig]
    is the inner loop over [mainNormalizedRecord.children]. *)
Definition addNormalizedRecord
    (addChildren : RouteRecordMatcher → option RouteRecordMatcher → Registry → option Registry)
    (record : RouteRecordRaw) (parent : option RouteRecordMatcher) (isRootAdd : bool)
    (options : PathParserOptions)
    (normalizedRecord : RouteRecordNormalized) (vars : LoopVars) (st : Registry)
  : option (RouteRecordMatcher * LoopVars * Registry) :=
  let path := rec_path normalizedRecord in
  let normalizedRecord := setPath (joinPath parent path) normalizedRecord in
  let '(matcher, st) := createRouteRecordMatcher normalizedRecord parent options st in
  match originalRecord vars with
  | Some o => Some (originalMatcher vars, pushAlias o matcher st)
  | None =>
      let om := default matcher (originalMatcher vars) in
      let st := if sameMatcher om matcher then st else pushAlias om matcher st in
      (match raw_name record with
       | Some name =>
           if isRootAdd && truthyName (Some name) && negb (isAliasRecord matcher)
           then removeRoute (inl name) st else Some st
       | None => Some st
       end) ≫= λ st, Some (Some om, st)
  end ≫= λ '(om, st),
  addChildren matcher (originalRecord vars) st ≫= λ st,
  let vars := mkVars (Some (default matcher (originalRecord vars))) om in
  (if displaysSomething (recordOf matcher)
   then insertMatcher matcher st else Some st) ≫= λ st,
  Some (matcher, vars, st).

(** The [for] loop over the normalized records. *)
Fixpoint forEachRecord
    (body : RouteRecordNormalized → LoopVars → Registry →
            option (RouteRecordMatcher * LoopVars * Registry))
    (l : list RouteRecordNormalized) (vars : LoopVars) (st : Registry)
  : option (LoopVars * Registry) :=
  match l with
  | [] => Some (vars, st)
  | r :: l' => body r vars st ≫= λ '(_, vars, st), forEachRecord body l' vars st
  end.

(** [addRoute]. The result is [originalMatcher]: the returned callback is
    [() => removeRoute(originalMatcher)] when it is defined, [noop] when not. *)
Fixpoint addRoute (record : RouteRecordRaw) (parent originalRecord : option RouteRecordMatcher)
    (st : Registry) {struct record} : option (option RouteRecordMatcher * Registry) :=
  let isRootAdd := negb (bool_decide (is_Some originalRecord)) in
  let options := mergeOptions globalOptions record in
  let addChildren := λ matcher orig st,
    (fix loop (children : list RouteRecordRaw) (i : nat) (st : Registry) {struct children}
       : option Registry :=
       match children with
       | [] => Some st
       | child :: rest =>
           addRoute child (Some matcher) (o ← orig; childrenOf st o !! i) st
             ≫= λ r, loop rest (S i) r.2
       end) (raw_children record) 0 st in
  forEachRecord (addNormalizedRecord addChildren record parent isRootAdd options)
    (normalizedRecordsOf record parent originalRecord) (mkVars originalRecord None) st
    ≫= λ '(vars, st), Some (originalMatcher vars, st).

(** The inner loop of [addRoute] over the children of a definition. *)
Definition addChildren (matcher : RouteRecordMatcher) (orig : option RouteRecordMatcher)
  : list RouteRecordRaw → nat → Registry → option Registry :=
  fix loop (children : list RouteRecordRaw) (i : nat) (st : Registry) {struct children}
    : option Registry :=
    match children with
    | [] => Some st
    | child :: rest =>
        addRoute child (Some matcher) (o ← orig; childrenOf st o !! i) st
          ≫= λ r, loop rest (S i) r.2
    end.

(** The de-registration callback returned by [addRoute]. *)
Definition deregister (om : option RouteRecordMatcher) (st : Registry) : option Registry :=
  match om with
  | Some m => removeRoute (inr m) st
  | None => Some st
  end.

(** [createRouterMatcher(routes, globalOptions)]: the initial routes are
    added in order to the empty registry. *)
Fixpoint addRoutes (routes : list RouteRecordRaw) (st : Registry) : option Registry :=
  match routes with
  | [] => Some st
  | route :: routes' => addRoute route None None st ≫= λ r, addRoutes routes' r.2
  end.

Definition createRouterMatcher (routes : list RouteRecordRaw) : option Registry :=
  addRoutes routes emptyRegistry.

End RouterMatcher.

(** ** A small pattern compiler, for concrete registries *)

Module Demo.

Local Open Scope string_scope.
Local Open Scope list_scope.

Inductive Token :=
  | Static (s : string)
  | Param (name : string) (optional : bool).

Fixpoint splitSlash (s cur : string) : list string :=
  match s with
  | EmptyString => [cur]
  | String c s' =>
      if Ascii.eqb c "/"%char then cur :: splitSlash s' ""
      else splitSlash s' (cur +:+ String c "")
  end.

Definition segments (path : string) : list string :=
  match path with
  | String "/"%char rest => splitSlash rest ""
  | _ => splitSlash path ""
  end.

Fixpoint dropQuestion (s : string) : string * bool :=
  match s with
  | EmptyString => ("", false)
  | String c EmptyString => if Ascii.eqb c "?"%char then ("", true) else (s, false)
  | String c rest => let '(r, o) := dropQuestion rest in (String c r, o)
  end.

Definition tokenOf (seg : string) : Token :=
  match seg with
  | String ":"%char rest => let '(n, o) := dropQuestion rest in Param n o
  | _ => Static seg
  end.

Fixpoint parseTokens (ts : list Token) (segs : list string) : option MatcherParams :=
  match ts, segs with
  | [], [] => Some ∅
  | Static s :: ts', x :: xs => if String.eqb s x then parseTokens ts' xs else None
  | Param n o :: ts', x :: xs =>
      if String.eqb x "" then (if o then parseTokens ts' xs else None)
      else <[n := Plain (ParamString x)]> <$> parseTokens ts' xs
  | [Param _ true], [] => Some ∅
  | _, _ => None
  end.

(** The text of a function, which is what a member of [Object.prototype]
    contributes when it is concatenated to a path. *)
Definition memberText (name : string) : string :=
  "function " +:+ (if String.eqb name "constructor" then "Object" else name)
  +:+ "() { [native code] }".

Fixpoint stringifyTokens (ts : list Token) (params : MatcherParams) : option string :=
  match ts with
  | [] => Some ""
  | Static s :: ts' => (λ r, "/" +:+ s +:+ r) <$> stringifyTokens ts' params
  | Param n o :: ts' =>
      match params !! n with
      | Some (Plain (ParamString v)) =>
          (λ r, "/" +:+ v +:+ r) <$> stringifyTokens ts' params
      | Some (Plain (ParamArray _)) => None
      | Some (PrototypeMember name) =>
          (λ r, "/" +:+ memberText name +:+ r) <$> stringifyTokens ts' params
      | None => if o then stringifyTokens ts' params else None
      end
  end.

Definition tokenScore (t : Token) : list Z :=
  match t with
  | Static _ => [80%Z]
  | Param _ false => [60%Z]
  | Param _ true => [52%Z]
  end.

Definition tokenKeys (ts : list Token) : list PathParserParamKey :=
  omap (λ t, match t with
             | Param n o => Some (mkKey n o false)
             | Static _ => None
             end) ts.

(** Modelled from the spec: the Pattern Compiler (module pathParserRanker)
    on patterns made of static segments and of parameters [:name] and
    [:name?]. One score entry per segment, a static segment above a dynamic
    one; the matching options do not change the result. *)
Definition compilePath (path : string) (options : PathParserOptions) : PathParser :=
  let ts := tokenOf <$> segments path in
  {| score := tokenScore <$> ts;
     keys := tokenKeys ts;
     parse := λ p, parseTokens ts (segments p);
     stringify := stringifyTokens ts |}.

Fixpoint compareScoreArray (a b : list Z) : Z :=
  match a, b with
  | x :: a', y :: b' => if (y - x =? 0)%Z then compareScoreArray a' b' else (y - x)%Z
  | [], [] => 0
  | [], _ :: _ => 1
  | _ :: _, [] => -1
  end.

Fixpoint compareScores (a b : list (list Z)) : Z :=
  match a, b with
  | x :: a', y :: b' =>
      let comp := compareScoreArray x y in
      if (comp =? 0)%Z then compareScores a' b' else comp
  | _, _ => (Z.of_nat (length b) - Z.of_nat (length a))%Z
  end.

(** Modelled from the spec: the Score Comparator (module pathParserRanker):
    segments are compared left to right, the higher weight first, and a
    remaining tie goes to the pattern with more segments. *)
Definition compareScore (a b : PathParser) : Z :=
  compareScores (score a) (score b).

(** Modelled from the spec: [createRouteRecordMatcher] links every matcher
    created under a parent into that parent's [children]. *)
Definition attachAlways (r p : RouteRecordNormalized) : bool := true.

#[export] Instance module : PathMatcherModule :=
  {| compile := compilePath;
     comparePathParserScore := compareScore;
     attach := attachAlways;
     globalOptions := mkOptions false true false |}.

(** The registry [createRouterMatcher(routes, globalOptions)] returns. *)
Definition registryOf (routes : list RouteRecordRaw) : Registry :=
  default emptyRegistry (createRouterMatcher routes).

(** Route definitions: [{ path, name?, component?, children? }]. *)
Definition route (path : string) (name : option string) (view : bool)
    (children : list RouteRecordRaw) : RouteRecordRaw :=
  {| raw_path := path;
     raw_name := NameString <$> name;
     raw_redirect := None;
     raw_alias := None;
     raw_meta := None;
     raw_component := if view then Some (ComponentRef 0) else None;
     raw_components := None;
     raw_strict := None; raw_end := None; raw_sensitive := None;
     raw_children := children |}.

Definition START_LOCATION : MatcherLocation :=
  {| ml_name := None; ml_path := "/"; ml_params := ∅; ml_matched := []; ml_meta := ∅ |}.

(** [{ path: '/users/:id', name: 'user', component }] *)
Definition usersRoute : RouteRecordRaw := route "/users/:id" (Some "user") true [].

(** [{ path: '/users/:constructor', name: 'user', component }] *)
Definition memberRoute : RouteRecordRaw := route "/users/:constructor" (Some "user") true [].

(** [{ path: '/users/:id/:tab?', name: 'user-tab', component }] *)
Definition userTabRoute : RouteRecordRaw :=
  route "/users/:id/:tab?" (Some "user-tab") true [].

(** [{ path: '/a', children: [{ path: '', name: 'a-home', component },
                              { path: 'b', name: 'a-b', component }] }] *)
Definition nestedRoute : RouteRecordRaw :=
  route "/a" None false [route "" (Some "a-home") true []; route "b" (Some "a-b") true []].

(** A named route with a view, a group without view below it, and a named
    route below the group. *)
Definition groupedRoute : RouteRecordRaw :=
  route "/a" (Some "A") true [route "g" None false [route "x" (Some "X") true []]].

(** A layout with an empty-path child. *)
Definition layoutRoute : RouteRecordRaw :=
  route "/a" (Some "layout") true [route "" (Some "home") true []].

(** [{ path: '/a/:id', name: 'dynamic', component }] and
    [{ path: '/a/b', name: 'static', component }] *)
Definition dynamicRoute : RouteRecordRaw := route "/a/:id" (Some "dynamic") true [].
Definition staticRoute : RouteRecordRaw := route "/a/b" (Some "static") true [].

(** The same definition with a [meta] field. *)
Definition withMeta (meta : RouteMeta) (r : RouteRecordRaw) : RouteRecordRaw :=
  mkRaw (raw_path r) (raw_name r) (raw_redirect r) (raw_alias r) (Some meta)
    (raw_component r) (raw_components r) (raw_strict r) (raw_end r) (raw_sensitive r)
    (raw_children r).

(** A layout and its empty-path child, both carrying meta fields. *)
Definition metaRoute : RouteRecordRaw :=
  withMeta {[ "layout" := MetaString "main"; "title" := MetaString "A" ]}
    (route "/a" None false
       [withMeta {[ "title" := MetaString "Home" ]} (route "" (Some "a-home") true [])]).

(** The object created with identity [i]. *)
Definition matcherAt (st : Registry) (i : nat) : option RouteRecordMatcher :=
  obj_self <$> objects st !! i.

(** What the examples observe of a registry: the ordered sequence as
    identities and paths, the identity registered under a name, and the
    identities in the [children] of an object. *)
Definition sequenceOf (st : Registry) : list (nat * string) :=
  (λ m, (uid m, rec_path (record m))) <$> matchers st.

Definition nameId (st : Registry) (name : string) : option nat :=
  uid <$> matcherMap st !! NameString name.

Definition childIds (st : Registry) (i : nat) : list nat :=
  uid <$> default [] (childrenOf st <$> matcherAt st i).

(** What the examples observe of a resolution: the name, the path and the
    paths of the matched records. *)
Definition resolved (c : Completion MatcherLocation)
  : Thrown + (option RouteRecordName * string * list string) :=
  match c with
  | Returns l => inr (ml_name l, ml_path l, rec_path <$> ml_matched l)
  | Throws e => inl e
  end.

End Demo.

(** ** Notions used to state the properties *)

(** The names a pattern declares, and those of its non-optional params. *)
Definition declaredNames (m : RouteRecordMatcher) : list string :=
  key_name <$> keys (parser m).

Definition requiredNames (m : RouteRecordMatcher) : list string :=
  key_name <$> filter (λ k, key_optional k = false) (keys (parser m)).

(** A params mapping restricted to a list of names. *)
Definition restrictTo (names : list string) (params : MatcherParams) : MatcherParams :=
  filter (λ kv, kv.1 ∈ names) params.

(** The data members of [Object.prototype] as a mapping, and a params
    object together with what it inherits of them: its own properties come
    first. *)
Definition inheritedParams : MatcherParams :=
  list_to_map ((λ name, (name, PrototypeMember name)) <$> objectPrototypeDataMembers).

Definition withInherited (params : MatcherParams) : MatcherParams :=
  params ∪ inheritedParams.

(** The parent chain of a matcher, from the matcher itself up to the root. *)
Fixpoint ancestors (m : RouteRecordMatcher) : list RouteRecordMatcher :=
  match m with
  | mkMatcher _ _ _ p =>
      m :: match p with
           | Some pm => ancestors pm
           | None => []
           end
  end.

(** The three shapes of a request, and the matcher each one targets. *)
Inductive RequestShape := ByName | ByPath | RelativeToCurrent.

Definition shapeOf (location : MatcherLocationRaw) : RequestShape :=
  if truthyName (loc_name location) then ByName
  else if bool_decide (is_Some (loc_path location)) then ByPath
  else RelativeToCurrent.

Inductive Locates (st : Registry) (location : MatcherLocationRaw)
    (currentLocation : MatcherLocation) (m : RouteRecordMatcher) : Prop :=
  | locates_by_name name :
      shapeOf location = ByName →
      loc_name location = Some name →
      matcherMap st !! name = Some m →
      Locates st location currentLocation m
  | locates_by_path path :
      shapeOf location = ByPath →
      loc_path location = Some path →
      findMatcher path (matchers st) = Some m →
      Locates st location currentLocation m
  | locates_current_name name :
      shapeOf location = RelativeToCurrent →
      ml_name currentLocation = Some name →
      truthyName (Some name) = true →
      matcherMap st !! name = Some m →
      Locates st location currentLocation m
  | locates_current_path :
      shapeOf location = RelativeToCurrent →
      truthyName (ml_name currentLocation) = false →
      findMatcher (ml_path currentLocation) (matchers st) = Some m →
      Locates st location currentLocation m.

(** ** Notions used to state the properties of the registry *)

(** [m] is an object of the store: the matcher value found at its [uid]. *)
Definition Known (st : Registry) (m : RouteRecordMatcher) : Prop :=
  ∃ o, objects st !! uid m = Some o ∧ obj_self o = m.

Definition KnownOpt (st : Registry) (om : option RouteRecordMatcher) : Prop :=
  ∀ m, om = Some m → Known st m.

(** The matchers [removeRoute] recurses into from [m]. *)
Definition linksOf (st : Registry) (m : RouteRecordMatcher) : list RouteRecordMatcher :=
  childrenOf st m ++ aliasesOf st m.

(** [record] is below [parent] in the tree of [children] arrays. *)
Inductive Descendant (st : Registry) (record : RouteRecordMatcher)
  : RouteRecordMatcher → Prop :=
  | descendant_child parent :
      record ∈ childrenOf st parent → Descendant st record parent
  | descendant_step parent child :
      child ∈ childrenOf st parent → Descendant st record child →
      Descendant st record parent.

(** The matchers a removal starting at [root] takes out of the ordered
    sequence: [root] if it is in the sequence, and every child or alias of
    a removed matcher that is itself in the sequence. *)
Inductive Cascade (st : Registry) (root : RouteRecordMatcher)
  : RouteRecordMatcher → Prop :=
  | cascade_root : root ∈ matchers st → Cascade st root root
  | cascade_link m c :
      Cascade st root m → c ∈ linksOf st m → c ∈ matchers st →
      Cascade st root c.

(** [x] occurs in [l] before an occurrence of [y]. *)
Definition Before {A} (x y : A) (l : list A) : Prop :=
  ∃ l1 l2, l = l1 ++ x :: l2 ∧ y ∈ l2.

(** No matcher of the sequence comes after one of its descendants that has
    the same path. *)
Definition DescendantsFirst (st : Registry) (l : list RouteRecordMatcher) : Prop :=
  ∀ p c, Before p c l → rec_path (record c) = rec_path (record p) →
         ¬ Descendant st c p.

Section Notions.

Context {PM : PathMatcherModule}.

(** [comparePathParserScore(a, b)] on two matchers. *)
Definition rank (a b : RouteRecordMatcher) : Z :=
  comparePathParserScore (parser a) (parser b).

(** Descending specificity: an earlier matcher never ranks strictly after
    a later one. *)
Definition SortedDesc (l : list RouteRecordMatcher) : Prop :=
  StronglySorted (λ a b, (rank a b ≤ 0)%Z) l.

(** What the ordering relies on: on the matchers of the store the
    comparator is a total preorder, and a matcher does not rank strictly
    after an ancestor that has the same path. *)
Record Coherent (st : Registry) : Prop := {
  coh_total : ∀ a b, Known st a → Known st b → (0 ≤ rank a b)%Z ↔ (rank b a ≤ 0)%Z;
  coh_trans : ∀ a b c, Known st a → Known st b → Known st c →
      (rank a b ≤ 0)%Z → (rank b c ≤ 0)%Z → (rank a c ≤ 0)%Z;
  coh_tie : ∀ a b, Known st a → Known st b →
      rec_path (record a) = rec_path (record b) → Descendant st a b →
      (rank a b ≤ 0)%Z
}.

(** The invariant of the registry. *)
Record Inv (st : Registry) : Prop := {
  inv_uid : ∀ i o, objects st !! i = Some o → uid (obj_self o) = i;
  inv_links : ∀ i o c, objects st !! i = Some o →
      c ∈ obj_children o ++ obj_alias o → i < uid c ∧ Known st c;
  inv_known : ∀ m, m ∈ matchers st → Known st m;
  inv_nodup : NoDup (uid <$> matchers st);
  inv_map : ∀ n m, matcherMap st !! n = Some m →
      m ∈ matchers st ∧ rec_name (record m) = Some n ∧ truthyName (Some n) = true;
  inv_display : ∀ m, m ∈ matchers st → displaysSomething (record m) = true;
  inv_sorted : Coherent st → SortedDesc (matchers st);
  inv_before : Coherent st → DescendantsFirst st (matchers st)
}.

(** How a registry grows: objects are only added, and a matcher found in
    the sequence afterwards was there before or is a new one. *)
Record Extends (st st' : Registry) : Prop := {
  ext_length : length (objects st) ≤ length (objects st');
  ext_known : ∀ m, Known st m → Known st' m;
  ext_links : ∀ m,
      childrenOf st m `prefix_of` childrenOf st' m
      ∧ aliasesOf st m `prefix_of` aliasesOf st' m;
  ext_matchers : ∀ m, m ∈ matchers st' →
      m ∈ matchers st ∨ length (objects st) ≤ uid m
}.

(** The registries a caller can obtain: from the empty one by [addRoute]
    under no parent or under a matcher of the registry, and by
    [removeRoute] of a name or of a matcher of the registry. *)
Inductive Reachable : Registry → Prop :=
  | reach_empty : Reachable emptyRegistry
  | reach_addRoute st record parent om st' :
      Reachable st → KnownOpt st parent →
      addRoute record parent None st = Some (om, st') →
      Reachable st'
  | reach_removeName st name st' :
      Reachable st → removeRoute (inl name) st = Some st' → Reachable st'
  | reach_removeMatcher st m st' :
      Reachable st → Known st m → removeRoute (inr m) st = Some st' →
      Reachable st'.

End Notions.

(** What a removal started at [roots] does to a registry. *)
Record Removal (roots : list RouteRecordMatcher) (st st' : Registry) : Prop := {
  rm_objects : objects st' = objects st;
  rm_sublist : matchers st' `sublist_of` matchers st;
  rm_map : matcherMap st' ⊆ matcherMap st;
  rm_roots : ∀ c, c ∈ roots → uid c ∉ uid <$> matchers st';
  rm_removed : ∀ m, m ∈ matchers st → m ∉ matchers st' →
      (∀ c, c ∈ linksOf st m → uid c ∉ uid <$> matchers st')
      ∧ (∃ r, r ∈ roots ∧ Cascade st r m)
      ∧ (∀ n, rec_name (record m) = Some n → truthyName (Some n) = true →
              matcherMap st' !! n = None);
  rm_names : ∀ n,
      matcherMap st' !! n = matcherMap st !! n
      ∨ ∃ m, m ∈ matchers st ∧ (m ∉ matchers st') ∧ rec_name (record m) = Some n
}.

(** Where the loop of [insertMatcher] stops: past every matcher the new
    one does not outrank, unless that matcher has the same path and is an
    ancestor of the new one; and right before the first matcher that it
    outranks or that is such an ancestor. *)
Definition StopsBetween `{PM : PathMatcherModule} (st : Registry) (matcher : RouteRecordMatcher)
    (l1 l2 : list RouteRecordMatcher) : Prop :=
  (∀ x, x ∈ l1 →
     (0 ≤ rank matcher x)%Z
     ∧ ¬ (rec_path (record matcher) = rec_path (record x) ∧ Descendant st matcher x))
  ∧ match l2 with
    | [] => True
    | y :: _ =>
        (rank matcher y < 0)%Z
        ∨ (0 ≤ rank matcher y)%Z
          ∧ rec_path (record matcher) = rec_path (record y) ∧ Descendant st matcher y
    end.

(** What [addRoute] needs from the loop over the children of a record. *)
Definition ChildrenSpec `{PM : PathMatcherModule}
    (addCh : RouteRecordMatcher → option RouteRecordMatcher → Registry → option Registry)
  : Prop :=
  ∀ matcher orig st,
    Inv st → Known st matcher → KnownOpt st orig →
    ∃ st', addCh matcher orig st = Some st' ∧ Inv st' ∧ Extends st st'
           ∧ (isAliasRecord matcher = true → matcherMap st' = matcherMap st).

(** ** The development-only checks of matcher/index.ts

    [addRoute] calls them under [__DEV__] only; each one returns after its
    first call to [warn]. They are modelled by the message they pass to
    [warn], [None] when they stay silent. *)

(** [isSameParam]. *)
Definition isSameParam (a b : PathParserParamKey) : bool :=
  String.eqb (key_name a) (key_name b)
  && Bool.eqb (key_optional a) (key_optional b)
  && Bool.eqb (key_repeatable a) (key_repeatable b).

(** The double quote of the messages. *)
Definition dquote : string := String "034"%char EmptyString.

(** The first key of [ks], among the non-optional ones when [requiredOnly],
    for which [others.find(isSameParam.bind(null, key))] finds nothing. *)
Definition firstUnmatched (requiredOnly : bool) (ks others : list PathParserParamKey)
  : option PathParserParamKey :=
  List.find
    (λ key, (if requiredOnly then negb (key_optional key) else true)
            && negb (bool_decide (is_Some (List.find (isSameParam key) others))))
    ks.

Definition sameParamsMessage (a b : RouteRecordMatcher) (key : PathParserParamKey) : string :=
  ("Alias " +:+ dquote +:+ rec_path (record b) +:+ dquote
   +:+ " and the original record: " +:+ dquote +:+ rec_path (record a) +:+ dquote
   +:+ " must have the exact same param named " +:+ dquote +:+ key_name key
   +:+ dquote)%string.

(** [checkSameParams(a, b)], [a] the original and [b] the alias. *)
Definition checkSameParams (a b : RouteRecordMatcher) : option string :=
  match firstUnmatched true (keys (parser a)) (keys (parser b)) with
  | Some key => Some (sameParamsMessage a b key)
  | None =>
      match firstUnmatched true (keys (parser b)) (keys (parser a)) with
      | Some key => Some (sameParamsMessage a b key)
      | None => None
      end
  end.

Definition missingParamsMessage (r p : RouteRecordMatcher) (key : PathParserParamKey)
  : string :=
  ("Absolute path " +:+ dquote +:+ rec_path (recordOf r) +:+ dquote
   +:+ " must have the exact same param named " +:+ dquote +:+ key_name key +:+ dquote
   +:+ " as its parent " +:+ dquote +:+ rec_path (recordOf p) +:+ dquote +:+ ".")%string.

(** [checkMissingParamsInAbsolutePath(record, parent)]. *)
Definition checkMissingParamsInAbsolutePath (record parent : RouteRecordMatcher)
  : option string :=
  missingParamsMessage record parent
    <$> firstUnmatched false (keys (parser parent)) (keys (parser record)).

(** ** RouterLink.ts: what makes a link active *)

Global Instance RouteParamValue_eq_dec : EqDecision RouteParamValue.
Proof. solve_decision. Defined.

(** [arr.some((value, i) => f(value, i))]. *)
Definition someIndexed {A} (f : A → nat → bool) (l : list A) : bool :=
  existsb (λ iv : nat * A, f iv.2 iv.1) (imap pair l).

(** [includesParams(outer, inner)]: the loop over the keys of [inner]
    returns [false] at the first key that fails. *)
Definition includesParams (outer inner : PathParams) : bool :=
  forallb
    (λ kv : string * RouteParamValue,
       let outerValue := outer !! kv.1 in
       match kv.2 with
       | ParamString innerValue =>
           bool_decide (outerValue = Some (ParamString innerValue))
       | ParamArray innerValue =>
           match outerValue with
           | Some (ParamArray outerValue) =>
               negb (negb (length outerValue =? length innerValue)%nat
                     || someIndexed
                          (λ value i, negb (bool_decide (outerValue !! i = Some value)))
                          innerValue)
           | _ => false
           end
       end)
    (map_to_list inner).

(** [getOriginalPath]. *)
Definition getOriginalPath (record : option RouteRecordNormalized) : string :=
  match record with
  | Some r =>
      match rec_aliasOf r with
      | Some original => rec_path original
      | None => rec_path r
      end
  | None => ""%string
  end.

(** [arr.findIndex(f)], [-1] when no element passes. *)
Fixpoint findIndex {A} (f : A → bool) (l : list A) : Z :=
  match l with
  | [] => (-1)%Z
  | x :: l' =>
      if f x then 0%Z
      else let i := findIndex f l' in if (i <? 0)%Z then (-1)%Z else (i + 1)%Z
  end.

(** [arr[i]] for an index computed in JavaScript numbers: [undefined] when
    it is negative or past the end. *)
Definition at_ {A} (l : list A) (i : Z) : option A :=
  if (i <? 0)%Z then None else l !! Z.to_nat i.

Section UseLink.

(** [isSameRouteRecord] is imported from the module location. *)
Variable isSameRouteRecord : RouteRecordNormalized → RouteRecordNormalized → bool.

(** The computed [activeRecordIndex] of [useLink]: [matched] is the chain
    of the link's target, [currentMatched] the one of the current route. *)
Definition activeRecordIndex (matched currentMatched : list RouteRecordNormalized) : Z :=
  let length := Z.of_nat (length matched) in
  match at_ matched (length - 1) with
  | None => (-1)%Z
  | Some routeMatched =>
      if (List.length currentMatched =? 0)%nat then (-1)%Z
      else
        let index := findIndex (isSameRouteRecord routeMatched) currentMatched in
        if (-1 <? index)%Z then index
        else
          let parentRecordPath := getOriginalPath (at_ matched (length - 2)) in
          if (1 <? length)%Z
             && String.eqb (getOriginalPath (Some routeMatched)) parentRecordPath
             && negb (String.eqb
                        (default ""%string
                           (rec_path <$> at_ currentMatched
                                           (Z.of_nat (List.length currentMatched) - 1)))
                        parentRecordPath)
          then match at_ matched (length - 2) with
               | Some parentRecord =>
                   findIndex (isSameRouteRecord parentRecord) currentMatched
               | None => index
               end
          else index
  end.

(** The computed [isActive] of [useLink]. *)
Definition isActive (matched currentMatched : list RouteRecordNormalized)
    (params currentParams : PathParams) : bool :=
  (-1 <? activeRecordIndex matched currentMatched)%Z
  && includesParams currentParams params.

End UseLink.

(** ** RouterView.ts: the record a view displays *)

(** The loop of the computed [depth]: skip the records that have no
    [components], from index [initialDepth] on. [rest] is what the array
    holds from that index. *)
Fixpoint skipViewless (rest : list RouteRecordNormalized) (initialDepth : nat) : nat :=
  match rest with
  | matchedRoute :: rest' =>
      if negb (bool_decide (is_Some (rec_components matchedRoute)))
      then skipViewless rest' (S initialDepth)
      else initialDepth
  | [] => initialDepth
  end.

(** The computed [depth] of a view that was injected [injectedDepth]. *)
Definition depth (injectedDepth : nat) (matched : list RouteRecordNormalized) : nat :=
  skipViewless (drop injectedDepth matched) injectedDepth.

(** The computed [matchedRouteRef], and the depth provided to the views
    nested in this one. *)
Definition matchedRouteRef (injectedDepth : nat) (matched : list RouteRecordNormalized)
  : option RouteRecordNormalized :=
  matched !! depth injectedDepth matched.

Definition providedDepth (injectedDepth : nat) (matched : list RouteRecordNormalized) : nat :=
  depth injectedDepth matched + 1.

(** [matchedRoute && matchedRoute.components![currentName]] of the render
    function: [None] in the outer option is the [TypeError] of reading a
    key of [null]. The read follows the prototype chain of [components], a
    plain object, so under the name of a member of [Object.prototype] it
    gives that member. *)
Definition viewComponent (injectedDepth : nat) (matched : list RouteRecordNormalized)
    (currentName : string) : option (option (ObjectValue RouteComponent)) :=
  match matchedRouteRef injectedDepth matched with
  | Some matchedRoute =>
      match rec_components matchedRoute with
      | Some components => Some (getProperty components currentName)
      | None => None
      end
  | None => Some None
  end.

(** What the loop of [addRoute] over the children of a record keeps, for a
    property [P] of registries: an original matcher is passed along only
    below an alias. *)
Definition ChildrenKeep `{PM : PathMatcherModule} (P : Registry → Prop)
    (addCh : RouteRecordMatcher → option RouteRecordMatcher → Registry → option Registry)
  : Prop :=
  ∀ matcher orig st st',
    Inv st → Known st matcher → KnownOpt st orig →
    (is_Some orig → isAliasRecord matcher = true) →
    addCh matcher orig st = Some st' → P st → P st'.

(** [{ path: '/a', alias: '/b', name: 'a', component }] *)
Definition aliasedRoute : RouteRecordRaw :=
  {| raw_path := "/a";
     raw_name := Some (NameString "a");
     raw_redirect := None;
     raw_alias := Some ["/b"%string];
     raw_meta := None;
     raw_component := Some (ComponentRef 0);
     raw_components := None;
     raw_strict := None; raw_end := None; raw_sensitive := None;
     raw_children := [] |}.

(** ** history/html5.ts: the listeners of the history

    The state [useHistoryListeners] closes over: the arrays [listeners] and
    [teardowns], [pauseState], and the two containers it shares with
    [useHistoryStateNavigation]. A callback is identified by a number
    ([indexOf] compares by identity); the teardown [listen] returns closes
    over its callback only, so [teardowns] holds the callbacks. *)

(** [StateEntry], restricted to its own fields ([scroll] left out). *)
Record StateEntry := mkStateEntry {
  se_back : option string;
  se_current : string;
  se_forward : option string;
  se_position : Z;
  se_replaced : bool
}.

Record HistoryListeners := mkHistoryListeners {
  hl_listeners : list nat;
  hl_teardowns : list nat;
  hl_pauseState : option string;
  hl_currentLocation : string;
  hl_historyState : option StateEntry
}.

Inductive NavigationDirection := DirectionBack | DirectionForward | DirectionUnknown.

(** One call [listener(to, from, { delta, type: pop, direction })]. *)
Record ListenerCall := mkListenerCall {
  call_listener : nat;
  call_to : string;
  call_from : string;
  call_delta : Z;
  call_direction : NavigationDirection
}.

(** [pauseListeners]. *)
Definition pauseListeners (w : HistoryListeners) : HistoryListeners :=
  mkHistoryListeners (hl_listeners w) (hl_teardowns w) (Some (hl_currentLocation w))
    (hl_currentLocation w) (hl_historyState w).

(** [listen(callback)]; the teardown it returns is [teardown callback]. *)
Definition listen (callback : nat) (w : HistoryListeners) : HistoryListeners :=
  mkHistoryListeners (hl_listeners w ++ [callback]) (hl_teardowns w ++ [callback])
    (hl_pauseState w) (hl_currentLocation w) (hl_historyState w).

Definition teardown (callback : nat) (w : HistoryListeners) : HistoryListeners :=
  let index := findIndex (Nat.eqb callback) (hl_listeners w) in
  if (-1 <? index)%Z
  then mkHistoryListeners (delete (Z.to_nat index) (hl_listeners w)) (hl_teardowns w)
         (hl_pauseState w) (hl_currentLocation w) (hl_historyState w)
  else w.

(** [destroy], as far as the closed-over state goes. *)
Definition destroy (w : HistoryListeners) : HistoryListeners :=
  let w := fold_left (λ w callback, teardown callback w) (hl_teardowns w) w in
  mkHistoryListeners (hl_listeners w) [] (hl_pauseState w) (hl_currentLocation w)
    (hl_historyState w).

(** The calls [listeners.forEach] makes at the end of the handler. The
    callbacks are opaque: what they do to the history while they run is not
    part of the model. *)
Definition directionOf (delta : Z) : NavigationDirection :=
  if (delta =? 0)%Z then DirectionUnknown
  else if (0 <? delta)%Z then DirectionForward else DirectionBack.

Definition notifyListeners (w : HistoryListeners) (from : string) (delta : Z)
  : list ListenerCall :=
  (λ listener,
     mkListenerCall listener (hl_currentLocation w) from delta (directionOf delta))
    <$> hl_listeners w.

(** [popStateHandler({ state })]: [to] is [createCurrentLocation(base,
    location)], read from the window, and [replace] the function passed to
    [useHistoryListeners]. *)
Definition popStateHandler (replace : string → HistoryListeners → HistoryListeners)
    (state : option StateEntry) (to : string) (w : HistoryListeners)
  : HistoryListeners * list ListenerCall :=
  let from := hl_currentLocation w in
  let fromState := hl_historyState w in
  match state with
  | Some state =>
      let w := mkHistoryListeners (hl_listeners w) (hl_teardowns w) (hl_pauseState w)
                 to (Some state) in
      if match hl_pauseState w with
         | Some pauseState => negb (String.eqb pauseState "") && String.eqb pauseState from
         | None => false
         end
      then (mkHistoryListeners (hl_listeners w) (hl_teardowns w) None
              (hl_currentLocation w) (hl_historyState w), [])
      else
        let delta :=
          match fromState with
          | Some fromState => (se_position state - se_position fromState)%Z
          | None => 0%Z
          end in
        (w, notifyListeners w from delta)
  | None =>
      let w := replace to w in
      (w, notifyListeners w from 0)
  end.

(** The state [useHistoryListeners] starts from. *)
Definition useHistoryListeners (currentLocation : string) (historyState : option StateEntry)
  : HistoryListeners :=
  mkHistoryListeners [] [] None currentLocation historyState.

(** The states of the listeners a caller can reach: by [listen], by the
    teardowns [listen] returned, by [pauseListeners], by popstate events and
    by [destroy]. *)
Inductive HistoryReachable (replace : string → HistoryListeners → HistoryListeners)
  : HistoryListeners → Prop :=
  | hr_start currentLocation historyState :
      HistoryReachable replace (useHistoryListeners currentLocation historyState)
  | hr_listen callback w :
      HistoryReachable replace w → HistoryReachable replace (listen callback w)
  | hr_teardown callback w :
      HistoryReachable replace w → HistoryReachable replace (teardown callback w)
  | hr_pause w :
      HistoryReachable replace w → HistoryReachable replace (pauseListeners w)
  | hr_popstate state to w :
      HistoryReachable replace w →
      HistoryReachable replace (popStateHandler replace state to w).1
  | hr_destroy w :
      HistoryReachable replace w → HistoryReachable replace (destroy w).

(** The [invalidParams] that [resolve] computes under [__DEV__] for a
    request by name, and warns about when there is one: the supplied keys
    for which [matcher.keys.find(k => k.name === paramName)] finds nothing.
    The keys come in the order of the mapping. *)
Definition invalidParams (location : MatcherLocationRaw) (matcher : RouteRecordMatcher)
  : list string :=
  List.filter
    (λ paramName,
       negb (bool_decide
               (is_Some (List.find (λ k, String.eqb (key_name k) paramName)
                           (keys (parser matcher))))))
    (map_to_list (default ∅ (loc_params location))).*1.

(** ** Properties of the resolver *)

Lemma inheritedParams_lookup key :
  inheritedParams !! key
  = if decide (key ∈ objectPrototypeDataMembers) then Some (PrototypeMember key) else None.
Proof.
  unfold inheritedParams.
  induction objectPrototypeDataMembers as [|name names IH]; cbn [fmap list_fmap].
  - rewrite list_to_map_nil, lookup_empty. destruct (decide (key ∈ [])) as [Hin|_]; [|done].
    by apply elem_of_nil in Hin.
  - rewrite list_to_map_cons. destruct (decide (key = name)) as [->|Hne].
    + rewrite lookup_insert_eq. rewrite decide_True by left. done.
    + rewrite lookup_insert_ne by done. rewrite IH.
      destruct (decide (key ∈ names)) as [Hin|Hout].
      * rewrite decide_True by by right. done.
      * rewrite decide_False; [done|]. by intros [?|?]%elem_of_cons.
Qed.

Lemma withInherited_lookup (params : MatcherParams) key :
  withInherited params !! key
  = match params !! key with
    | Some v => Some v
    | None =>
        if decide (key ∈ objectPrototypeDataMembers) then Some (PrototypeMember key)
        else None
    end.
Proof.
  unfold withInherited. rewrite lookup_union, inheritedParams_lookup.
  destruct (params !! key); by case_decide.
Qed.

Lemma paramsFromLocation_lookup_acc (params acc : MatcherParams) (names : list string) key :
  fold_left
    (λ newParams k,
       match params !! k with
       | Some v => <[k := v]> newParams
       | None =>
           if bool_decide (k ∈ objectPrototypeDataMembers)
           then <[k := PrototypeMember k]> newParams
           else newParams
       end) names acc !! key
  = match (if decide (key ∈ names) then withInherited params !! key else None) with
    | Some v => Some v
    | None => acc !! key
    end.
Proof.
  assert (∀ k (newParams : MatcherParams),
            match params !! k with
            | Some v => <[k := v]> newParams
            | None =>
                if bool_decide (k ∈ objectPrototypeDataMembers)
                then <[k := PrototypeMember k]> newParams
                else newParams
            end
            = match withInherited params !! k with
              | Some v => <[k := v]> newParams
              | None => newParams
              end) as Hstep.
  { intros k newParams. rewrite withInherited_lookup.
    destruct (params !! k); [done|]. by case_bool_decide; case_decide. }
  revert acc. induction names as [|k names IH]; intros acc; cbn [fold_left].
  - destruct (decide (key ∈ [])) as [Hin|_]; [|done].
    by apply elem_of_nil in Hin.
  - rewrite IH, Hstep. destruct (decide (key ∈ k :: names)) as [Hin|Hout].
    + apply elem_of_cons in Hin.
      destruct (decide (key ∈ names)) as [Hin'|Hout'].
      * destruct (withInherited params !! key) eqn:E; [done|].
        destruct (withInherited params !! k) eqn:Ek; [|done].
        rewrite lookup_insert_ne; [done|congruence].
      * destruct Hin as [->|?]; [|done].
        destruct (withInherited params !! k); [by rewrite lookup_insert_eq|done].
    + rewrite elem_of_cons in Hout.
      rewrite decide_False by tauto.
      destruct (withInherited params !! k);
        [rewrite lookup_insert_ne; [done|]; intros ->; tauto|done].
Qed.

Lemma paramsFromLocation_lookup (params : MatcherParams) (names : list string) key :
  paramsFromLocation params names !! key
  = if decide (key ∈ names) then withInherited params !! key else None.
Proof.
  unfold paramsFromLocation. rewrite paramsFromLocation_lookup_acc, lookup_empty.
  by destruct (if decide (key ∈ names) then withInherited params !! key else None).
Qed.

Lemma restrictTo_lookup (names : list string) (params : MatcherParams) key :
  restrictTo names params !! key = if decide (key ∈ names) then params !! key else None.
Proof.
  unfold restrictTo. destruct (decide (key ∈ names)) as [Hin|Hout].
  - destruct (params !! key) eqn:E.
    + by apply map_lookup_filter_Some.
    + apply map_lookup_filter_None. left. done.
  - apply map_lookup_filter_None. right. intros v _. exact Hout.
Qed.

(** [paramsFromLocation] is the restriction, to the names, of the mapping
    together with what it inherits. *)
Lemma paramsFromLocation_restrictTo (params : MatcherParams) (names : list string) :
  paramsFromLocation params names = restrictTo names (withInherited params).
Proof.
  apply map_eq; intros key. by rewrite paramsFromLocation_lookup, restrictTo_lookup.
Qed.

Lemma requiredNames_declared m key : key ∈ requiredNames m → key ∈ declaredNames m.
Proof.
  unfold requiredNames, declaredNames. rewrite !list_elem_of_fmap.
  intros (k & -> & Hk). exists k. split; [done|].
  by apply list_elem_of_filter in Hk as [_ ?].
Qed.

(** Induction along the parent chain. *)
Lemma matcher_parent_ind (P : RouteRecordMatcher → Prop) :
  (∀ u ps r, P (mkMatcher u ps r None)) →
  (∀ u ps r pm, P pm → P (mkMatcher u ps r (Some pm))) →
  ∀ m, P m.
Proof.
  intros Hroot Hstep.
  fix ind 1. intros [u ps r [pm|]].
  - apply Hstep, ind.
  - apply Hroot.
Qed.

Lemma collectMatched_ancestors m acc :
  collectMatched m acc = (record <$> reverse (ancestors m)) ++ acc.
Proof.
  revert acc. induction m as [u ps r|u ps r pm IH] using matcher_parent_ind;
    intros acc.
  - done.
  - cbn [collectMatched ancestors]. rewrite IH.
    rewrite reverse_cons, fmap_app, <- app_assoc. done.
Qed.

Lemma assign_lookup {V} (target source : gmap string V) key :
  assign target source !! key
  = match source !! key with Some v => Some v | None => target !! key end.
Proof.
  unfold assign. rewrite lookup_union.
  destruct (source !! key), (target !! key); done.
Qed.

(** On a key collision the record nearest to the leaf wins: the merged
    value of a key is found by scanning the matched records from the last
    one backwards. *)
Lemma mergeMetaFields_lookup matched key :
  mergeMetaFields matched !! key
  = head (omap (λ r, rec_meta r !! key) (reverse matched)).
Proof.
  unfold mergeMetaFields.
  induction matched as [|r matched IH] using rev_ind.
  - done.
  - rewrite fold_left_app. cbn [fold_left]. rewrite assign_lookup, IH.
    rewrite reverse_app, reverse_singleton. cbn [app omap list_omap].
    destruct (rec_meta r !! key); done.
Qed.

Lemma findMatcher_first path l1 m l2 :
  re_test (parser m) path = true →
  (∀ x, x ∈ l1 → re_test (parser x) path = false) →
  findMatcher path (l1 ++ m :: l2) = Some m.
Proof.
  intros Hm. unfold findMatcher. induction l1 as [|x l1 IH]; intros Hl1; cbn [app find].
  - by rewrite Hm.
  - rewrite (Hl1 x) by left. apply IH. intros y Hy. apply Hl1. by right.
Qed.

Lemma findMatcher_none path l :
  (∀ x, x ∈ l → re_test (parser x) path = false) →
  findMatcher path l = None.
Proof.
  unfold findMatcher. induction l as [|x l IH]; intros Hl; cbn [find]; [done|].
  rewrite (Hl x) by left. apply IH. intros y Hy. apply Hl. by right.
Qed.

Lemma findMatcher_Some path l m :
  findMatcher path l = Some m →
  ∃ l1 l2, l = l1 ++ m :: l2 ∧ re_test (parser m) path = true
           ∧ ∀ x, x ∈ l1 → re_test (parser x) path = false.
Proof.
  unfold findMatcher. induction l as [|x l IH]; cbn [find]; [done|].
  destruct (re_test (parser x) path) eqn:E.
  - intros [= ->]. exists [], l. split_and!; [done|done|].
    intros y Hy. by apply elem_of_nil in Hy.
  - intros (l1 & l2 & -> & Hm & Hl1)%IH. exists (x :: l1), l2. split_and!; [done|done|].
    intros y [->|Hy]%elem_of_cons; auto.
Qed.

Lemma findMatcher_None path l :
  findMatcher path l = None → ∀ x, x ∈ l → re_test (parser x) path = false.
Proof.
  unfold findMatcher. induction l as [|x l IH]; cbn [find].
  - intros _ y Hy. by apply elem_of_nil in Hy.
  - destruct (re_test (parser x) path) eqn:E; [done|].
    intros Hn y [->|Hy]%elem_of_cons; auto.
Qed.

(** C1. A request by a registered name takes its params from what
    [key in params] finds in the current location's params, for the
    non-optional names of the target pattern, and in the supplied params,
    for the names the pattern declares, the latter overriding; the path is
    the pattern's [stringify] of that mapping (or its error). A key the
    pattern does not declare is absent from the params, and the result does
    not depend on what the request supplies for such keys. For a key that is
    not the name of a member of [Object.prototype] the params are the merge
    of the current and the supplied params. A declared key that is such a
    name breaks this: the result holds the member of [Object.prototype]
    under it when the key is not optional and the merge has nothing for it,
    and whenever the request comes with a params object that lacks the key.
    The params objects are plain objects, given by their own properties,
    [__proto__] not being one; the params of the result are such an object
    again. *)
Theorem resolve_by_name_params st location currentLocation name matcher :
  loc_name location = Some name →
  truthyName (Some name) = true →
  matcherMap st !! name = Some matcher →
  ml_params currentLocation !! "__proto__"%string = None →
  (∀ supplied, loc_params location = Some supplied →
               supplied !! "__proto__"%string = None) →
  let ownMerged :=
    restrictTo (declaredNames matcher) (default ∅ (loc_params location))
    ∪ restrictTo (requiredNames matcher) (ml_params currentLocation) in
  let merged :=
    match loc_params location with
    | Some supplied => restrictTo (declaredNames matcher) (withInherited supplied)
    | None => ∅
    end
    ∪ restrictTo (requiredNames matcher) (withInherited (ml_params currentLocation)) in
  resolve location currentLocation st
  = match stringify (parser matcher) merged with
    | Some path =>
        Returns {| ml_name := rec_name (record matcher);
                   ml_path := path;
                   ml_params := merged;
                   ml_matched := matchedOf (Some matcher);
                   ml_meta := mergeMetaFields (matchedOf (Some matcher)) |}
    | None => Throws StringifyError
    end
  ∧ (∀ key, key ∉ declaredNames matcher → merged !! key = None)
  ∧ merged !! "__proto__"%string = None
  ∧ (∀ key, key ∉ objectPrototypeDataMembers → merged !! key = ownMerged !! key)
  ∧ (∀ key, key ∈ requiredNames matcher → key ∈ objectPrototypeDataMembers →
            ownMerged !! key = None → merged !! key = Some (PrototypeMember key))
  ∧ (∀ key supplied,
       loc_params location = Some supplied → supplied !! key = None →
       key ∈ declaredNames matcher → key ∈ objectPrototypeDataMembers →
       merged !! key = Some (PrototypeMember key))
  ∧ (∀ supplied supplied',
       loc_params location = Some supplied →
       supplied' !! "__proto__"%string = None →
       restrictTo (declaredNames matcher) supplied'
       = restrictTo (declaredNames matcher) supplied →
       resolve (mkLocationRaw (loc_name location) (loc_path location) (Some supplied'))
               currentLocation st
       = resolve location currentLocation st).
Proof.
  intros Hname Htruthy Hlookup Hcurrent Hsupplied ownMerged merged.
  assert (Hres : ∀ loc, loc_name loc = Some name →
            resolve loc currentLocation st
            = match stringify (parser matcher)
                      (match loc_params loc with
                       | Some supplied =>
                           restrictTo (declaredNames matcher) (withInherited supplied)
                       | None => ∅
                       end
                       ∪ restrictTo (requiredNames matcher)
                           (withInherited (ml_params currentLocation))) with
              | Some path =>
                  Returns {| ml_name := rec_name (record matcher);
                             ml_path := path;
                             ml_params :=
                               match loc_params loc with
                               | Some supplied =>
                                   restrictTo (declaredNames matcher)
                                     (withInherited supplied)
                               | None => ∅
                               end
                               ∪ restrictTo (requiredNames matcher)
                                   (withInherited (ml_params currentLocation));
                             ml_matched := matchedOf (Some matcher);
                             ml_meta := mergeMetaFields (matchedOf (Some matcher)) |}
              | None => Throws StringifyError
              end).
  { intros loc Hloc. unfold resolve. rewrite Hloc, Htruthy. cbn [mbind option_bind].
    rewrite Hlookup. unfold assign, finishResolve.
    rewrite !paramsFromLocation_restrictTo. fold (requiredNames matcher) (declaredNames matcher).
    replace (match loc_params loc with
             | Some ps => paramsFromLocation ps (declaredNames matcher)
             | None => ∅
             end)
      with (match loc_params loc with
            | Some supplied => restrictTo (declaredNames matcher) (withInherited supplied)
            | None => ∅
            end); [done|].
    destruct (loc_params loc); [|done].
    by rewrite paramsFromLocation_restrictTo. }
  assert (∀ key,
            merged !! key
            = match (match loc_params location with
                     | Some supplied =>
                         if decide (key ∈ declaredNames matcher)
                         then withInherited supplied !! key else None
                     | None => None
                     end) with
              | Some v => Some v
              | None => if decide (key ∈ requiredNames matcher)
                        then withInherited (ml_params currentLocation) !! key else None
              end) as Hmerged.
  { intros key. subst merged. rewrite lookup_union, restrictTo_lookup.
    destruct (loc_params location) as [supplied|].
    - rewrite restrictTo_lookup.
      by destruct (if decide (key ∈ declaredNames matcher)
                   then withInherited supplied !! key else None), (if decide _ then _ else _).
    - rewrite lookup_empty. by destruct (if decide _ then _ else _). }
  assert (∀ key,
            ownMerged !! key
            = match (if decide (key ∈ declaredNames matcher)
                     then default ∅ (loc_params location) !! key else None) with
              | Some v => Some v
              | None => if decide (key ∈ requiredNames matcher)
                        then ml_params currentLocation !! key else None
              end) as HownMerged.
  { intros key. subst ownMerged. rewrite lookup_union, !restrictTo_lookup.
    by destruct (if decide (key ∈ declaredNames matcher) then _ else _),
                (if decide (key ∈ requiredNames matcher) then _ else _). }
  split_and!.
  - by apply Hres.
  - intros key Hkey. rewrite Hmerged.
    rewrite (decide_False (P := key ∈ requiredNames matcher))
      by (intros Hin; by apply requiredNames_declared in Hin).
    destruct (loc_params location); [|done]. by rewrite decide_False.
  - rewrite Hmerged.
    assert ("__proto__"%string ∉ objectPrototypeDataMembers) as Hproto by compute_done.
    rewrite (withInherited_lookup (ml_params currentLocation)), Hcurrent.
    rewrite (decide_False (P := "__proto__"%string ∈ objectPrototypeDataMembers)) by done.
    destruct (loc_params location) as [supplied|] eqn:Es.
    + rewrite withInherited_lookup, (Hsupplied supplied eq_refl).
      rewrite (decide_False (P := "__proto__"%string ∈ objectPrototypeDataMembers)) by done.
      by repeat case_decide.
    + by case_decide.
  - intros key Hkey. rewrite Hmerged, HownMerged.
    destruct (loc_params location) as [supplied|]; cbn [default from_option id];
      rewrite ?lookup_empty, ?(withInherited_lookup supplied),
        ?(withInherited_lookup (ml_params currentLocation));
      rewrite ?(decide_False (P := key ∈ objectPrototypeDataMembers)) by done;
      repeat case_decide; try done;
      repeat match goal with |- context [?m !! key] => destruct (m !! key) end; done.
  - intros key Hreq Hdata. rewrite Hmerged, HownMerged.
    pose proof (requiredNames_declared _ _ Hreq) as Hdecl.
    destruct (loc_params location) as [supplied|]; cbn [default from_option id];
      rewrite ?lookup_empty, ?(withInherited_lookup supplied),
        ?(withInherited_lookup (ml_params currentLocation));
      rewrite ?(decide_True (P := key ∈ objectPrototypeDataMembers)) by done;
      rewrite ?(decide_True (P := key ∈ declaredNames matcher)) by done;
      rewrite ?(decide_True (P := key ∈ requiredNames matcher)) by done;
      repeat match goal with |- context [?m !! key] => destruct (m !! key) end; done.
  - intros key supplied Hs Hnone Hdecl Hdata. rewrite Hmerged, Hs.
    by rewrite decide_True, withInherited_lookup, Hnone, decide_True by done.
  - intros supplied supplied' Hs _ Heq. rewrite (Hres location Hname).
    rewrite (Hres (mkLocationRaw (loc_name location) (loc_path location) (Some supplied'))
               Hname).
    cbn [loc_params]. rewrite Hs.
    replace (restrictTo (declaredNames matcher) (withInherited supplied'))
      with (restrictTo (declaredNames matcher) (withInherited supplied)); [done|].
    apply map_eq. intros key. rewrite !restrictTo_lookup. case_decide as Hd; [|done].
    rewrite !withInherited_lookup.
    assert (supplied' !! key = supplied !! key) as ->; [|done].
    pose proof (f_equal (λ m : MatcherParams, m !! key) Heq) as Hk. cbn beta in Hk.
    by rewrite !restrictTo_lookup, !decide_True in Hk by done.
Qed.

Lemma matchedOf_ancestors m : matchedOf (Some m) = record <$> reverse (ancestors m).
Proof. cbn [matchedOf]. by rewrite collectMatched_ancestors, app_nil_r. Qed.

Lemma mergeMetaFields_ancestors m key :
  mergeMetaFields (matchedOf (Some m)) !! key
  = head (omap (λ a, rec_meta (record a) !! key) (ancestors m)).
Proof.
  rewrite mergeMetaFields_lookup, matchedOf_ancestors.
  rewrite <- fmap_reverse, reverse_involutive.
  f_equal. induction (ancestors m) as [|a l IH]; [done|].
  cbn [fmap list_fmap omap list_omap]. by rewrite <- IH.
Qed.

(** C3. A request by literal path takes its name and params from the first
    matcher of the ordered sequence whose expression matches, the params
    being that matcher's [parse] of the path; when no matcher matches,
    [resolve] returns the raw path with empty params, an empty matched
    chain and no name, and does not throw. *)
Theorem resolve_by_path st location currentLocation path :
  truthyName (loc_name location) = false →
  loc_path location = Some path →
  (∀ l1 m l2,
     matchers st = l1 ++ m :: l2 →
     re_test (parser m) path = true →
     (∀ x, x ∈ l1 → re_test (parser x) path = false) →
     ∃ params,
       parse (parser m) path = Some params
       ∧ resolve location currentLocation st
         = Returns {| ml_name := rec_name (record m);
                      ml_path := path;
                      ml_params := params;
                      ml_matched := record <$> reverse (ancestors m);
                      ml_meta := mergeMetaFields (record <$> reverse (ancestors m)) |})
  ∧ ((∀ x, x ∈ matchers st → re_test (parser x) path = false) →
     resolve location currentLocation st
     = Returns {| ml_name := None; ml_path := path; ml_params := ∅;
                  ml_matched := []; ml_meta := ∅ |}).
Proof.
  intros Hname Hpath. unfold resolve. rewrite Hname, Hpath. split.
  - intros l1 m l2 Hl Hm Hl1. rewrite Hl, (findMatcher_first _ _ _ _ Hm Hl1).
    unfold re_test in Hm. apply bool_decide_eq_true in Hm as [params Hparams].
    exists params. split; [done|]. rewrite Hparams. unfold finishResolve.
    by rewrite matchedOf_ancestors.
  - intros Hnone. by rewrite (findMatcher_none _ _ Hnone).
Qed.

(** C7. Once a target matcher is located, the matched sequence is the
    parent chain of the target read from the root down to the target, and
    the meta is the fold of the matched records' meta from the root on, each
    record overriding what is there: the value of a key is the one of the
    first record that has it on the way up from the target. Only
    [stringify] can still make the call throw. *)
Theorem resolve_matched_chain st location currentLocation m :
  Locates st location currentLocation m →
  match resolve location currentLocation st with
  | Returns l =>
      ml_matched l = record <$> reverse (ancestors m)
      ∧ ml_meta l = fold_left (λ meta r, rec_meta r ∪ meta) (ml_matched l) ∅
      ∧ ∀ key, ml_meta l !! key
               = head (omap (λ a, rec_meta (record a) !! key) (ancestors m))
  | Throws e => e = StringifyError
  end.
Proof.
  assert (Hfin : ∀ name path params,
            let l := finishResolve (Some m) name path params in
            ml_matched l = record <$> reverse (ancestors m)
            ∧ ml_meta l = fold_left (λ meta r, rec_meta r ∪ meta) (ml_matched l) ∅
            ∧ ∀ key, ml_meta l !! key
                     = head (omap (λ a, rec_meta (record a) !! key) (ancestors m))).
  { intros name path params. cbn. split_and!.
    - apply matchedOf_ancestors.
    - done.
    - apply mergeMetaFields_ancestors. }
  intros Hloc. unfold resolve.
  destruct Hloc as [name Hshape Hname Hmap|path Hshape Hpath Hfind
                   |name Hshape Hname Htruthy Hmap|Hshape Hfalsy Hfind];
    unfold shapeOf in Hshape;
    destruct (truthyName (loc_name location)) eqn:Hn;
    destruct (loc_path location) as [path'|] eqn:Hp;
    cbn in Hshape; try discriminate Hshape.
  - rewrite Hname. cbn [mbind option_bind]. rewrite Hmap.
    destruct (stringify _ _); [apply Hfin|done].
  - rewrite Hname. cbn [mbind option_bind]. rewrite Hmap.
    destruct (stringify _ _); [apply Hfin|done].
  - injection Hpath as ->. rewrite Hfind. apply Hfin.
  - rewrite Hname, Htruthy. cbn [mbind option_bind]. rewrite Hmap.
    destruct (stringify _ _); [apply Hfin|done].
  - rewrite Hfalsy, Hfind.
    destruct (stringify _ _); [apply Hfin|done].
Qed.

(** C2 (amended). [resolve] throws MATCHER_NOT_FOUND exactly when a request
    by name names nothing in the name table, or a request relative to the
    current location cannot find it again: the current location has a name
    and that name is not in the name table, or it has no name and no
    matcher of the sequence matches its path. The error is the completion
    of [resolve] itself. *)
Theorem resolve_not_found st location currentLocation :
  resolve location currentLocation st = Throws MATCHER_NOT_FOUND ↔
  match shapeOf location with
  | ByName => ∃ name, loc_name location = Some name ∧ matcherMap st !! name = None
  | ByPath => False
  | RelativeToCurrent =>
      if truthyName (ml_name currentLocation)
      then ∃ name, ml_name currentLocation = Some name ∧ matcherMap st !! name = None
      else ∀ x, x ∈ matchers st → re_test (parser x) (ml_path currentLocation) = false
  end.
Proof.
  unfold resolve, shapeOf.
  destruct (truthyName (loc_name location)) eqn:Htruthy.
  - destruct (loc_name location) as [name|]; [|done]. cbn [mbind option_bind].
    destruct (matcherMap st !! name) as [matcher|] eqn:Hmap.
    + split.
      * by destruct (stringify _ _).
      * intros (name' & [= <-] & Hnone). congruence.
    + split; [|done]. intros _. by exists name.
  - destruct (loc_path location) as [path|].
    + rewrite bool_decide_eq_true_2 by done.
      by destruct (findMatcher path (matchers st)).
    + rewrite bool_decide_eq_false_2 by (by intros [? ?]).
      destruct (truthyName (ml_name currentLocation)) eqn:Hcur.
      * destruct (ml_name currentLocation) as [name|]; [|done].
        cbn [mbind option_bind].
        destruct (matcherMap st !! name) as [matcher|] eqn:Hmap.
        -- split.
           ++ by destruct (stringify _ _).
           ++ intros (name' & [= <-] & Hnone). congruence.
        -- split; [|done]. intros _. by exists name.
      * destruct (findMatcher _ _) as [matcher|] eqn:Hfind.
        -- split.
           ++ by destruct (stringify _ _).
           ++ intros Hnone. apply findMatcher_Some in Hfind as (l1 & l2 & Hl & Hm & _).
              rewrite Hnone in Hm; [done|]. rewrite Hl. set_solver.
        -- split; [|done]. intros _. by apply findMatcher_None.
Qed.

(** ** Arrays of matcher objects *)

Lemma indexOf_Some m l i :
  indexOf m l = Some i → ∃ x, l !! i = Some x ∧ uid x = uid m.
Proof.
  revert i. induction l as [|x l IH]; intros i; cbn [indexOf]; [done|].
  unfold sameMatcher. destruct (Nat.eqb_spec (uid x) (uid m)) as [E|E].
  - intros [= <-]. by exists x.
  - destruct (indexOf m l) as [j|]; [|done]. intros [= <-].
    destruct (IH j eq_refl) as (y & ? & ?). by exists y.
Qed.

Lemma indexOf_None m l : indexOf m l = None ↔ uid m ∉ uid <$> l.
Proof.
  induction l as [|x l IH]; cbn [indexOf].
  - split; [|done]. intros _. apply not_elem_of_nil.
  - unfold sameMatcher. destruct (Nat.eqb_spec (uid x) (uid m)) as [E|E].
    + split; [done|]. intros []. rewrite fmap_cons, E. left.
    + rewrite fmap_cons, not_elem_of_cons, <- IH.
      destruct (indexOf m l); cbn; split; try done; try tauto.
      intros [_ ?]. done.
Qed.

Lemma NoDup_fmap_elem_eq {A B} (f : A → B) (l : list A) x y :
  NoDup (f <$> l) → x ∈ l → y ∈ l → f x = f y → x = y.
Proof.
  induction l as [|a l IH]; [by intros _ ?%elem_of_nil|].
  rewrite fmap_cons, NoDup_cons. intros [Ha Hl] Hx Hy E.
  apply elem_of_cons in Hx as [->|Hx], Hy as [->|Hy]; try done.
  - destruct Ha. rewrite E. by apply list_elem_of_fmap_2.
  - destruct Ha. rewrite <- E. by apply list_elem_of_fmap_2.
  - by apply IH.
Qed.

Lemma elem_of_delete_indexOf m l i x :
  NoDup (uid <$> l) → indexOf m l = Some i →
  x ∈ delete i l ↔ x ∈ l ∧ uid x ≠ uid m.
Proof.
  revert i. induction l as [|a l IH]; intros i; cbn [indexOf]; [done|].
  rewrite fmap_cons, NoDup_cons. intros [Ha Hl].
  unfold sameMatcher. destruct (Nat.eqb_spec (uid a) (uid m)) as [E|E].
  - intros [= <-]. cbn. rewrite elem_of_cons. split.
    + intros Hx. split; [by right|]. intros E'. destruct Ha. rewrite E, <- E'.
      by apply list_elem_of_fmap_2.
    + intros [[->|Hx] Hne]; done.
  - destruct (indexOf m l) as [j|] eqn:Hj; [|done]. intros [= <-]. cbn.
    rewrite !elem_of_cons, (IH j Hl eq_refl). split.
    + intros [->|[? ?]]; [split; [by left|done]|split; [by right|done]].
    + intros [[->|?] ?]; [by left|by right].
Qed.

Lemma StronglySorted_sublist {A} (R : A → A → Prop) l l' :
  l' `sublist_of` l → StronglySorted R l → StronglySorted R l'.
Proof.
  induction 1 as [|x l1 l2 Hsub IH|x l1 l2 Hsub IH]; [done|..].
  - rewrite !StronglySorted_cons. intros [Hall Hs]. split; [|by apply IH].
    rewrite Forall_forall in Hall |- *. intros y Hy. apply Hall.
    eapply elem_of_sublist; done.
  - rewrite StronglySorted_cons. intros [_ Hs]. by apply IH.
Qed.

Lemma sublist_fmap_elem_of {A B} (f : A → B) (l l' : list A) b :
  l' `sublist_of` l → b ∉ f <$> l → b ∉ f <$> l'.
Proof.
  intros Hsub Hb Hb'. apply Hb.
  apply list_elem_of_fmap in Hb' as (x & -> & Hx).
  apply list_elem_of_fmap_2. eapply elem_of_sublist; done.
Qed.

(** ** The store *)

Lemma Known_eq st a b : Known st a → Known st b → uid a = uid b → a = b.
Proof. intros (oa & Ha & <-) (ob & Hb & <-) E. rewrite E in Ha. congruence. Qed.

Lemma Known_lt st m : Known st m → uid m < length (objects st).
Proof. intros (o & Ho & _). by apply lookup_lt_Some in Ho. Qed.

Lemma Known_objects st st' m : objects st' = objects st → Known st m → Known st' m.
Proof. unfold Known. by intros ->. Qed.

Lemma linksOf_objects st st' m : objects st' = objects st → linksOf st' m = linksOf st m.
Proof. unfold linksOf, childrenOf, aliasesOf. by intros ->. Qed.

Lemma Descendant_objects st st' a b :
  objects st' = objects st → Descendant st a b → Descendant st' a b.
Proof.
  intros Hobj. induction 1 as [p Hp|p c Hc _ IH].
  - apply descendant_child. unfold childrenOf in *. by rewrite Hobj.
  - eapply descendant_step; [|exact IH]. unfold childrenOf in *. by rewrite Hobj.
Qed.

Lemma Cascade_mono st1 st r m :
  objects st1 = objects st →
  (∀ x, x ∈ matchers st1 → x ∈ matchers st) →
  Cascade st1 r m → Cascade st r m.
Proof.
  intros Hobj Hsub. induction 1 as [Hr|m c _ IH Hc Hin].
  - apply cascade_root. by apply Hsub.
  - eapply cascade_link; [exact IH| |by apply Hsub].
    by rewrite <- (linksOf_objects st st1 _ Hobj).
Qed.

Lemma Cascade_graft st1 st root parent r m :
  objects st1 = objects st →
  (∀ x, x ∈ matchers st1 → x ∈ matchers st) →
  Cascade st root parent → r ∈ linksOf st parent →
  Cascade st1 r m → Cascade st root m.
Proof.
  intros Hobj Hsub Hparent Hr. induction 1 as [Hin|m c _ IH Hc Hin].
  - eapply cascade_link; [exact Hparent|exact Hr|by apply Hsub].
  - eapply cascade_link; [exact IH| |by apply Hsub].
    by rewrite <- (linksOf_objects st st1 _ Hobj).
Qed.

Lemma Removal_nil st : Removal [] st st.
Proof.
  split; try done.
  - intros c Hc. by apply elem_of_nil in Hc.
  - intros n. by left.
Qed.

Lemma Removal_seq roots1 roots2 st st1 st2 :
  NoDup (uid <$> matchers st) →
  Removal roots1 st st1 → Removal roots2 st1 st2 →
  Removal (roots1 ++ roots2) st st2.
Proof.
  intros Hnd [Ho1 Hs1 Hm1 Hr1 Hd1 Hn1] [Ho2 Hs2 Hm2 Hr2 Hd2 Hn2]. split.
  - congruence.
  - by etrans.
  - by etrans.
  - intros c [Hc|Hc]%elem_of_app.
    + eapply sublist_fmap_elem_of; [exact Hs2|]. by apply Hr1.
    + by apply Hr2.
  - intros m Hin Hout.
    destruct (decide (uid m ∈ uid <$> matchers st1)) as [Hmid|Hmid].
    + assert (m ∈ matchers st1) as Hin1.
      { apply list_elem_of_fmap in Hmid as (x & E & Hx).
        assert (x ∈ matchers st) as Hx' by (eapply elem_of_sublist; done).
        by rewrite (NoDup_fmap_elem_eq uid _ m x Hnd Hin Hx' E). }
      destruct (Hd2 m Hin1 Hout) as (Hclosed & (r & Hr & Hcas) & Hname).
      split_and!.
      * intros c Hc. apply Hclosed. by rewrite (linksOf_objects st st1 _ Ho1).
      * exists r. split; [apply elem_of_app; by right|].
        eapply Cascade_mono; [exact Ho1| |exact Hcas].
        intros x Hx. eapply elem_of_sublist; done.
      * done.
    + assert (m ∉ matchers st1) as Hout1.
      { intros Hx. apply Hmid. by apply list_elem_of_fmap_2. }
      destruct (Hd1 m Hin Hout1) as (Hclosed & (r & Hr & Hcas) & Hname).
      split_and!.
      * intros c Hc. eapply sublist_fmap_elem_of; [exact Hs2|]. by apply Hclosed.
      * exists r. split; [apply elem_of_app; by left|done].
      * intros n Hn Ht. eapply lookup_weaken_None; [|exact Hm2]. by apply Hname.
  - intros n. destruct (Hn2 n) as [E2|(m & Hin1 & Hout2 & Hname)].
    + destruct (Hn1 n) as [E1|(m & Hin & Hout1 & Hname)]; [left; congruence|].
      right. exists m. split_and!; [done| |done].
      intros Hin2. apply Hout1. eapply elem_of_sublist; done.
    + right. exists m. split_and!; [|done..]. eapply elem_of_sublist; done.
Qed.

Lemma Before_cons {A} (x y a : A) l :
  Before x y (a :: l) ↔ (x = a ∧ y ∈ l) ∨ Before x y l.
Proof.
  split.
  - intros (l1 & l2 & E & Hy). destruct l1 as [|b l1]; injection E as <- ->.
    + by left.
    + right. by exists l1, l2.
  - intros [[-> Hy]|(l1 & l2 & -> & Hy)].
    + by exists [], l.
    + by exists (a :: l1), l2.
Qed.

Lemma Before_nil {A} (x y : A) : ¬ Before x y [].
Proof. intros (l1 & l2 & E & _). by destruct l1. Qed.

Lemma Before_app {A} (x y : A) l l' :
  Before x y (l ++ l') ↔ Before x y l ∨ (x ∈ l ∧ y ∈ l') ∨ Before x y l'.
Proof.
  induction l as [|a l IH]; cbn [app].
  - split; [by auto|]. intros [H|[[H _]|H]]; [by apply Before_nil in H| |done].
    by apply elem_of_nil in H.
  - rewrite !Before_cons, IH, elem_of_app, elem_of_cons. naive_solver.
Qed.

Lemma Before_sublist {A} (x y : A) l l' :
  l' `sublist_of` l → Before x y l' → Before x y l.
Proof.
  induction 1 as [|a l1 l2 Hsub IH|a l1 l2 Hsub IH].
  - done.
  - rewrite !Before_cons. intros [[-> Hy]|H]; [left|right; auto].
    split; [done|]. by eapply elem_of_sublist.
  - rewrite Before_cons. auto.
Qed.

Lemma Descendant_trans st a b c :
  Descendant st a b → Descendant st b c → Descendant st a c.
Proof.
  intros Hab. induction 1 as [p Hp|p x Hx _ IH].
  - by eapply descendant_step.
  - eapply descendant_step; [exact Hx|exact IH].
Qed.

Lemma Descendant_uid st c p :
  (∀ i o x, objects st !! i = Some o →
            x ∈ obj_children o ++ obj_alias o → i < uid x ∧ Known st x) →
  Descendant st c p → uid p < uid c.
Proof.
  intros Hlinks.
  assert (∀ a b, a ∈ childrenOf st b → uid b < uid a) as Hchild.
  { intros a b. unfold childrenOf. destruct (objects st !! uid b) as [o|] eqn:Ho.
    - intros Ha. apply (Hlinks _ o a Ho). apply elem_of_app. by left.
    - by intros ?%elem_of_nil. }
  induction 1 as [p Hp|p x Hx _ IH].
  - by apply Hchild.
  - apply Hchild in Hx. lia.
Qed.

Lemma DescendantsFirst_sublist st st' l l' :
  objects st' = objects st → l' `sublist_of` l →
  DescendantsFirst st l → DescendantsFirst st' l'.
Proof.
  intros Hobj Hsub Hl p c Hb Hpath Hd. apply (Hl p c); [|done|].
  - by eapply Before_sublist.
  - symmetry in Hobj. by eapply Descendant_objects.
Qed.

Section Registry.

Context {PM : PathMatcherModule}.

Lemma Coherent_objects st st' :
  objects st' = objects st → Coherent st' → Coherent st.
Proof.
  intros Hobj [Htot Htrans Htie]. split.
  - intros a b Ha Hb. apply Htot; by eapply Known_objects.
  - intros a b c Ha Hb Hc. apply Htrans; by eapply Known_objects.
  - intros a b Ha Hb Hpath Hdesc.
    apply Htie; [by eapply Known_objects..|done|by eapply Descendant_objects].
Qed.

(** Taking matchers out of the sequence, and entries out of the name
    table, keeps the invariant as long as every remaining entry of the
    table still points into the sequence. *)
Lemma Inv_shrink st st' :
  Inv st →
  objects st' = objects st →
  matchers st' `sublist_of` matchers st →
  (∀ n m, matcherMap st' !! n = Some m →
          matcherMap st !! n = Some m ∧ m ∈ matchers st') →
  Inv st'.
Proof.
  intros [Huid Hlinks Hknown Hnd Hmap Hdisp Hsorted Hbefore] Hobj Hsub Hmap'. split.
  - rewrite Hobj. exact Huid.
  - rewrite Hobj. intros i o c Ho Hc. destruct (Hlinks i o c Ho Hc) as [? ?].
    split; [done|by eapply Known_objects].
  - intros m Hm. eapply Known_objects; [done|]. apply Hknown.
    eapply elem_of_sublist; done.
  - eapply sublist_NoDup; [exact Hnd|by apply fmap_sublist].
  - intros n m Hn. destruct (Hmap' n m Hn) as [Hn' Hin].
    destruct (Hmap n m Hn') as (_ & ? & ?). done.
  - intros m Hm. apply Hdisp. eapply elem_of_sublist; done.
  - intros Hcoh. eapply StronglySorted_sublist; [exact Hsub|].
    apply Hsorted. symmetry in Hobj. by eapply Coherent_objects.
  - intros Hcoh. apply (DescendantsFirst_sublist st st' (matchers st)); [done..|].
    apply Hbefore. symmetry in Hobj. by eapply Coherent_objects.
Qed.

Lemma forEach_removal fuel :
  (∀ c st, Inv st → Known st c → length (objects st) < fuel + uid c →
     ∃ st', removeMatcher fuel c st = Some st' ∧ Removal [c] st st' ∧ Inv st') →
  ∀ l st, Inv st →
    (∀ c, c ∈ l → Known st c ∧ length (objects st) < fuel + uid c) →
    ∃ st', forEach (removeMatcher fuel) l st = Some st' ∧ Removal l st st' ∧ Inv st'.
Proof.
  intros IH. induction l as [|c l IHl]; intros st Hinv Hl.
  - exists st. split_and!; [done|apply Removal_nil|done].
  - destruct (Hl c) as [Hk Hb]; [left|].
    destruct (IH c st Hinv Hk Hb) as (st1 & E1 & R1 & I1).
    destruct (IHl st1 I1) as (st2 & E2 & R2 & I2).
    { intros c' Hc'. destruct (Hl c') as [Hk' Hb']; [by right|].
      rewrite (rm_objects _ _ _ R1). split; [|done].
      eapply Known_objects; [|exact Hk']. apply (rm_objects _ _ _ R1). }
    exists st2. cbn [forEach]. rewrite E1. cbn [mbind option_bind].
    split_and!; [done| |done].
    apply (Removal_seq [c] l st st1 st2); [apply Hinv|done|done].
Qed.

(** [removeRoute] on a matcher of the store returns, and removes from the
    sequence exactly the cascade started at that matcher. *)
Lemma removeMatcher_spec fuel c st :
  Inv st → Known st c → length (objects st) < fuel + uid c →
  ∃ st', removeMatcher fuel c st = Some st' ∧ Removal [c] st st' ∧ Inv st'.
Proof.
  revert c st. induction fuel as [|fuel IH]; intros c st Hinv Hk Hb.
  { apply Known_lt in Hk. lia. }
  cbn [removeMatcher].
  destruct (indexOf c (matchers st)) as [index|] eqn:Hidx.
  2:{ exists st. split_and!; [done| |done]. split; try done.
      - intros c' ->%list_elem_of_singleton. by apply indexOf_None.
      - intros n. by left. }
  pose proof (inv_nodup _ Hinv) as Hnd.
  assert (∀ x, x ∈ delete index (matchers st) ↔ x ∈ matchers st ∧ uid x ≠ uid c)
    as Hdel by (intros x; by apply elem_of_delete_indexOf).
  assert (c ∈ matchers st) as Hcin.
  { destruct (indexOf_Some _ _ _ Hidx) as (x & Hx & E).
    apply list_elem_of_lookup_2 in Hx.
    by rewrite <- (Known_eq st x c (inv_known _ Hinv _ Hx) Hk E). }
  set (st0 := setMatchers (delete index (matchers st)) st).
  set (st1 := match rec_name (record c) with
              | Some name =>
                  if truthyName (Some name)
                  then setMatcherMap (delete name (matcherMap st0)) st0 else st0
              | None => st0
              end).
  assert (objects st1 = objects st) as Hobj1.
  { subst st1 st0. destruct (rec_name (record c)) as [n|]; [|done].
    by destruct (truthyName (Some n)). }
  assert (matchers st1 = delete index (matchers st)) as Hm1.
  { subst st1 st0. destruct (rec_name (record c)) as [n|]; [|done].
    by destruct (truthyName (Some n)). }
  assert (matcherMap st1 ⊆ matcherMap st) as Hsub1.
  { subst st1 st0. destruct (rec_name (record c)) as [n|]; [|done].
    destruct (truthyName (Some n)); [apply delete_subseteq|done]. }
  assert (∀ n, rec_name (record c) = Some n → truthyName (Some n) = true →
               matcherMap st1 !! n = None) as Hname1.
  { intros n Hn Ht. subst st1 st0. rewrite Hn, Ht. apply lookup_delete_eq. }
  assert (Inv st1) as Hinv1.
  { apply (Inv_shrink st); [done|done|rewrite Hm1; apply sublist_delete|].
    intros n m Hn. pose proof (lookup_weaken _ _ _ _ Hn Hsub1) as Hn'.
    split; [done|]. rewrite Hm1. apply Hdel.
    destruct (inv_map _ Hinv n m Hn') as (Hin & Hrn & Ht). split; [done|].
    intros E. rewrite (Known_eq st m c (inv_known _ Hinv _ Hin) Hk E) in Hrn.
    rewrite (Hname1 n Hrn Ht) in Hn. done. }
  assert (∀ c', c' ∈ linksOf st c → Known st1 c' ∧ length (objects st1) < fuel + uid c')
    as Hlinks.
  { intros c' Hc'. destruct Hk as (o & Ho & Hself).
    unfold linksOf, childrenOf, aliasesOf in Hc'. rewrite Ho in Hc'.
    destruct (inv_links _ Hinv _ _ _ Ho Hc') as [Hlt Hk'].
    rewrite Hobj1. split; [by eapply Known_objects|lia]. }
  destruct (forEach_removal fuel IH (childrenOf st1 c) st1 Hinv1)
    as (st2 & E2 & R2 & I2).
  { intros c' Hc'. apply Hlinks. unfold linksOf, childrenOf in *.
    rewrite Hobj1 in Hc'. apply elem_of_app. by left. }
  destruct (forEach_removal fuel IH (aliasesOf st1 c) st2 I2)
    as (st3 & E3 & R3 & I3).
  { intros c' Hc'. rewrite (rm_objects _ _ _ R2).
    destruct (Hlinks c') as [? ?].
    - unfold linksOf, aliasesOf in *. rewrite Hobj1 in Hc'. apply elem_of_app. by right.
    - split; [|done]. eapply Known_objects; [apply (rm_objects _ _ _ R2)|done]. }
  exists st3. split.
  { fold st0 st1. rewrite E2. cbn [mbind option_bind].
    replace (aliasesOf st1 c) with (aliasesOf st1 c) by done. exact E3. }
  split; [|done].
  pose proof (Removal_seq _ _ _ _ _ (inv_nodup _ Hinv1) R2 R3) as R.
  change (childrenOf st1 c ++ aliasesOf st1 c) with (linksOf st1 c) in R.
  rewrite (linksOf_objects st st1 c Hobj1) in R.
  destruct R as [Ho Hs Hm Hr Hd Hnames].
  assert (∀ x, x ∈ matchers st1 → x ∈ matchers st) as Hsub.
  { intros x Hx. rewrite Hm1 in Hx. by apply list_elem_of_delete_inv in Hx. }
  assert (uid c ∉ uid <$> matchers st3) as Hcout.
  { eapply sublist_fmap_elem_of; [exact Hs|]. rewrite Hm1.
    intros (x & E & Hx)%list_elem_of_fmap. apply Hdel in Hx as [_ Hne]; done. }
  assert (∀ n, matcherMap st1 !! n = matcherMap st !! n ∨ rec_name (record c) = Some n)
    as Hkept1.
  { intros n. subst st1 st0. destruct (rec_name (record c)) as [n0|]; [|by left].
    destruct (truthyName (Some n0)); [|by left].
    destruct (decide (n0 = n)) as [->|Hne]; [by right|left].
    cbn [matcherMap setMatcherMap setMatchers]. by rewrite lookup_delete_ne. }
  split.
  - congruence.
  - etrans; [exact Hs|]. rewrite Hm1. apply sublist_delete.
  - by etrans.
  - intros c' ->%list_elem_of_singleton.
    eapply sublist_fmap_elem_of; [exact Hs|]. rewrite Hm1.
    intros (x & E & Hx)%list_elem_of_fmap. apply Hdel in Hx as [_ Hne]; done.
  - intros m Hin Hout. destruct (decide (uid m = uid c)) as [E|E].
    + rewrite (Known_eq st m c (inv_known _ Hinv _ Hin) Hk E). split_and!.
      * done.
      * exists c. split; [by apply list_elem_of_singleton|by apply cascade_root].
      * intros n Hn Ht. eapply lookup_weaken_None; [|exact Hm]. by apply Hname1.
    + assert (m ∈ matchers st1) as Hin1 by (rewrite Hm1; by apply Hdel).
      destruct (Hd m Hin1 Hout) as (Hclosed & (r & Hr' & Hcas) & Hname).
      split_and!.
      * intros c' Hc'. apply Hclosed. by rewrite (linksOf_objects st st1 _ Hobj1).
      * exists c. split; [by apply list_elem_of_singleton|].
        eapply (Cascade_graft st1 st c c r m); [done|done|by apply cascade_root|done|done].
      * done.
  - intros n. destruct (Hnames n) as [E|(m & Hin1 & Hout & Hname)].
    + destruct (Hkept1 n) as [E1|Hcn]; [left; congruence|].
      right. exists c. split_and!; [done| |done].
      intros Hin3. apply Hcout. by apply list_elem_of_fmap_2.
    + right. exists m. split_and!; [by apply Hsub|done..].
Qed.

Lemma removeRoute_name_unfold st name m :
  Inv st → matcherMap st !! name = Some m →
  removeRoute (inl name) st = removeMatcher (S (depthBound st)) m st.
Proof.
  intros Hinv Hmap. destruct (inv_map _ Hinv _ _ Hmap) as (Hin & Hn & Ht).
  unfold removeRoute. rewrite Hmap. cbn [removeMatcher]. unfold spliceIndexOf.
  change (matchers (setMatcherMap (delete name (matcherMap st)) st)) with (matchers st).
  destruct (indexOf m (matchers st)) as [index|] eqn:Hidx.
  - rewrite Hn, Ht. done.
  - apply indexOf_None in Hidx. destruct Hidx. by apply list_elem_of_fmap_2.
Qed.

(** [removeRoute] returns on every registry that satisfies the invariant,
    keeps the invariant, and removes the cascade of its argument. *)
Lemma removeRoute_spec st matcherRef :
  Inv st →
  (∀ m, matcherRef = inr m → Known st m) →
  ∃ st', removeRoute matcherRef st = Some st' ∧ Inv st'
    ∧ Removal match matcherRef with
              | inl name => option_list (matcherMap st !! name)
              | inr m => [m]
              end st st'.
Proof.
  intros Hinv Hk. destruct matcherRef as [name|m].
  - destruct (matcherMap st !! name) as [m|] eqn:Hmap.
    + rewrite (removeRoute_name_unfold st name m Hinv Hmap).
      destruct (inv_map _ Hinv _ _ Hmap) as (Hin & _).
      destruct (removeMatcher_spec (S (depthBound st)) m st Hinv) as (st' & E & R & I).
      { by apply inv_known. }
      { unfold depthBound. lia. }
      exists st'. done.
    + exists st. unfold removeRoute. rewrite Hmap. split_and!; [done..|apply Removal_nil].
  - destruct (removeMatcher_spec (depthBound st) m st Hinv) as (st' & E & R & I).
    { by apply Hk. }
    { unfold depthBound. lia. }
    exists st'. done.
Qed.

End Registry.

(** ** insertMatcher *)

Lemma someM_false {A} (f : A → option bool) l :
  someM f l = Some false → ∀ x, x ∈ l → f x = Some false.
Proof.
  induction l as [|a l IH]; cbn [someM]; [by intros _ x ?%elem_of_nil|].
  destruct (f a) as [[]|] eqn:E; cbn; try done.
  intros Hl x [->|Hx]%elem_of_cons; auto.
Qed.

Lemma someM_true {A} (f : A → option bool) l :
  someM f l = Some true → ∃ x, x ∈ l ∧ f x = Some true.
Proof.
  induction l as [|a l IH]; cbn [someM]; [done|].
  destruct (f a) as [[]|] eqn:E; cbn; try done.
  - intros _. exists a. split; [left|done].
  - intros (x & Hx & Hfx)%IH. exists x. split; [by right|done].
Qed.

Lemma someM_total {A} (f : A → option bool) l :
  (∀ x, x ∈ l → is_Some (f x)) → is_Some (someM f l).
Proof.
  induction l as [|a l IH]; intros Hl; cbn [someM]; [done|].
  destruct (Hl a) as [b ->]; [left|]. cbn. destruct b; [done|].
  apply IH. intros x Hx. apply Hl. by right.
Qed.

Section InsertMatcher.

Context {PM : PathMatcherModule}.

Lemma isRecordChildOf_total fuel st r p :
  Inv st → Known st p → length (objects st) < fuel + uid p →
  is_Some (isRecordChildOf fuel st r p).
Proof.
  intros Hinv. revert p. induction fuel as [|fuel IH]; intros p Hp Hb.
  - apply Known_lt in Hp. lia.
  - cbn [isRecordChildOf]. apply someM_total. intros c Hc.
    destruct (sameMatcher c r); [done|].
    unfold childrenOf in Hc. destruct Hp as (o & Ho & _). rewrite Ho in Hc.
    destruct (inv_links _ Hinv _ _ c Ho) as [Hlt Hkc]; [apply elem_of_app; by left|].
    apply IH; [done|lia].
Qed.

Lemma isRecordChildOf_true fuel st r p :
  Inv st → Known st r → Known st p →
  isRecordChildOf fuel st r p = Some true → Descendant st r p.
Proof.
  intros Hinv Hr. revert p. induction fuel as [|fuel IH]; intros p Hp; [done|].
  cbn [isRecordChildOf]. intros (c & Hc & Hfc)%someM_true.
  assert (Known st c) as Hkc.
  { unfold childrenOf in Hc. destruct Hp as (o & Ho & _). rewrite Ho in Hc.
    apply (inv_links _ Hinv _ _ c Ho). apply elem_of_app. by left. }
  unfold sameMatcher in Hfc. destruct (Nat.eqb_spec (uid c) (uid r)) as [E|E].
  - rewrite (Known_eq st c r Hkc Hr E) in Hc. by apply descendant_child.
  - eapply descendant_step; [exact Hc|]. by apply IH.
Qed.

Lemma isRecordChildOf_false fuel st r p :
  isRecordChildOf fuel st r p = Some false → ¬ Descendant st r p.
Proof.
  revert p. induction fuel as [|fuel IH]; intros p; [done|].
  cbn [isRecordChildOf]. intros Hall Hdesc.
  pose proof (someM_false _ _ Hall) as Hc. cbn beta in Hc.
  destruct Hdesc as [p Hin|p c Hin Hd].
  - specialize (Hc r Hin). unfold sameMatcher in Hc. by rewrite Nat.eqb_refl in Hc.
  - specialize (Hc c Hin). destruct (sameMatcher c r); [done|]. by eapply IH.
Qed.

Lemma insertIndex_spec st matcher rest i :
  Inv st → Known st matcher → (∀ x, x ∈ rest → Known st x) →
  ∃ l1 l2, insertIndex st matcher rest i = Some (i + length l1)
           ∧ rest = l1 ++ l2 ∧ StopsBetween st matcher l1 l2.
Proof.
  intros Hinv Hm. revert i. induction rest as [|x rest IH]; intros i Hrest.
  - exists [], []. cbn. rewrite Nat.add_0_r. split_and!; try done.
    split; [|done]. by intros x ?%elem_of_nil.
  - cbn [insertIndex]. fold (rank matcher x).
    assert (Known st x) as Hx by (apply Hrest; left).
    assert (∀ y, y ∈ rest → Known st y) as Hrest' by (intros y ?; apply Hrest; by right).
    destruct (IH (S i) Hrest') as (l1 & l2 & Ego & -> & S1).
    replace (S i + length l1) with (i + length (x :: l1)) in Ego by (cbn; lia).
    destruct (Z.leb_spec 0 (rank matcher x)) as [Hle|Hlt].
    + destruct (String.eqb_spec (rec_path (record matcher)) (rec_path (record x)))
        as [Hpath|Hpath]; cbn [negb].
      * destruct (isRecordChildOf_total (depthBound st) st matcher x Hinv Hx) as [b Hb].
        { unfold depthBound. lia. }
        rewrite Hb. cbn. destruct b; cbn.
        -- exists [], (x :: l1 ++ l2). cbn. rewrite Nat.add_0_r. split_and!; try done.
           split; [by intros y ?%elem_of_nil|]. right. split_and!; [done..|].
           by eapply isRecordChildOf_true.
        -- exists (x :: l1), l2. split_and!; [done..|].
           destruct S1 as [Hall Hhead]. split; [|done].
           intros y [->|Hy]%elem_of_cons; [|by apply Hall].
           split; [done|]. intros [_ Hd]. by eapply isRecordChildOf_false.
      * cbn. exists (x :: l1), l2. split_and!; [done..|].
        destruct S1 as [Hall Hhead]. split; [|done].
        intros y [->|Hy]%elem_of_cons; [|by apply Hall].
        split; [done|]. by intros [? _].
    + exists [], (x :: l1 ++ l2). cbn. rewrite Nat.add_0_r. split_and!; try done.
      split; [by intros y ?%elem_of_nil|]. by left.
Qed.

Lemma SortedDesc_insert st matcher l1 l2 :
  Coherent st → Known st matcher → (∀ x, x ∈ l1 ++ l2 → Known st x) →
  StopsBetween st matcher l1 l2 →
  SortedDesc (l1 ++ l2) → SortedDesc (l1 ++ matcher :: l2).
Proof.
  intros Hcoh Hm Hk [Hbefore Hafter] Hsorted. unfold SortedDesc in *.
  apply StronglySorted_app in Hsorted as (Hcross & Hs1 & Hs2).
  assert (Forall (λ b, (rank matcher b ≤ 0)%Z) l2) as Hall.
  { destruct l2 as [|y l2]; [done|].
    assert (rank matcher y ≤ 0)%Z as Hy.
    { destruct Hafter as [?|(_ & Hpath & Hdesc)]; [lia|].
      apply (coh_tie _ Hcoh); [done| |done..]. apply Hk. set_solver. }
    apply StronglySorted_cons in Hs2 as [Hy2 _].
    constructor; [done|]. rewrite Forall_forall in Hy2 |- *. intros z Hz.
    apply (coh_trans _ Hcoh matcher y z); [done|apply Hk; set_solver..|done|by apply Hy2]. }
  apply StronglySorted_app. split_and!.
  - intros x1 x2 Hx1 [->|Hx2]%elem_of_cons; [|by apply Hcross].
    apply (coh_total _ Hcoh matcher x1); [done|apply Hk; set_solver|]. by apply Hbefore.
  - done.
  - by apply StronglySorted_cons.
Qed.

Lemma DescendantsFirst_insert st matcher l1 l2 :
  Inv st → Coherent st → Known st matcher → (∀ x, x ∈ l1 ++ l2 → Known st x) →
  StopsBetween st matcher l1 l2 →
  SortedDesc (l1 ++ l2) → DescendantsFirst st (l1 ++ l2) →
  DescendantsFirst st (l1 ++ matcher :: l2).
Proof.
  intros Hinv Hcoh Hm Hk [Hbefore Hafter] Hsorted Hold p c Hb Hpath Hd.
  apply Before_app in Hb as [Hb|[[Hp Hc]|Hb]].
  - apply (Hold p c); [|done..]. apply Before_app. by left.
  - apply elem_of_cons in Hc as [->|Hc].
    + by apply (Hbefore p Hp).
    + apply (Hold p c); [|done..]. apply Before_app. right. by left.
  - apply Before_cons in Hb as [[-> Hc]|Hb].
    2:{ apply (Hold p c); [|done..]. apply Before_app. by right; right. }
    (* the new matcher would come before one of its descendants *)
    assert (Known st c) as Hkc by (apply Hk; set_solver).
    assert (0 ≤ rank matcher c)%Z as Hmc.
    { apply (coh_total _ Hcoh); [done..|]. by apply (coh_tie _ Hcoh). }
    apply StronglySorted_app_1_r in Hsorted.
    destruct l2 as [|y l2]; [by apply elem_of_nil in Hc|].
    assert (Known st y) as Hky by (apply Hk; set_solver).
    apply StronglySorted_cons in Hsorted as [Hy _]. rewrite Forall_forall in Hy.
    destruct Hafter as [Hlt|(_ & Hpath' & Hd')].
    + apply elem_of_cons in Hc as [->|Hc]; [lia|].
      assert (rank y matcher ≤ 0)%Z as Hym.
      { apply (coh_trans _ Hcoh y c matcher); [done..|by apply Hy|].
        by apply (coh_total _ Hcoh matcher c). }
      apply (coh_total _ Hcoh matcher y) in Hym; [lia|done..].
    + pose proof (Descendant_trans _ _ _ _ Hd Hd') as Hcy.
      apply elem_of_cons in Hc as [->|Hc].
      * apply (Descendant_uid _ _ _ (inv_links _ Hinv)) in Hcy. lia.
      * apply (Hold y c); [|congruence|done]. apply Before_app. right. right.
        apply Before_cons. by left.
Qed.

(** [insertMatcher] on a new matcher of the store returns, places the
    matcher where the loop stops and registers its name unless it is an
    alias; the invariant is kept. *)
Lemma insertMatcher_spec st matcher :
  Inv st → Known st matcher → uid matcher ∉ uid <$> matchers st →
  displaysSomething (record matcher) = true →
  ∃ st' l1 l2,
    insertMatcher matcher st = Some st'
    ∧ objects st' = objects st
    ∧ matchers st = l1 ++ l2
    ∧ matchers st' = l1 ++ matcher :: l2
    ∧ StopsBetween st matcher l1 l2
    ∧ matcherMap st'
      = match rec_name (record matcher) with
        | Some name =>
            if truthyName (Some name) && negb (isAliasRecord matcher)
            then <[name := matcher]> (matcherMap st) else matcherMap st
        | None => matcherMap st
        end
    ∧ Inv st'.
Proof.
  intros Hinv Hm Hfresh Hdisp.
  destruct (insertIndex_spec st matcher (matchers st) 0 Hinv Hm (inv_known _ Hinv))
    as (l1 & l2 & Eidx & Hl & Hstop).
  unfold insertMatcher. rewrite Eidx. cbn [mbind option_bind].
  unfold spliceInsert. rewrite Hl. cbn [Nat.add].
  rewrite take_app_length, drop_app_length.
  eexists _, l1, l2. split; [reflexivity|].
  set (st1 := setMatchers (l1 ++ matcher :: l2) st).
  assert (Inv st1) as Hinv1.
  { split; cbn.
    - apply Hinv.
    - intros i o c Ho Hc. destruct (inv_links _ Hinv i o c Ho Hc). done.
    - intros m [?|[->|?]%elem_of_cons]%elem_of_app; [|done|];
        apply (inv_known _ Hinv); rewrite Hl; set_solver.
    - rewrite fmap_app, fmap_cons. rewrite Hl, fmap_app in Hfresh.
      pose proof (inv_nodup _ Hinv) as Hnd. rewrite Hl, fmap_app in Hnd.
      apply NoDup_app in Hnd as (Hn1 & Hn12 & Hn2).
      apply NoDup_app. split_and!; [done| |].
      + intros u Hu [->|Hu2]%elem_of_cons; [set_solver|by eapply Hn12].
      + apply NoDup_cons. split; [set_solver|done].
    - intros n m Hn. destruct (inv_map _ Hinv n m Hn) as (Hin & ? & ?).
      split; [|done]. rewrite Hl in Hin. set_solver.
    - intros m [?|[->|?]%elem_of_cons]%elem_of_app; [|exact Hdisp|];
        apply (inv_display _ Hinv); rewrite Hl; set_solver.
    - intros Hcoh. apply (Coherent_objects st) in Hcoh; [|done].
      apply (SortedDesc_insert st); [done|done| |done|].
      + intros x Hx. apply (inv_known _ Hinv). by rewrite Hl.
      + rewrite <- Hl. by apply (inv_sorted _ Hinv).
    - intros Hcoh. apply (Coherent_objects st) in Hcoh; [|done].
      apply (DescendantsFirst_sublist st _ (l1 ++ matcher :: l2)); [done..|].
      apply (DescendantsFirst_insert st); [done|done|done| |done| |].
      + intros x Hx. apply (inv_known _ Hinv). by rewrite Hl.
      + rewrite <- Hl. by apply (inv_sorted _ Hinv).
      + rewrite <- Hl. by apply (inv_before _ Hinv). }
  destruct (rec_name (record matcher)) as [name|] eqn:Hname; [|by split_and!].
  destruct (truthyName (Some name) && negb (isAliasRecord matcher)) eqn:Hreg;
    [|by split_and!].
  split_and!; try done.
  apply andb_true_iff in Hreg as [Ht _].
  destruct Hinv1 as [Huid Hlinks Hknown Hnd Hmap Hdisp' Hsorted Hb1]. split; try done.
  - intros n m. cbn. destruct (decide (name = n)) as [<-|Hne].
    + rewrite lookup_insert_eq. intros [= <-]. split_and!; [set_solver|done..].
    + rewrite lookup_insert_ne by done. apply Hmap.
  - intros Hcoh. apply Hsorted. by apply (Coherent_objects st1) in Hcoh.
  - intros Hcoh. apply (Coherent_objects st1) in Hcoh; [|done].
    by apply (DescendantsFirst_sublist st1 _ (matchers st1)); [| |apply Hb1].
Qed.

End InsertMatcher.

(** ** Growing the store *)

Lemma Known_alter st g i m :
  (∀ o, obj_self (g o) = obj_self o) →
  Known st m → Known (setObjects (alter g i (objects st)) st) m.
Proof.
  intros Hg (o & Ho & Hself). unfold Known. cbn.
  destruct (decide (i = uid m)) as [->|Hne].
  - exists (g o). rewrite list_lookup_alter, decide_True, Ho by done.
    split; [done|]. by rewrite Hg.
  - exists o. by rewrite list_lookup_alter, decide_False.
Qed.

Lemma Known_app st o m :
  Known st m → Known (setObjects (objects st ++ [o]) st) m.
Proof.
  intros (o' & Ho & Hself). exists o'. cbn. split; [|done].
  rewrite lookup_app_l; [done|]. by eapply lookup_lt_Some.
Qed.

Lemma Descendant_mono st st' a b :
  (∀ m, childrenOf st m `prefix_of` childrenOf st' m) →
  Descendant st a b → Descendant st' a b.
Proof.
  intros Hpre. induction 1 as [p Hp|p c Hc _ IH].
  - apply descendant_child. destruct (Hpre p) as [k ->]. set_solver.
  - eapply descendant_step; [|exact IH]. destruct (Hpre p) as [k ->]. set_solver.
Qed.

Lemma Cascade_in st root m : Cascade st root m → m ∈ matchers st.
Proof. by destruct 1. Qed.

Lemma Extends_refl st : Extends st st.
Proof. split; auto. Qed.

Lemma Extends_trans st1 st2 st3 : Extends st1 st2 → Extends st2 st3 → Extends st1 st3.
Proof.
  intros [Hl1 Hk1 Hp1 Hm1] [Hl2 Hk2 Hp2 Hm2]. split.
  - lia.
  - auto.
  - intros m. destruct (Hp1 m) as [? ?], (Hp2 m) as [? ?].
    split; by etrans.
  - intros m Hm. destruct (Hm2 m Hm) as [Hin|Hge]; [|right; lia].
    destruct (Hm1 m Hin); auto.
Qed.

Lemma Extends_shrink st st' :
  objects st' = objects st → (∀ m, m ∈ matchers st' → m ∈ matchers st) →
  Extends st st'.
Proof.
  intros Hobj Hsub. split.
  - by rewrite Hobj.
  - intros m. by apply Known_objects.
  - intros m. unfold childrenOf, aliasesOf. by rewrite Hobj.
  - intros m Hm. left. by apply Hsub.
Qed.

Lemma KnownOpt_Extends st st' om : Extends st st' → KnownOpt st om → KnownOpt st' om.
Proof. intros Hext Hk m ->. by apply (ext_known _ _ Hext), Hk. Qed.

Section Store.

Context {PM : PathMatcherModule}.

Lemma Coherent_Extends st st' : Extends st st' → Coherent st' → Coherent st.
Proof.
  intros Hext [Htot Htrans Htie].
  pose proof (ext_known _ _ Hext) as Hk. split.
  - intros a b Ha Hb. apply Htot; auto.
  - intros a b c Ha Hb Hc. apply Htrans; auto.
  - intros a b Ha Hb Hpath Hdesc. apply Htie; auto.
    eapply Descendant_mono; [|exact Hdesc]. intros m. apply (ext_links _ _ Hext).
Qed.

(** A change of the store alone keeps the invariant when the store stays
    well formed and only grows. *)
Lemma Inv_store st st' :
  Inv st →
  matchers st' = matchers st → matcherMap st' = matcherMap st →
  Extends st st' →
  (∀ i o, objects st' !! i = Some o → uid (obj_self o) = i) →
  (∀ i o c, objects st' !! i = Some o →
            c ∈ obj_children o ++ obj_alias o → i < uid c ∧ Known st' c) →
  (∀ c p, c ∈ matchers st → Descendant st' c p → Descendant st c p) →
  Inv st'.
Proof.
  intros [Huid Hlinks Hknown Hnd Hmap Hdisp Hsorted Hbefore] Hm Hmm Hext Huid' Hlinks' Hdesc.
  split; try done.
  - intros m. rewrite Hm. intros Hin. by apply (ext_known _ _ Hext), Hknown.
  - by rewrite Hm.
  - intros n m. rewrite Hmm, Hm. apply Hmap.
  - intros m. rewrite Hm. apply Hdisp.
  - intros Hcoh. rewrite Hm. by apply Hsorted, (Coherent_Extends st st').
  - intros Hcoh p c. rewrite Hm. intros Hb Hpath Hd.
    apply (Hbefore (Coherent_Extends st st' Hext Hcoh) p c Hb Hpath).
    apply Hdesc; [|done]. destruct Hb as (l1 & l2 & -> & Hc). set_solver.
Qed.

(** Appending [c], a matcher newer than all those of the sequence, to the
    [children] or to the [alias] of [p]. *)
Lemma push_spec st g p c :
  (∀ o, obj_self (g o) = obj_self o
        ∧ obj_children o `prefix_of` obj_children (g o)
        ∧ obj_alias o `prefix_of` obj_alias (g o)
        ∧ (∀ x, x ∈ obj_children (g o) → x ∈ obj_children o ∨ x = c)
        ∧ (∀ x, x ∈ obj_alias (g o) → x ∈ obj_alias o ∨ x = c)) →
  Inv st → Known st c → uid p < uid c →
  (∀ x, x ∈ matchers st → uid x < uid c) →
  let st' := setObjects (alter g (uid p) (objects st)) st in
  Inv st' ∧ Extends st st'.
Proof.
  intros Hg Hinv Hc Hlt Hnew st'.
  assert (∀ m, Known st m → Known st' m) as Hk.
  { intros m. apply Known_alter. intros o. apply Hg. }
  assert (Extends st st') as Hext.
  { split.
    - cbn. by rewrite length_alter.
    - done.
    - intros m. unfold childrenOf, aliasesOf. cbn.
      rewrite list_lookup_alter.
      case_decide as E; [rewrite <- E|];
        destruct (objects st !! _) as [o|]; cbn; split; try done; apply Hg.
    - intros m Hm. by left. }
  assert (∀ i o x, objects st' !! i = Some o →
            x ∈ obj_children o ++ obj_alias o → i < uid x ∧ Known st' x) as Hlinks'.
  { intros i o x. cbn. rewrite list_lookup_alter. case_decide as E.
    - subst i. destruct (objects st !! uid p) as [o'|] eqn:Ho; cbn; [|done].
      intros [= <-] Hx. destruct (Hg o') as (_ & _ & _ & Hch & Hal).
      assert (x ∈ obj_children o' ++ obj_alias o' ∨ x = c) as [Hold| ->].
      { apply elem_of_app in Hx as [Hx|Hx].
        - destruct (Hch x Hx); [left; set_solver|by right].
        - destruct (Hal x Hx); [left; set_solver|by right]. }
      + destruct (inv_links _ Hinv _ o' x Ho Hold). auto.
      + split; [lia|auto].
    - intros Ho Hx. destruct (inv_links _ Hinv i o x Ho Hx). auto. }
  assert (∀ a b, a ∈ childrenOf st' b → a ∈ childrenOf st b ∨ a = c) as Hchild.
  { intros a b. unfold childrenOf. cbn. rewrite list_lookup_alter.
    case_decide as E; [rewrite <- E|]; destruct (objects st !! _) as [o|]; cbn; auto.
    apply Hg. }
  split; [|done]. apply (Inv_store st); try done.
  - intros i o. cbn. rewrite list_lookup_alter. case_decide as E.
    + subst i. destruct (objects st !! uid p) as [o'|] eqn:Ho; cbn; [|done].
      intros [= <-]. destruct (Hg o') as [-> _]. by apply (inv_uid _ Hinv).
    + apply (inv_uid _ Hinv).
  - intros x q Hx. induction 1 as [q Hq|q y Hy Hd IH].
    + apply descendant_child. destruct (Hchild _ _ Hq) as [?| ->]; [done|].
      apply Hnew in Hx. lia.
    + destruct (Hchild _ _ Hy) as [Hy'| ->].
      * eapply descendant_step; [exact Hy'|exact IH].
      * apply (Descendant_uid _ _ _ Hlinks') in Hd. apply Hnew in Hx. lia.
Qed.

Lemma pushChild_spec st p c :
  Inv st → Known st c → uid p < uid c →
  (∀ x, x ∈ matchers st → uid x < uid c) →
  Inv (pushChild p c st) ∧ Extends st (pushChild p c st).
Proof.
  intros.
  apply (push_spec st
           (λ o, mkObject (obj_self o) (obj_children o ++ [c]) (obj_alias o)) p c);
    try done.
  intros o. cbn. split_and!; try done.
  - by apply prefix_app_r.
  - intros x. rewrite !elem_of_app, list_elem_of_singleton. tauto.
  - auto.
Qed.

Lemma pushAlias_spec st p c :
  Inv st → Known st c → uid p < uid c →
  (∀ x, x ∈ matchers st → uid x < uid c) →
  Inv (pushAlias p c st) ∧ Extends st (pushAlias p c st).
Proof.
  intros.
  apply (push_spec st
           (λ o, mkObject (obj_self o) (obj_children o) (obj_alias o ++ [c])) p c);
    try done.
  intros o. cbn. split_and!; try done.
  - by apply prefix_app_r.
  - auto.
  - intros x. rewrite !elem_of_app, list_elem_of_singleton. tauto.
Qed.

(** [createRouteRecordMatcher] allocates the next object. *)
Lemma createRouteRecordMatcher_spec r parent options st :
  Inv st → KnownOpt st parent →
  ∃ st',
    createRouteRecordMatcher r parent options st
    = (mkMatcher (length (objects st)) (compile (rec_path r) options) r parent, st')
    ∧ Inv st' ∧ Extends st st'
    ∧ Known st' (mkMatcher (length (objects st)) (compile (rec_path r) options) r parent)
    ∧ matchers st' = matchers st ∧ matcherMap st' = matcherMap st
    ∧ length (objects st') = S (length (objects st)).
Proof.
  intros Hinv Hparent. unfold createRouteRecordMatcher.
  set (m := mkMatcher (length (objects st)) (compile (rec_path r) options) r parent).
  set (st1 := setObjects (objects st ++ [mkObject m [] []]) st).
  assert (Known st1 m) as Hm.
  { exists (mkObject m [] []). cbn. split; [|done].
    by rewrite lookup_app_r, Nat.sub_diag. }
  assert (Extends st st1) as Hext.
  { split.
    - cbn. rewrite length_app. lia.
    - intros x. apply Known_app.
    - intros x. unfold childrenOf, aliasesOf. cbn.
      destruct (objects st !! uid x) as [o|] eqn:Ho.
      + rewrite (lookup_app_l_Some _ _ _ _ Ho). done.
      + split; apply prefix_nil.
    - intros x Hx. by left. }
  assert (∀ x, childrenOf st1 x = childrenOf st x) as Hsame.
  { intros x. unfold childrenOf. cbn.
    destruct (objects st !! uid x) as [o|] eqn:Ho.
    - by rewrite (lookup_app_l_Some _ _ _ _ Ho).
    - apply lookup_ge_None in Ho.
      destruct ((objects st ++ [mkObject m [] []]) !! uid x) as [o|] eqn:Ho'; [|done].
      apply lookup_app_Some in Ho' as [Ho'|[_ Ho']].
      + apply lookup_lt_Some in Ho'. lia.
      + by apply list_lookup_singleton_Some in Ho' as [_ <-]. }
  assert (Inv st1) as Hinv1.
  { apply (Inv_store st); try done.
    - intros i o. cbn. intros [Ho|[Hi Ho]]%lookup_app_Some.
      + by apply (inv_uid _ Hinv).
      + apply list_lookup_singleton_Some in Ho as [? <-]. cbn. lia.
    - intros i o c. cbn. intros [Ho|[Hi Ho]]%lookup_app_Some Hc.
      + destruct (inv_links _ Hinv i o c Ho Hc). split; [done|by apply Known_app].
      + apply list_lookup_singleton_Some in Ho as [? <-]. by apply elem_of_nil in Hc.
    - intros c p _. induction 1 as [p Hp|p y Hy _ IH].
      + apply descendant_child. by rewrite <- Hsame.
      + eapply descendant_step; [|exact IH]. by rewrite <- Hsame. }
  assert (∀ x, x ∈ matchers st1 → uid x < uid m) as Hnew.
  { intros x Hx. by apply Known_lt, (inv_known _ Hinv). }
  assert (length (objects st1) = S (length (objects st))) as Hlen.
  { cbn. rewrite length_app. cbn. lia. }
  destruct parent as [p|].
  - destruct (attach r (record p)).
    + destruct (pushChild_spec st1 p m Hinv1 Hm) as [Hinv2 Hext2]; [|done|].
      { cbn. apply Known_lt. by apply Hparent. }
      eexists. split; [reflexivity|]. split_and!; try done.
      * by apply (Extends_trans st st1).
      * by apply (ext_known _ _ Hext2).
      * cbn. rewrite length_alter. exact Hlen.
    + eexists. split; [reflexivity|]. by split_and!.
  - eexists. split; [reflexivity|]. by split_and!.
Qed.

End Store.

(** ** addRoute *)

Lemma Cascade_Extends st st' root m :
  Extends st st' → (∀ x, x ∈ matchers st → x ∈ matchers st') →
  Cascade st root m → Cascade st' root m.
Proof.
  intros Hext Hsub. induction 1 as [Hr|m c _ IH Hc Hin].
  - apply cascade_root. by apply Hsub.
  - eapply cascade_link; [exact IH| |by apply Hsub].
    unfold linksOf in *. destruct (ext_links _ _ Hext m) as [[k1 ->] [k2 ->]].
    set_solver.
Qed.

(** Everything in the cascade of a root is out of the sequence after the
    removal. *)
Lemma Removal_cascade st st' root m :
  Removal [root] st st' → Cascade st root m → uid m ∉ uid <$> matchers st'.
Proof.
  intros R. induction 1 as [Hr|m c Hm IH Hc Hin].
  - apply (rm_roots _ _ _ R). by apply list_elem_of_singleton.
  - assert (m ∉ matchers st') as Hout.
    { intros Hin'. apply IH. by apply list_elem_of_fmap_2. }
    destruct (rm_removed _ _ _ R m (Cascade_in _ _ _ Hm) Hout) as (Hclosed & _).
    by apply Hclosed.
Qed.

Section AddRoute.

Context {PM : PathMatcherModule}.

Lemma addRoute_unfold record parent orig st :
  addRoute record parent orig st =
  forEachRecord
    (addNormalizedRecord (λ matcher o, addChildren matcher o (raw_children record) 0)
       record parent
       (negb (bool_decide (is_Some orig))) (mergeOptions globalOptions record))
    (normalizedRecordsOf record parent orig) (mkVars orig None) st
    ≫= λ '(vars, st), Some (originalMatcher vars, st).
Proof. destruct record; reflexivity. Qed.

Lemma addChildren_cons matcher orig child rest i st :
  addChildren matcher orig (child :: rest) i st =
  addRoute child (Some matcher) (o ← orig; childrenOf st o !! i) st
    ≫= λ r, addChildren matcher orig rest (S i) r.2.
Proof. reflexivity. Qed.

Lemma addChildren_nil matcher orig i st :
  addChildren matcher orig [] i st = Some st.
Proof. reflexivity. Qed.

Lemma displaysSomething_setPath p r :
  displaysSomething (setPath p r) = displaysSomething r.
Proof. done. Qed.

Lemma displaysSomething_named r :
  truthyName (rec_name r) = true → displaysSomething r = true.
Proof. unfold displaysSomething. intros ->. by rewrite orb_true_r. Qed.

(** One turn of the loop of [addRoute]. *)
Lemma addNormalizedRecord_spec addCh definition parent isRootAdd options nr vars st :
  ChildrenSpec addCh →
  Inv st → KnownOpt st parent →
  KnownOpt st (originalRecord vars) → KnownOpt st (originalMatcher vars) →
  let m := mkMatcher (length (objects st))
             (compile (joinPath parent (rec_path nr)) options)
             (setPath (joinPath parent (rec_path nr)) nr) parent in
  ∃ vars' st',
    addNormalizedRecord addCh definition parent isRootAdd options nr vars st
    = Some (m, vars', st')
    ∧ Inv st' ∧ Extends st st' ∧ Known st' m
    ∧ (m ∈ matchers st' ↔ displaysSomething (record m) = true)
    ∧ originalRecord vars' = Some (default m (originalRecord vars))
    ∧ originalMatcher vars'
      = match originalRecord vars with
        | Some _ => originalMatcher vars
        | None => Some (default m (originalMatcher vars))
        end
    ∧ (isAliasRecord m = true → matcherMap st' = matcherMap st)
    ∧ (∀ name, rec_name nr = Some name → truthyName (Some name) = true →
               isAliasRecord m = false → matcherMap st' !! name = Some m)
    ∧ (∀ name old x,
         originalRecord vars = None → isRootAdd = true →
         raw_name definition = Some name → truthyName (Some name) = true →
         isAliasRecord m = false →
         matcherMap st !! name = Some old → Cascade st old x →
         x ∉ matchers st').
Proof.
  intros HC Hinv Hparent Horig Hom m.
  unfold addNormalizedRecord.
  destruct (createRouteRecordMatcher_spec
              (setPath (joinPath parent (rec_path nr)) nr) parent options st Hinv Hparent)
    as (st1 & Ecreate & Hinv1 & Hext1 & Hkm1 & Hm1 & Hmap1 & Hlen1).
  change (rec_path (setPath (joinPath parent (rec_path nr)) nr))
    with (joinPath parent (rec_path nr)) in Ecreate.
  fold m in Ecreate, Hkm1. rewrite Ecreate.
  assert (uid m = length (objects st)) as Huid by done.
  assert (∀ x, x ∈ matchers st1 → uid x < uid m) as Hnew.
  { intros x. rewrite Hm1, Huid. intros Hx. by apply Known_lt, (inv_known _ Hinv). }
  (* the statements between the creation and the loop over the children *)
  set (om1 := default m (originalMatcher vars)).
  set (st1' := if sameMatcher om1 m then st1 else pushAlias om1 m st1).
  assert (Inv st1' ∧ Extends st1 st1' ∧ matchers st1' = matchers st1
          ∧ matcherMap st1' = matcherMap st1) as (Hi' & He' & Hm' & Hmap').
  { subst st1' om1. unfold sameMatcher.
    destruct (Nat.eqb_spec (uid (default m (originalMatcher vars))) (uid m)) as [E|E].
    - split_and!; try done. apply Extends_refl.
    - destruct (originalMatcher vars) as [om0|] eqn:Eom0; [|done]. cbn in E |- *.
      destruct (pushAlias_spec st1 om0 m Hinv1 Hkm1) as [Hi He]; [|done|].
      { rewrite Huid. apply Known_lt. by apply Hom. }
      by split_and!. }
  assert (∃ om st2,
    match originalRecord vars with
    | Some o => Some (originalMatcher vars, pushAlias o m st1)
    | None =>
        match raw_name definition with
        | Some name =>
            if isRootAdd && truthyName (Some name) && negb (isAliasRecord m)
            then removeRoute (inl name) st1'
            else Some st1'
        | None => Some st1'
        end ≫= λ st0, Some (Some om1, st0)
    end = Some (om, st2)
    ∧ Inv st2 ∧ Extends st1 st2
    ∧ (∀ x, x ∈ matchers st2 → x ∈ matchers st1)
    ∧ (isAliasRecord m = true → matcherMap st2 = matcherMap st1)
    ∧ om = match originalRecord vars with
           | Some _ => originalMatcher vars
           | None => Some om1
           end
    ∧ (∀ name old x,
         originalRecord vars = None → isRootAdd = true →
         raw_name definition = Some name → truthyName (Some name) = true →
         isAliasRecord m = false →
         matcherMap st !! name = Some old → Cascade st old x →
         x ∉ matchers st2))
    as (om & st2 & Emid & Hinv2 & Hext2 & Hsub2 & Halias2 & Hom2 & Hgone2).
  { destruct (originalRecord vars) as [o|] eqn:Eo.
    - destruct (pushAlias_spec st1 o m Hinv1 Hkm1) as [Hi He]; [|done|].
      { rewrite Huid. apply Known_lt. by apply Horig. }
      eexists _, _. by split_and!.
    - assert (∃ st2,
        match raw_name definition with
        | Some name =>
            if isRootAdd && truthyName (Some name) && negb (isAliasRecord m)
            then removeRoute (inl name) st1'
            else Some st1'
        | None => Some st1'
        end = Some st2
        ∧ Inv st2 ∧ Extends st1' st2
        ∧ (∀ x, x ∈ matchers st2 → x ∈ matchers st1')
        ∧ (isAliasRecord m = true → matcherMap st2 = matcherMap st1')
        ∧ (∀ name old x,
             isRootAdd = true →
             raw_name definition = Some name → truthyName (Some name) = true →
             isAliasRecord m = false →
             matcherMap st !! name = Some old → Cascade st old x →
             x ∉ matchers st2))
        as (st2 & E2 & Hi2 & He2 & Hsub & Hal & Hgone).
      { destruct (raw_name definition) as [name|];
          [|exists st1'; split_and!; try done; apply Extends_refl].
        destruct (isRootAdd && truthyName (Some name) && negb (isAliasRecord m)) eqn:Eg.
        2:{ exists st1'. split_and!; try done; [apply Extends_refl|].
            intros name' old x -> [= <-] Ht Hal. by rewrite Ht, Hal in Eg. }
        destruct (removeRoute_spec st1' (inl name) Hi') as (st2 & E2 & Hi2 & R); [done|].
        exists st2. split_and!; try done.
        - apply Extends_shrink; [apply R|]. intros x Hx.
          eapply elem_of_sublist; [exact Hx|apply R].
        - intros x Hx. eapply elem_of_sublist; [exact Hx|apply R].
        - intros Hal. rewrite Hal in Eg. by rewrite andb_false_r in Eg.
        - intros name' old x _ [= <-] _ _ Hold Hcas Hin.
          rewrite Hmap', Hmap1, Hold in R. cbn [option_list] in R.
          apply (Removal_cascade st1' st2 old x R).
          + apply (Cascade_Extends st); [|by rewrite Hm', Hm1|done].
            by apply (Extends_trans st st1).
          + by apply list_elem_of_fmap_2. }
      exists (Some om1), st2. rewrite E2.
      split_and!; try done.
      + by apply (Extends_trans st1 st1').
      + intros x Hx. rewrite <- Hm'. by apply Hsub.
      + intros Hal'. rewrite <- Hmap'. by apply Hal.
      + intros name old x _. apply Hgone. }
  rewrite Emid. cbn [mbind option_bind].
  (* the loop over the children *)
  destruct (HC m (originalRecord vars) st2 Hinv2) as (st3 & Ech & Hinv3 & Hext3 & Halias3).
  { by apply (ext_known _ _ Hext2). }
  { apply (KnownOpt_Extends st); [|done]. by apply (Extends_trans st st1). }
  rewrite Ech. cbn [mbind option_bind].
  assert (Extends st st3) as Hext03.
  { apply (Extends_trans st st1); [done|]. by apply (Extends_trans st1 st2). }
  assert (uid m ∉ uid <$> matchers st3) as Hfresh.
  { intros (x & E & Hx)%list_elem_of_fmap.
    destruct (ext_matchers _ _ Hext3 x Hx) as [Hin|Hge].
    - apply Hsub2 in Hin. rewrite Hm1 in Hin.
      apply (inv_known _ Hinv), Known_lt in Hin. lia.
    - pose proof (ext_length _ _ Hext2). lia. }
  assert (Known st3 m) as Hkm3.
  { apply (ext_known _ _ Hext3). by apply (ext_known _ _ Hext2). }
  assert (∀ name old x,
            originalRecord vars = None → isRootAdd = true →
            raw_name definition = Some name → truthyName (Some name) = true →
            isAliasRecord m = false →
            matcherMap st !! name = Some old → Cascade st old x →
            (x ∉ matchers st3) ∧ (uid x ≠ uid m)) as Hgone3.
  { intros name old x Ho Hroot Hname Ht Hal Hold Hcas.
    pose proof (Known_lt _ _ (inv_known _ Hinv _ (Cascade_in _ _ _ Hcas))) as Hlt.
    split; [|lia]. intros Hin.
    destruct (ext_matchers _ _ Hext3 x Hin) as [Hin2|Hge].
    - by apply (Hgone2 name old x).
    - pose proof (ext_length _ _ Hext2). lia. }
  destruct (displaysSomething (record m)) eqn:Hdisp.
  - destruct (insertMatcher_spec st3 m Hinv3 Hkm3 Hfresh Hdisp)
      as (st4 & l1 & l2 & Eins & Hobj4 & Hl3 & Hl4 & _ & Hmap4 & Hinv4).
    rewrite Eins. cbn [mbind option_bind].
    eexists _, st4. split; [reflexivity|]. cbn [originalRecord originalMatcher].
    split_and!; try done.
    + split.
      * rewrite Hobj4. apply Hext03.
      * intros x Hx. eapply Known_objects; [done|]. by apply (ext_known _ _ Hext03).
      * intros x. unfold childrenOf, aliasesOf. rewrite Hobj4. apply (ext_links _ _ Hext03).
      * intros x. rewrite Hl4. intros [?|[->|?]%elem_of_cons]%elem_of_app.
        -- apply (ext_matchers _ _ Hext03). rewrite Hl3. set_solver.
        -- right. lia.
        -- apply (ext_matchers _ _ Hext03). rewrite Hl3. set_solver.
    + by eapply Known_objects.
    + split; [done|]. intros _. rewrite Hl4. set_solver.
    + intros Hal. rewrite Hmap4, Hal. cbn [negb].
      rewrite (Halias3 Hal), (Halias2 Hal), Hmap1.
      destruct (rec_name (record m)); [|done]. by rewrite andb_false_r.
    + intros name Hname Ht Hal. rewrite Hmap4. cbn [record m rec_name setPath].
      rewrite Hname, Ht, Hal. cbn [negb andb]. apply lookup_insert_eq.
    + intros name old x Ho Hroot Hname Ht Hal Hold Hcas.
      destruct (Hgone3 name old x Ho Hroot Hname Ht Hal Hold Hcas) as [Hout Hne].
      rewrite Hl4. rewrite Hl3 in Hout.
      intros [?|[->|?]%elem_of_cons]%elem_of_app; [|done|]; apply Hout; set_solver.
  - eexists _, st3. split; [reflexivity|]. cbn [originalRecord originalMatcher].
    split_and!; try done.
    + split; [|done]. intros Hin. destruct Hfresh. by apply list_elem_of_fmap_2.
    + intros Hal. by rewrite (Halias3 Hal), (Halias2 Hal).
    + intros name Hname Ht _. exfalso.
      rewrite displaysSomething_named in Hdisp; [done|].
      cbn. by rewrite Hname.
    + intros name old x Ho Hroot Hname Ht Hal Hold Hcas.
      by destruct (Hgone3 name old x Ho Hroot Hname Ht Hal Hold Hcas).
Qed.

Lemma isAliasRecord_created u ps r parent :
  isAliasRecord (mkMatcher u ps r parent)
  = bool_decide (is_Some (rec_aliasOf r))
    || match parent with Some p => isAliasRecord p | None => false end.
Proof. cbn [isAliasRecord]. by case_bool_decide. Qed.

(** The loop of [addRoute] over the normalized records. *)
Lemma forEachRecord_spec addCh definition parent isRootAdd options l vars st :
  ChildrenSpec addCh →
  Inv st → KnownOpt st parent →
  KnownOpt st (originalRecord vars) → KnownOpt st (originalMatcher vars) →
  ∃ vars' st',
    forEachRecord (addNormalizedRecord addCh definition parent isRootAdd options) l vars st
    = Some (vars', st')
    ∧ Inv st' ∧ Extends st st'
    ∧ KnownOpt st' (originalRecord vars') ∧ KnownOpt st' (originalMatcher vars')
    ∧ (is_Some (originalRecord vars) → originalMatcher vars' = originalMatcher vars)
    ∧ ((∃ p, parent = Some p ∧ isAliasRecord p = true)
       ∨ (∀ nr, nr ∈ l → is_Some (rec_aliasOf nr)) →
       matcherMap st' = matcherMap st).
Proof.
  intros HC. revert vars st.
  induction l as [|nr l IH]; intros vars st Hinv Hparent Horig Hom.
  - exists vars, st. cbn. split_and!; try done. apply Extends_refl.
  - cbn [forEachRecord].
    destruct (addNormalizedRecord_spec addCh definition parent isRootAdd options nr vars st
                HC Hinv Hparent Horig Hom)
      as (vars1 & st1 & E1 & Hinv1 & Hext1 & Hkm1 & _ & Hor1 & Hom1 & Hal1 & _ & _).
    rewrite E1. cbn [mbind option_bind].
    destruct (IH vars1 st1 Hinv1) as (vars2 & st2 & E2 & Hinv2 & Hext2 & Hk2 & Hk2' & Hom2 & Hal2).
    { by apply (KnownOpt_Extends st). }
    { rewrite Hor1. intros x [= <-]. destruct (originalRecord vars) as [o|] eqn:Eo; cbn.
      - apply (ext_known _ _ Hext1). by apply Horig.
      - done. }
    { rewrite Hom1. destruct (originalRecord vars) as [o|] eqn:Eo.
      - by apply (KnownOpt_Extends st).
      - intros x [= <-]. destruct (originalMatcher vars) as [o|] eqn:Eom; cbn.
        + apply (ext_known _ _ Hext1). by apply Hom.
        + done. }
    exists vars2, st2. rewrite E2. split_and!; try done.
    + by apply (Extends_trans st st1).
    + intros Hsome. rewrite Hom2 by (rewrite Hor1; done).
      rewrite Hom1. by destruct Hsome as [o ->].
    + intros Hcase. rewrite Hal2, Hal1; [done| |].
      * rewrite isAliasRecord_created. destruct Hcase as [(p & -> & Hp)|Hall].
        -- by rewrite Hp, orb_true_r.
        -- rewrite bool_decide_eq_true_2; [done|]. apply (Hall nr). left.
      * destruct Hcase as [?|Hall]; [by left|right]. intros nr' Hnr'. apply Hall. by right.
Qed.

(** Induction on a route definition and its nested children. *)
Lemma RouteRecordRaw_children_ind (P : RouteRecordRaw → Prop) :
  (∀ r, (∀ c, c ∈ raw_children r → P c) → P r) → ∀ r, P r.
Proof.
  intros H.
  refine (fix ind (r : RouteRecordRaw) : P r :=
            match r with
            | mkRaw a b c d e f g h i j children =>
                H (mkRaw a b c d e f g h i j children)
                  (λ x Hx, proj1 (Forall_forall P children)
                     ((fix all (cs : list RouteRecordRaw) : Forall P cs :=
                         match cs with
                         | [] => List.Forall_nil P
                         | y :: cs' => @List.Forall_cons _ P y cs' (ind y) (all cs')
                         end) children) x Hx)
            end).
Qed.

Lemma addChildren_spec children :
  (∀ c, c ∈ children → ∀ parent orig st,
     Inv st → KnownOpt st parent → KnownOpt st orig →
     ∃ om st', addRoute c parent orig st = Some (om, st')
       ∧ Inv st' ∧ Extends st st' ∧ KnownOpt st' om
       ∧ ∀ p, parent = Some p → isAliasRecord p = true →
              matcherMap st' = matcherMap st) →
  ∀ i, ChildrenSpec (λ matcher o, addChildren matcher o children i).
Proof.
  induction children as [|child rest IH]; intros Hch i matcher orig st Hinv Hm Horig.
  - exists st. split_and!; try done. apply Extends_refl.
  - rewrite addChildren_cons.
    destruct (Hch child (list_elem_of_here _ _) (Some matcher)
                (o ← orig; childrenOf st o !! i) st Hinv)
      as (om & st1 & E1 & Hinv1 & Hext1 & _ & Hal1).
    { by intros x [= <-]. }
    { intros x Hx. destruct orig as [o|]; [|done]. cbn in Hx.
      destruct (Horig o eq_refl) as (obj & Hobj & _).
      unfold childrenOf in Hx. rewrite Hobj in Hx.
      apply list_elem_of_lookup_2 in Hx.
      apply (inv_links _ Hinv _ _ x Hobj). apply elem_of_app. by left. }
    rewrite E1. cbn [mbind option_bind snd].
    destruct (IH (λ c Hc, Hch c (list_elem_of_further _ _ _ Hc)) (S i) matcher orig st1 Hinv1)
      as (st2 & E2 & Hinv2 & Hext2 & Hal2).
    { by apply (ext_known _ _ Hext1). }
    { by apply (KnownOpt_Extends st). }
    exists st2. split_and!; try done.
    + by apply (Extends_trans st st1).
    + intros Hal. rewrite (Hal2 Hal). by apply (Hal1 matcher).
Qed.

(** [addRoute] returns on every registry that satisfies the invariant,
    under no parent or under a matcher of the store; the invariant is
    kept, the registry only grows, and nothing is registered by name below
    an alias. *)
Lemma addRoute_spec definition :
  ∀ parent orig st,
    Inv st → KnownOpt st parent → KnownOpt st orig →
    ∃ om st', addRoute definition parent orig st = Some (om, st')
      ∧ Inv st' ∧ Extends st st' ∧ KnownOpt st' om
      ∧ ∀ p, parent = Some p → isAliasRecord p = true →
             matcherMap st' = matcherMap st.
Proof.
  induction definition as [definition IH] using RouteRecordRaw_children_ind.
  intros parent orig st Hinv Hparent Horig. rewrite addRoute_unfold.
  destruct (forEachRecord_spec
              (λ matcher o, addChildren matcher o (raw_children definition) 0)
              definition parent (negb (bool_decide (is_Some orig)))
              (mergeOptions globalOptions definition)
              (normalizedRecordsOf definition parent orig) (mkVars orig None) st)
    as (vars' & st' & E & Hinv' & Hext' & _ & Hk' & _ & Hal'); try done.
  { by apply addChildren_spec. }
  exists (originalMatcher vars'), st'. rewrite E. split_and!; try done.
  intros p -> Hp. apply Hal'. left. by exists p.
Qed.

End AddRoute.

(** ** Reachable registries *)

Section Reachable.

Context {PM : PathMatcherModule}.

Lemma Inv_empty : Inv emptyRegistry.
Proof.
  split; cbn; try done.
  - intros m Hm. by apply elem_of_nil in Hm.
  - constructor.
  - intros m Hm. by apply elem_of_nil in Hm.
  - intros _. constructor.
  - intros _ p c Hb. by apply Before_nil in Hb.
Qed.

Lemma Reachable_Inv st : Reachable st → Inv st.
Proof.
  induction 1 as [|st definition parent om st' _ IH Hparent E
                  |st name st' _ IH E|st m st' _ IH Hm E].
  - apply Inv_empty.
  - destruct (addRoute_spec definition parent None st IH Hparent)
      as (om' & st'' & E' & Hinv & _); [done|]. congruence.
  - destruct (removeRoute_spec st (inl name) IH) as (st'' & E' & Hinv & _); [done|].
    congruence.
  - destruct (removeRoute_spec st (inr m) IH) as (st'' & E' & Hinv & _).
    { by intros ? [= <-]. }
    congruence.
Qed.

(** A top-level [addRoute]: the first turn of the loop creates the
    canonical matcher, the remaining turns its aliases. *)
Lemma addRoute_top definition parent st :
  Inv st → KnownOpt st parent →
  let path := joinPath parent (raw_path definition) in
  let m := mkMatcher (length (objects st))
             (compile path (mergeOptions globalOptions definition))
             (setPath path (normalizeRouteRecord definition)) parent in
  ∃ st1 st',
    addRoute definition parent None st = Some (Some m, st')
    ∧ Inv st1 ∧ Extends st st1 ∧ Inv st' ∧ Extends st1 st' ∧ Known st1 m
    ∧ (m ∈ matchers st1 ↔ displaysSomething (normalizeRouteRecord definition) = true)
    ∧ matcherMap st' = matcherMap st1
    ∧ (raw_alias definition = None → st' = st1)
    ∧ (isAliasRecord m = true → matcherMap st1 = matcherMap st)
    ∧ (∀ name, raw_name definition = Some name → truthyName (Some name) = true →
               isAliasRecord m = false → matcherMap st1 !! name = Some m)
    ∧ (∀ name old x,
         raw_name definition = Some name → truthyName (Some name) = true →
         isAliasRecord m = false →
         matcherMap st !! name = Some old → Cascade st old x →
         x ∉ matchers st1).
Proof.
  intros Hinv Hparent path m. rewrite addRoute_unfold.
  assert (ChildrenSpec (λ matcher o, addChildren matcher o (raw_children definition) 0))
    as HC.
  { apply addChildren_spec. intros c _. apply addRoute_spec. }
  unfold normalizedRecordsOf. cbn [fmap option_fmap option_map].
  change (setAliasOf None (normalizeRouteRecord definition))
    with (normalizeRouteRecord definition).
  cbn [forEachRecord].
  destruct (addNormalizedRecord_spec
              (λ matcher o, addChildren matcher o (raw_children definition) 0)
              definition parent (negb (bool_decide (is_Some (@None RouteRecordMatcher))))
              (mergeOptions globalOptions definition)
              (normalizeRouteRecord definition) (mkVars None None) st HC Hinv Hparent)
    as (vars1 & st1 & E1 & Hinv1 & Hext1 & Hkm1 & Hin1 & Hor1 & Hom1 & Hal1 & Hname1 & Hgone1);
    [done..|].
  change (rec_path (normalizeRouteRecord definition)) with (raw_path definition) in *.
  fold path in E1, Hkm1, Hin1, Hal1, Hname1, Hgone1. fold m in E1, Hkm1, Hin1, Hal1, Hname1, Hgone1.
  rewrite E1. cbn [mbind option_bind].
  cbn [originalRecord originalMatcher default from_option id] in Hor1, Hom1.
  set (aliases := match raw_alias definition with
                  | Some aliases => _
                  | None => []
                  end).
  destruct (forEachRecord_spec
              (λ matcher o, addChildren matcher o (raw_children definition) 0)
              definition parent (negb (bool_decide (is_Some (@None RouteRecordMatcher))))
              (mergeOptions globalOptions definition) aliases vars1 st1 HC Hinv1)
    as (vars' & st' & E' & Hinv' & Hext' & _ & _ & Hom' & Hal').
  { by apply (KnownOpt_Extends st). }
  { rewrite Hor1. by intros ? [= <-]. }
  { rewrite Hom1. by intros ? [= <-]. }
  rewrite E'. cbn [mbind option_bind].
  rewrite Hom' by (by rewrite Hor1). rewrite Hom1.
  exists st1, st'. split_and!; try done.
  - apply Hal'. right. intros nr. subst aliases.
    destruct (raw_alias definition) as [l|]; [|by intros ?%elem_of_nil].
    intros (alias & -> & _)%list_elem_of_fmap. done.
  - intros Hnone. subst aliases. rewrite Hnone in E'. cbn in E'. congruence.
  - intros name old x Hname Ht Hal Hold Hcas.
    by apply (Hgone1 name old x).
Qed.

End Reachable.

(** ** Properties of the registry *)

Section RegistryProperties.

Context {PM : PathMatcherModule}.

Lemma elem_of_matchers_uid st m :
  Inv st → Known st m → uid m ∈ uid <$> matchers st → m ∈ matchers st.
Proof.
  intros Hinv Hm (x & E & Hx)%list_elem_of_fmap.
  by rewrite (Known_eq st m x Hm (inv_known _ Hinv _ Hx) E).
Qed.

Lemma resolve_unregistered_name st name params currentLocation :
  truthyName (Some name) = true → matcherMap st !! name = None →
  resolve (mkLocationRaw (Some name) None params) currentLocation st
  = Throws MATCHER_NOT_FOUND.
Proof. intros Ht Hn. unfold resolve. cbn [loc_name]. rewrite Ht. cbn. by rewrite Hn. Qed.


(** C10. [removeRoute] of a matcher that is not in the ordered sequence
    returns the registry unchanged: the name table, the children and the
    aliases of the matcher stay as they are. In particular, when the record
    of a top-level [addRoute] displays nothing, the callback [addRoute]
    returns changes nothing, and what the call inserted stays in place. *)
Theorem removeRoute_absent_matcher st :
  Reachable st →
  (∀ m, Known st m → m ∉ matchers st → removeRoute (inr m) st = Some st)
  ∧ ∀ definition parent,
      KnownOpt st parent →
      displaysSomething (normalizeRouteRecord definition) = false →
      ∃ root st',
        addRoute definition parent None st = Some (Some root, st')
        ∧ uid root = length (objects st)
        ∧ (root ∉ matchers st')
        ∧ deregister (Some root) st' = Some st'.
Proof.
  intros Hinv%Reachable_Inv.
  assert (∀ st m, Inv st → Known st m → m ∉ matchers st →
                  removeRoute (inr m) st = Some st) as Habsent.
  { clear st Hinv. intros st m Hinv Hm Hout. cbn [removeRoute].
    unfold depthBound. cbn [removeMatcher].
    destruct (indexOf m (matchers st)) as [index|] eqn:Hidx; [|done].
    destruct Hout. apply elem_of_matchers_uid; [done..|].
    destruct (indexOf_Some _ _ _ Hidx) as (x & Hx & <-).
    apply list_elem_of_fmap_2. by eapply list_elem_of_lookup_2. }
  split; [intros m; by apply Habsent|].
  intros definition parent Hparent Hdisp.
  destruct (addRoute_top definition parent st Hinv Hparent)
    as (st1 & st' & E & Hinv1 & Hext1 & Hinv' & Hext' & Hkm & Hin1 & _).
  eexists _, st'. split; [exact E|]. split; [done|].
  match goal with |- (?r ∉ _) ∧ _ => set (root := r) in * end.
  assert (root ∉ matchers st') as Hout.
  { intros Hin. destruct (ext_matchers _ _ Hext' root Hin) as [Hin'|Hge].
    - apply Hin1 in Hin'. congruence.
    - apply Known_lt in Hkm. lia. }
  split; [done|]. cbn [deregister]. apply Habsent; [done| |done].
  by apply (ext_known _ _ Hext').
Qed.


End RegistryProperties.

Section Ordering.

Context {PM : PathMatcherModule}.

Lemma displaysSomething_false r :
  displaysSomething r = false ↔
  (rec_components r = None ∨ rec_components r = Some ∅)
  ∧ truthyName (rec_name r) = false
  ∧ truthyRedirect (rec_redirect r) = false.
Proof.
  unfold displaysSomething. rewrite !orb_false_iff.
  assert (match rec_components r with
          | Some cs => negb (length (map_to_list cs) =? 0)
          | None => false
          end = false
          ↔ rec_components r = None ∨ rec_components r = Some ∅) as ->; [|tauto].
  destruct (rec_components r) as [cs|]; [|by split; auto].
  rewrite negb_false_iff, Nat.eqb_eq, length_zero_iff_nil, map_to_list_empty_iff.
  split; [intros ->; by right|]. intros [?|[= ->]]; done.
Qed.


Lemma elem_of_Before {A} (x y : A) l :
  x ∈ l → y ∈ l → x = y ∨ Before x y l ∨ Before y x l.
Proof.
  intros (l1 & l2 & ->)%list_elem_of_split.
  rewrite elem_of_app, elem_of_cons. intros [Hy|[->|Hy]].
  - right. right. apply list_elem_of_split in Hy as (k1 & k2 & ->).
    exists k1, (k2 ++ x :: l2). rewrite <- app_assoc. split; [done|]. set_solver.
  - by left.
  - right. left. by exists l1, l2.
Qed.


(** C9 (amended). [getRoutes] and [getRecordMatcher] leave the registry as
    it is. What [getRoutes] returns is the array of the registry itself:
    read later, it is the sequence as it is then. After an [addRoute] of a
    record that displays something it holds the new matcher, and after a
    [removeRoute] of a registered name it no longer holds the named one. *)
Theorem getRoutes_live st :
  Reachable st →
  (getRoutes st).2 = st
  ∧ (∀ name, (getRecordMatcher name st).2 = st)
  ∧ (∀ st', readArray (getRoutes st).1 st' = matchers st')
  ∧ (∀ definition parent,
       KnownOpt st parent → raw_alias definition = None →
       displaysSomething (normalizeRouteRecord definition) = true →
       ∃ new st',
         addRoute definition parent None st = Some (Some new, st')
         ∧ new ∈ readArray (getRoutes st).1 st'
         ∧ new ∉ readArray (getRoutes st).1 st)
  ∧ (∀ name m,
       matcherMap st !! name = Some m →
       ∃ st',
         removeRoute (inl name) st = Some st'
         ∧ m ∈ readArray (getRoutes st).1 st
         ∧ m ∉ readArray (getRoutes st).1 st').
Proof.
  intros Hinv%Reachable_Inv. split_and!; try done.
  - intros definition parent Hparent Hnoalias Hdisp.
    destruct (addRoute_top definition parent st Hinv Hparent)
      as (st1 & st' & E & Hinv1 & Hext1 & _ & _ & Hkm & Hin1 & _ & Hsame & _).
    rewrite (Hsame Hnoalias) in E.
    eexists _, st1. split; [exact E|]. cbn [getRoutes fst readArray]. split.
    + by apply Hin1.
    + intros Hin. apply (inv_known _ Hinv), Known_lt in Hin. cbn in Hin. lia.
  - intros name m Hmap.
    destruct (removeRoute_spec st (inl name) Hinv) as (st' & E & Hinv' & R); [done|].
    rewrite Hmap in R. cbn [option_list] in R.
    exists st'. split; [done|]. cbn [getRoutes fst readArray].
    destruct (inv_map _ Hinv _ _ Hmap) as (Hin & _). split; [done|].
    intros Hin'. apply (rm_roots _ _ _ R m); [by apply list_elem_of_singleton|].
    by apply list_elem_of_fmap_2.
Qed.

End Ordering.

(** ** Concrete registries *)

Section Creation.

Context {PM : PathMatcherModule}.

Lemma addRoutes_Reachable routes st :
  Reachable st → ∃ st', addRoutes routes st = Some st' ∧ Reachable st'.
Proof.
  revert st. induction routes as [|route routes IH]; intros st Hst.
  - by exists st.
  - cbn [addRoutes].
    destruct (addRoute_spec route None None st (Reachable_Inv st Hst))
      as (om & st1 & E & _); [done..|].
    rewrite E. cbn [mbind option_bind snd].
    apply IH. by apply (reach_addRoute st route None om st1).
Qed.

(** [createRouterMatcher] returns, and what it returns is reachable. *)
Lemma createRouterMatcher_Reachable routes :
  ∃ st, createRouterMatcher routes = Some st ∧ Reachable st.
Proof. apply addRoutes_Reachable, reach_empty. Qed.

Lemma Known_elem st m : Known st m → m ∈ obj_self <$> objects st.
Proof.
  intros (o & Ho & <-). apply list_elem_of_fmap_2. by eapply list_elem_of_lookup_2.
Qed.

End Creation.

(** ** The development-only checks *)

Lemma isSameParam_eq a b : isSameParam a b = true ↔ a = b.
Proof.
  unfold isSameParam. rewrite !andb_true_iff, String.eqb_eq, !Bool.eqb_true_iff.
  destruct a, b; cbn. split; [intros [[-> ->] ->]; done|by intros [= -> -> ->]].
Qed.

Lemma find_isSameParam key others :
  is_Some (List.find (isSameParam key) others) ↔ key ∈ others.
Proof.
  induction others as [|x l IH]; cbn [List.find].
  - split; [by intros [? [=]]|by intros ?%elem_of_nil].
  - destruct (isSameParam key x) eqn:E.
    + apply isSameParam_eq in E as ->. split; [left|by eexists].
    + rewrite IH, elem_of_cons. split; [by right|]. intros [->|]; [|done].
      assert (isSameParam x x = true) by by apply isSameParam_eq. congruence.
Qed.

Lemma firstUnmatched_None requiredOnly ks others :
  firstUnmatched requiredOnly ks others = None ↔
  ∀ key, key ∈ ks → (requiredOnly = true → key_optional key = false) → key ∈ others.
Proof.
  unfold firstUnmatched. induction ks as [|k ks IH]; cbn [List.find].
  - split; [by intros _ ? ?%elem_of_nil|done].
  - destruct (_ && _) eqn:E.
    + split; [done|]. intros H. exfalso.
      apply andb_true_iff in E as [E1 E2].
      apply negb_true_iff, bool_decide_eq_false in E2. apply E2, find_isSameParam.
      apply H; [left|]. intros ->. by apply negb_true_iff in E1.
    + rewrite IH. split.
      * intros H key [-> | Hin]%elem_of_cons Hreq; [|by apply H].
        apply andb_false_iff in E as [E|E].
        -- destruct requiredOnly; [|done]. rewrite Hreq in E; done.
        -- apply negb_false_iff, bool_decide_eq_true in E. by apply find_isSameParam.
      * intros H key Hin. apply H. by right.
Qed.

Lemma firstUnmatched_Some requiredOnly ks others key :
  firstUnmatched requiredOnly ks others = Some key →
  key ∈ ks ∧ (key ∉ others) ∧ (requiredOnly = true → key_optional key = false).
Proof.
  unfold firstUnmatched. intros H. pose proof (find_some _ _ H) as [Hin E].
  apply andb_true_iff in E as [E1 E2].
  apply negb_true_iff, bool_decide_eq_false in E2.
  split; [by apply list_elem_of_In|]. split.
  - by rewrite <- find_isSameParam.
  - intros ->. by apply negb_true_iff in E1.
Qed.

(** X14. [checkSameParams] stays silent exactly when the original and the alias
    have the same non-optional params (same name, same repeatability); the
    answer does not depend on which of the two is the original. When it
    warns, the message names a non-optional param that one of the two has
    and the other has not. *)
Theorem checkSameParams_silent a b :
  let required m := filter (λ k, key_optional k = false) (keys (parser m)) in
  (checkSameParams a b = None ↔ ∀ key, key ∈ required a ↔ key ∈ required b)
  ∧ (checkSameParams a b = None ↔ checkSameParams b a = None)
  ∧ (∀ message, checkSameParams a b = Some message →
       ∃ key, message = sameParamsMessage a b key
         ∧ key_optional key = false
         ∧ (key ∈ keys (parser a) ∧ key ∉ keys (parser b)
            ∨ key ∈ keys (parser b) ∧ key ∉ keys (parser a))).
Proof.
  intros required.
  assert (∀ a b, checkSameParams a b = None ↔
            firstUnmatched true (keys (parser a)) (keys (parser b)) = None
            ∧ firstUnmatched true (keys (parser b)) (keys (parser a)) = None) as Hnone.
  { intros x y. unfold checkSameParams.
    destruct (firstUnmatched true (keys (parser x)) _);
      [by split; [|intros []]|].
    destruct (firstUnmatched true (keys (parser y)) _); by split; [|intros []]. }
  split_and!.
  - rewrite Hnone, !firstUnmatched_None. unfold required. split.
    + intros [Hab Hba] key. rewrite !list_elem_of_filter. split.
      * intros [Hopt Hin]. split; [done|]. by apply Hab.
      * intros [Hopt Hin]. split; [done|]. by apply Hba.
    + intros H. split; intros key Hin Hopt.
      * assert (key ∈ filter (λ k, key_optional k = false) (keys (parser a))) as Hf
          by (apply list_elem_of_filter; auto).
        apply H in Hf. by apply list_elem_of_filter in Hf as [_ ?].
      * assert (key ∈ filter (λ k, key_optional k = false) (keys (parser b))) as Hf
          by (apply list_elem_of_filter; auto).
        apply H in Hf. by apply list_elem_of_filter in Hf as [_ ?].
  - rewrite !Hnone. tauto.
  - intros message. unfold checkSameParams.
    destruct (firstUnmatched true (keys (parser a)) _) as [key|] eqn:E1.
    + intros [= <-]. apply firstUnmatched_Some in E1 as (Hin & Hout & Hopt).
      exists key. split_and!; [done|by apply Hopt|by left].
    + destruct (firstUnmatched true (keys (parser b)) _) as [key|] eqn:E2; [|done].
      intros [= <-]. apply firstUnmatched_Some in E2 as (Hin & Hout & Hopt).
      exists key. split_and!; [done|by apply Hopt|by right].
Qed.

(** X15. [checkMissingParamsInAbsolutePath] stays silent exactly when every
    param of the parent, optional or not, is a param of the record with the
    same name, optionality and repeatability; when it warns, the message
    names the first param of the parent that the record lacks. *)
Theorem checkMissingParamsInAbsolutePath_silent r p :
  (checkMissingParamsInAbsolutePath r p = None ↔ keys (parser p) ⊆ keys (parser r))
  ∧ (∀ message, checkMissingParamsInAbsolutePath r p = Some message →
       ∃ l1 key l2,
         keys (parser p) = l1 ++ key :: l2
         ∧ message = missingParamsMessage r p key
         ∧ (key ∉ keys (parser r))
         ∧ ∀ k, k ∈ l1 → k ∈ keys (parser r)).
Proof.
  unfold checkMissingParamsInAbsolutePath. split.
  - rewrite fmap_None, firstUnmatched_None. split.
    + intros H key Hin. by apply H.
    + intros H key Hin _. by apply H.
  - intros message (key & E & ->)%fmap_Some.
    pose proof (firstUnmatched_Some _ _ _ _ E) as (_ & Hout & _).
    unfold firstUnmatched in E.
    revert E. generalize (keys (parser p)) as ks.
    induction ks as [|k ks IH]; cbn [List.find]; [done|].
    destruct (_ && _) eqn:Ek.
    + intros [= ->]. by exists [], key, ks; split_and!; [..|intros ? ?%elem_of_nil].
    + intros (l1 & key' & l2 & -> & Hm & Hout' & Hl1)%IH.
      exists (k :: l1), key', l2. split_and!; [done..|].
      intros x [-> | Hx]%elem_of_cons; [|by apply Hl1].
      cbn in Ek. apply negb_false_iff, bool_decide_eq_true in Ek.
      by apply find_isSameParam.
Qed.

(** ** RouterLink: active links *)

Lemma someIndexed_false {A} (f : A → nat → bool) (l : list A) :
  someIndexed f l = false ↔ ∀ i x, l !! i = Some x → f x i = false.
Proof.
  unfold someIndexed. rewrite <- not_true_iff_false, existsb_exists. split.
  - intros H i x Hi. apply not_true_iff_false. intros Hf. apply H.
    exists (i, x). split; [|done].
    apply list_elem_of_In, elem_of_lookup_imap. by exists i, x.
  - intros H ([i x] & Hin%list_elem_of_In & Hf).
    apply elem_of_lookup_imap in Hin as (i' & x' & [= -> ->] & Hi).
    cbn in Hf. by rewrite (H _ _ Hi) in Hf.
Qed.

Lemma includesParams_true_iff (outer inner : PathParams) :
  includesParams outer inner = true ↔ inner ⊆ outer.
Proof.
  unfold includesParams. rewrite forallb_forall, map_subseteq_spec. split.
  - intros H key v Hkv.
    assert (In (key, v) (map_to_list inner)) as Hin
      by by apply list_elem_of_In, elem_of_map_to_list.
    specialize (H (key, v) Hin). cbn [fst snd] in H.
    destruct v as [s|l].
    + by apply bool_decide_eq_true in H.
    + destruct (outer !! key) as [[|lo]|]; [done| |done].
      apply negb_true_iff, orb_false_iff in H as [Hlen Hsome].
      apply negb_false_iff, Nat.eqb_eq in Hlen.
      do 2 f_equal. apply list_eq_same_length with (length l); [done..|].
      intros i x y _ Hx Hy.
      rewrite someIndexed_false in Hsome. specialize (Hsome _ _ Hy).
      apply negb_false_iff, bool_decide_eq_true in Hsome. congruence.
  - intros H [key v] Hin%list_elem_of_In%elem_of_map_to_list. cbn [fst snd].
    rewrite (H _ _ Hin). destruct v as [s|l].
    + by apply bool_decide_eq_true.
    + apply negb_true_iff, orb_false_iff. split.
      * apply negb_false_iff, Nat.eqb_refl.
      * apply someIndexed_false. intros i x Hi.
        by apply negb_false_iff, bool_decide_eq_true.
Qed.

(** X16. [includesParams(outer, inner)] holds exactly when every param of
    [inner] is in [outer] with the same value, an array being equal to an
    array of the same length with the same elements in order, and never to
    a string. So every mapping includes itself and the empty mapping, and
    inclusion is transitive. *)
Theorem includesParams_subseteq (outer inner : PathParams) :
  (includesParams outer inner = true ↔ inner ⊆ outer)
  ∧ includesParams outer outer = true
  ∧ includesParams outer ∅ = true
  ∧ (∀ middle,
       includesParams outer middle = true → includesParams middle inner = true →
       includesParams outer inner = true).
Proof.
  split_and!.
  - apply includesParams_true_iff.
  - by apply includesParams_true_iff.
  - apply includesParams_true_iff, map_empty_subseteq.
  - intros middle H1%includesParams_true_iff H2%includesParams_true_iff.
    apply includesParams_true_iff. by etrans.
Qed.

Lemma findIndex_spec {A} (f : A → bool) (l : list A) :
  let i := findIndex f l in
  ((-1 ≤ i < Z.of_nat (length l))%Z)
  ∧ (i = (-1)%Z ↔ ∀ x, x ∈ l → f x = false)
  ∧ ((0 ≤ i)%Z →
     ∃ x, l !! Z.to_nat i = Some x ∧ f x = true
          ∧ ∀ j y, j < Z.to_nat i → l !! j = Some y → f y = false).
Proof.
  induction l as [|a l IH]; cbn [findIndex length]; cbv zeta.
  - split; [lia|]. split; [|lia]. by split; [intros _ ? ?%elem_of_nil|].
  - destruct (f a) eqn:Ea.
    + split; [lia|]. split.
      * split; [done|]. intros H. assert (a ∈ a :: l) as Ha by left.
        specialize (H a Ha). congruence.
      * intros _. exists a. split; [done|]. split; [done|].
        intros j y Hj. cbn in Hj. lia.
    + destruct IH as (Hb & Hnone & Hsome). cbv zeta in *.
      destruct (Z.ltb_spec (findIndex f l) 0) as [Hlt|Hge].
      * assert (findIndex f l = (-1)%Z) as E by lia.
        split; [lia|]. split; [|lia].
        split; [|done]. intros _ x [-> | Hx]%elem_of_cons; [done|].
        by apply Hnone.
      * split; [lia|]. split.
        -- split; [lia|]. intros H. exfalso.
           assert (findIndex f l = (-1)%Z); [|lia].
           apply Hnone. intros x Hx. apply H. by right.
        -- intros _. destruct (Hsome Hge) as (x & Hx & Hfx & Hfirst).
           exists x. replace (Z.to_nat (findIndex f l + 1)) with (S (Z.to_nat (findIndex f l)))
             by lia.
           split; [done|]. split; [done|].
           intros [|j] y Hj; cbn [lookup list_lookup]; [by intros [= <-]|].
           apply Hfirst. lia.
Qed.

Section UseLinkProperties.

Variable isSameRouteRecord : RouteRecordNormalized → RouteRecordNormalized → bool.

(** X17. The active index of a link is [-1] or an index of the current route's
    chain: [-1] whenever either chain is empty; otherwise the index of the
    first record of the current chain that is the same as the link's
    target (no record before it is) or, when the target is none of them,
    has the path of its parent (an empty path child) and the current route
    is not that parent itself, the index of the first that is the same as
    the target's parent (no record before it is). Whenever some record of
    the current chain is the same as the target, the index is not [-1]. A
    link is active only when its params are all among the current ones. *)
Theorem activeRecordIndex_spec matched currentMatched :
  let i := activeRecordIndex isSameRouteRecord matched currentMatched in
  ((-1 ≤ i < Z.of_nat (length currentMatched))%Z)
  ∧ (matched = [] ∨ currentMatched = [] → i = (-1)%Z)
  ∧ ((0 ≤ i)%Z →
     ∃ target r,
       last matched = Some target
       ∧ currentMatched !! Z.to_nat i = Some r
       ∧ (isSameRouteRecord target r = true
          ∧ (∀ j x, j < Z.to_nat i → currentMatched !! j = Some x →
                    isSameRouteRecord target x = false)
          ∨ ∃ rest parentRecord current,
              matched = rest ++ [parentRecord; target]
              ∧ isSameRouteRecord parentRecord r = true
              ∧ (∀ j x, j < Z.to_nat i → currentMatched !! j = Some x →
                        isSameRouteRecord parentRecord x = false)
              ∧ (∀ x, x ∈ currentMatched → isSameRouteRecord target x = false)
              ∧ getOriginalPath (Some target) = getOriginalPath (Some parentRecord)
              ∧ last currentMatched = Some current
              ∧ rec_path current ≠ getOriginalPath (Some parentRecord)))
  ∧ (∀ target x,
       last matched = Some target → x ∈ currentMatched →
       isSameRouteRecord target x = true → (0 ≤ i)%Z)
  ∧ (∀ params currentParams,
       isActive isSameRouteRecord matched currentMatched params currentParams = true →
       (0 ≤ i)%Z ∧ params ⊆ currentParams).
Proof.
  intros i.
  assert (∀ {A} (l : list A), at_ l (Z.of_nat (length l) - 1) = last l) as Hlast.
  { intros A l. unfold at_. destruct l as [|a l] using rev_ind; [done|].
    rewrite length_app, last_snoc. cbn [length].
    destruct (Z.ltb_spec (Z.of_nat (length l + 1) - 1) 0); [lia|].
    replace (Z.to_nat _) with (length l) by lia.
    by rewrite lookup_app_r, Nat.sub_diag by lia. }
  assert (((-1 ≤ i < Z.of_nat (length currentMatched))%Z)
          ∧ (matched = [] ∨ currentMatched = [] → i = (-1)%Z)
          ∧ ((0 ≤ i)%Z →
             ∃ target r,
               last matched = Some target
               ∧ currentMatched !! Z.to_nat i = Some r
               ∧ (isSameRouteRecord target r = true
                  ∧ (∀ j x, j < Z.to_nat i → currentMatched !! j = Some x →
                            isSameRouteRecord target x = false)
                  ∨ ∃ rest parentRecord current,
                      matched = rest ++ [parentRecord; target]
                      ∧ isSameRouteRecord parentRecord r = true
                      ∧ (∀ j x, j < Z.to_nat i → currentMatched !! j = Some x →
                                isSameRouteRecord parentRecord x = false)
                      ∧ (∀ x, x ∈ currentMatched → isSameRouteRecord target x = false)
                      ∧ getOriginalPath (Some target) = getOriginalPath (Some parentRecord)
                      ∧ last currentMatched = Some current
                      ∧ rec_path current ≠ getOriginalPath (Some parentRecord)))
          ∧ (∀ target x,
               last matched = Some target → x ∈ currentMatched →
               isSameRouteRecord target x = true → (0 ≤ i)%Z)) as H.
  { subst i. unfold activeRecordIndex. rewrite !Hlast.
    destruct (last matched) as [target|] eqn:Et.
    2:{ split; [lia|]. split; [done|]. split; [lia|done]. }
    destruct (Nat.eqb_spec (length currentMatched) 0) as [E0|E0].
    { split; [lia|]. split; [done|]. split; [lia|].
      intros ? x _ Hx. destruct currentMatched; [by apply elem_of_nil in Hx|done]. }
    pose proof (findIndex_spec (isSameRouteRecord target) currentMatched)
      as (Hb & Hnone & Hsome). cbn zeta in *.
    destruct (Z.ltb_spec (-1) (findIndex (isSameRouteRecord target) currentMatched))
      as [Hfound|Hnot].
    { split; [lia|]. split; [|split].
      - intros [-> | ->]; [done|]. cbn in E0. lia.
      - intros Hi. destruct (Hsome Hi) as (r & Hr & Hfr & Hfirst).
        exists target, r. split_and!; [done..|]. left. split; [done|exact Hfirst].
      - intros; lia. }
    assert (findIndex (isSameRouteRecord target) currentMatched = (-1)%Z) as Eidx by lia.
    assert (∀ x, x ∈ currentMatched → isSameRouteRecord target x = false) as Hnotarget
      by by apply Hnone.
    assert (∀ (k : Z) target' x,
              Some target = Some target' → x ∈ currentMatched →
              isSameRouteRecord target' x = true → (0 ≤ k)%Z) as Hnever.
    { intros k target' x [= <-] Hx Hsame. rewrite (Hnotarget x Hx) in Hsame. done. }
    rewrite Eidx.
    destruct (_ && _) eqn:Econd.
    2:{ split; [lia|]. split; [done|]. split; [lia|apply Hnever]. }
    apply andb_true_iff in Econd as [[Elen Epath]%andb_true_iff Ecur].
    apply Z.ltb_lt in Elen. apply String.eqb_eq in Epath.
    apply negb_true_iff, String.eqb_neq in Ecur.
    destruct matched as [|target' matched _] using rev_ind; [done|].
    rewrite last_snoc in Et. injection Et as ->.
    destruct matched as [|parentRecord rest _] using rev_ind.
    { cbn in Elen. lia. }
    assert (at_ ((rest ++ [parentRecord]) ++ [target])
                (Z.of_nat (length ((rest ++ [parentRecord]) ++ [target])) - 2)
            = Some parentRecord) as Eparent.
    { unfold at_. rewrite !length_app. cbn [length].
      destruct (Z.ltb_spec (Z.of_nat (length rest + 1 + 1) - 2) 0); [lia|].
      replace (Z.to_nat _) with (length rest) by lia.
      rewrite <- app_assoc. by rewrite lookup_app_r, Nat.sub_diag by lia. }
    rewrite Eparent in *.
    pose proof (findIndex_spec (isSameRouteRecord parentRecord) currentMatched)
      as (Hb' & _ & Hsome'). cbn zeta in *.
    split; [lia|]. split; [|split].
    - intros [E | ->]; [by destruct rest|]. cbn in E0. lia.
    - intros Hi. destruct (Hsome' Hi) as (r & Hr & Hfr & Hfirst).
      destruct (last currentMatched) as [current|] eqn:Ecurrent.
      2:{ apply last_None in Ecurrent. subst. cbn in E0. lia. }
      exists target, r. split_and!; [done..|].
      right. exists rest, parentRecord, current.
      split_and!; try done. by rewrite <- (assoc_L (++)).
    - apply Hnever. }
  destruct H as (H1 & H2 & H3 & H4). do 4 (split; [done|]).
  intros params currentParams [Hi Hp]%andb_true_iff.
  apply Z.ltb_lt in Hi. apply includesParams_true_iff in Hp. split; [lia|done].
Qed.

End UseLinkProperties.

(** ** RouterView: the depth of a view *)

Lemma skipViewless_spec rest initialDepth :
  let d := skipViewless rest initialDepth in
  initialDepth ≤ d ≤ initialDepth + length rest
  ∧ (∀ i, i < d - initialDepth →
          ∃ r, rest !! i = Some r ∧ rec_components r = None)
  ∧ (∀ r, rest !! (d - initialDepth) = Some r → is_Some (rec_components r)).
Proof.
  revert initialDepth.
  induction rest as [|r rest IH]; intros n; cbn [skipViewless length]; cbv zeta.
  - split; [lia|]. split; [intros i; lia|]. intros r. by rewrite lookup_nil.
  - destruct (rec_components r) as [cs|] eqn:E; cbn [negb bool_decide].
    + rewrite bool_decide_eq_true_2 by by eexists. cbn [negb].
      split; [lia|]. split; [intros i; lia|].
      rewrite Nat.sub_diag. intros ? [= <-]. rewrite E. by eexists.
    + rewrite bool_decide_eq_false_2 by by intros [? [=]]. cbn [negb].
      destruct (IH (S n)) as (Hb & Hskip & Hstop). cbn zeta in *.
      split; [lia|]. split.
      * intros [|i] Hi; [by exists r|]. cbn [lookup list_lookup].
        apply Hskip. lia.
      * intros r'. replace (skipViewless rest (S n) - n)
          with (S (skipViewless rest (S n) - S n)) by lia.
        apply Hstop.
Qed.

(** X18. The computed [depth] of a view: at least the injected depth and at
    most the larger of the injected depth and the length of the chain; every record
    from the injected depth up to it has no [components] and is skipped;
    the record at it, when there is one, has [components], so reading a
    view of it never fails; and the depth provided to the nested views makes
    them display a strictly deeper record. *)
Theorem depth_spec injectedDepth matched :
  let d := depth injectedDepth matched in
  injectedDepth ≤ d ≤ max injectedDepth (length matched)
  ∧ (∀ i, injectedDepth ≤ i < d →
          ∃ r, matched !! i = Some r ∧ rec_components r = None)
  ∧ (∀ r, matchedRouteRef injectedDepth matched = Some r → is_Some (rec_components r))
  ∧ (∀ currentName, is_Some (viewComponent injectedDepth matched currentName))
  ∧ d < depth (providedDepth injectedDepth matched) matched.
Proof.
  intros d. unfold matchedRouteRef, viewComponent, matchedRouteRef, providedDepth.
  fold d. subst d. unfold depth.
  pose proof (skipViewless_spec (drop injectedDepth matched) injectedDepth)
    as (Hb & Hskip & Hstop). cbn zeta in *.
  rewrite length_drop in Hb.
  assert (∀ r, matched !! skipViewless (drop injectedDepth matched) injectedDepth = Some r →
               is_Some (rec_components r)) as Hat.
  { intros r Hr. apply Hstop. rewrite lookup_drop. rewrite <- Hr. f_equal. lia. }
  split; [lia|]. split_and!.
  - intros i Hi. destruct (Hskip (i - injectedDepth)) as (r & Hr & Hc); [lia|].
    exists r. split; [|done]. rewrite lookup_drop in Hr. rewrite <- Hr. f_equal. lia.
  - exact Hat.
  - intros currentName.
    destruct (matched !! _) as [r|] eqn:Er; [|by eexists].
    destruct (Hat r eq_refl) as [cs ->]. by eexists.
  - pose proof (skipViewless_spec
                  (drop (skipViewless (drop injectedDepth matched) injectedDepth + 1) matched)
                  (skipViewless (drop injectedDepth matched) injectedDepth + 1))
      as (Hb' & _). cbn zeta in Hb'. lia.
Qed.

(** ** More properties of the helpers *)

(** X1. [paramsFromLocation] on a params object, a plain object given by
    its own properties, [__proto__] not being one. It copies, for each of
    the given keys, what [key in params] finds: the property the object
    holds under the key or, when it holds none, the member of
    [Object.prototype] of that name. A key that is not given gets no
    entry, and nothing is copied under [__proto__]: the result is such an
    object again. So the params under the given keys are kept as they are,
    a key that names no member is copied only when the object holds it,
    copying twice is copying once, no key gives the empty mapping, and the
    empty object gives the members the keys name. *)
Theorem paramsFromLocation_spec (params : MatcherParams) (names : list string) :
  params !! "__proto__"%string = None →
  (∀ key, paramsFromLocation params names !! key
          = if decide (key ∈ names)
            then match params !! key with
                 | Some v => Some v
                 | None =>
                     if decide (key ∈ objectPrototypeDataMembers)
                     then Some (PrototypeMember key) else None
                 end
            else None)
  ∧ paramsFromLocation params names !! "__proto__"%string = None
  ∧ restrictTo names params ⊆ paramsFromLocation params names
  ∧ (∀ key, key ∉ objectPrototypeDataMembers →
            paramsFromLocation params names !! key = restrictTo names params !! key)
  ∧ paramsFromLocation (paramsFromLocation params names) names
    = paramsFromLocation params names
  ∧ paramsFromLocation params [] = ∅
  ∧ paramsFromLocation ∅ names = restrictTo names inheritedParams.
Proof.
  intros Hproto.
  assert (∀ key, key ∉ objectPrototypeDataMembers →
                 paramsFromLocation params names !! key = restrictTo names params !! key)
    as Hplain.
  { intros key Hkey.
    rewrite paramsFromLocation_lookup, restrictTo_lookup, withInherited_lookup.
    rewrite (decide_False (P := key ∈ objectPrototypeDataMembers)) by done.
    case_decide; [|done]. by destruct (params !! key). }
  split_and!.
  - intros key. by rewrite paramsFromLocation_lookup, withInherited_lookup.
  - rewrite Hplain by compute_done. rewrite restrictTo_lookup, Hproto. by case_decide.
  - apply map_subseteq_spec. intros key v.
    rewrite paramsFromLocation_lookup, restrictTo_lookup, withInherited_lookup.
    case_decide; [|done]. by intros ->.
  - exact Hplain.
  - apply map_eq. intros key. rewrite !paramsFromLocation_lookup.
    case_decide; [|done]. rewrite (withInherited_lookup (paramsFromLocation _ _)).
    rewrite paramsFromLocation_lookup, decide_True by done.
    rewrite withInherited_lookup. destruct (params !! key); [done|]. by case_decide.
  - done.
  - apply map_eq. intros key.
    rewrite paramsFromLocation_lookup, restrictTo_lookup, withInherited_lookup.
    by rewrite lookup_empty, inheritedParams_lookup.
Qed.

Lemma isAliasRecord_true_iff m :
  isAliasRecord m = true ↔ ∃ a, a ∈ ancestors m ∧ is_Some (rec_aliasOf (record a)).
Proof.
  induction m as [u ps r|u ps r pm IH] using matcher_parent_ind;
    rewrite isAliasRecord_created; cbn [ancestors].
  - rewrite orb_false_r, bool_decide_eq_true. split.
    + intros H. eexists. split; [left|done].
    + intros (a & ->%list_elem_of_singleton & H). done.
  - rewrite orb_true_iff, bool_decide_eq_true, IH. split.
    + intros [H|(a & Ha & H)].
      * eexists. split; [left|done].
      * exists a. split; [by right|done].
    + intros (a & [-> | Ha]%elem_of_cons & H); [by left|].
      right. by exists a.
Qed.

(** X2. [isAliasRecord] holds exactly when the matcher or one of the
    matchers above it has a record that is an alias; it fails exactly when
    no record on the parent chain is an alias; so every matcher below an
    alias is an alias. *)
Theorem isAliasRecord_ancestors m :
  (isAliasRecord m = true ↔ ∃ a, a ∈ ancestors m ∧ is_Some (rec_aliasOf (record a)))
  ∧ (isAliasRecord m = false ↔ ∀ a, a ∈ ancestors m → rec_aliasOf (record a) = None)
  ∧ (∀ p, parent m = Some p → isAliasRecord p = true → isAliasRecord m = true).
Proof.
  split_and!.
  - apply isAliasRecord_true_iff.
  - rewrite <- not_true_iff_false, isAliasRecord_true_iff. split.
    + intros H a Ha. destruct (rec_aliasOf (record a)) as [r0|] eqn:E; [|done].
      destruct H. exists a. split; [done|]. by rewrite E.
    + intros H (a & Ha & [r0 E]). rewrite (H a Ha) in E. done.
  - intros p Hp Hal. apply isAliasRecord_true_iff.
    apply isAliasRecord_true_iff in Hal as (a & Ha & Hsome).
    exists a. split; [|done]. destruct m as [u ps r pm]. cbn in Hp. subst pm.
    cbn [ancestors]. by right.
Qed.

Section RegistryInvariants.

Context {PM : PathMatcherModule}.

(** X3. On a registry that satisfies the invariant [isRecordChildOf] returns:
    the recursion through the [children] arrays ends. It answers [true]
    exactly when the record is below the parent in the tree of children;
    a record found there was created after the parent, so no matcher is
    below itself. *)
Theorem isRecordChildOf_decides st r p :
  Inv st → Known st r → Known st p →
  ∃ b, isRecordChildOf (depthBound st) st r p = Some b
       ∧ (b = true ↔ Descendant st r p)
       ∧ (b = true → uid p < uid r)
       ∧ isRecordChildOf (depthBound st) st r r = Some false.
Proof.
  intros Hinv Hr Hp.
  assert (∀ x, Known st x → ∃ b, isRecordChildOf (depthBound st) st r x = Some b
                                 ∧ (b = true ↔ Descendant st r x)) as Hdec.
  { intros x Hx.
    destruct (isRecordChildOf_total (depthBound st) st r x Hinv Hx) as [b Hb].
    { unfold depthBound. lia. }
    exists b. split; [done|]. destruct b.
    - split; [|done]. intros _.
      by apply (isRecordChildOf_true (depthBound st) _ _ _ Hinv Hr Hx).
    - split; [done|]. intros Hd. by apply isRecordChildOf_false in Hb. }
  destruct (Hdec p Hp) as (b & Hb & Hiff). exists b. split_and!; [done..| |].
  - intros ->. apply (Descendant_uid st); [apply (inv_links _ Hinv)|]. by apply Hiff.
  - destruct (Hdec r Hr) as ([] & Hbr & Hiffr); [|done].
    assert (uid r < uid r); [|lia].
    apply (Descendant_uid st); [apply (inv_links _ Hinv)|]. by apply Hiffr.
Qed.

(** X4. What every reachable registry satisfies: no matcher is twice in the
    ordered sequence; every entry of the name table is a matcher of the
    sequence that carries that name; the children and aliases of a matcher
    were created after it; and every further [addRoute] and [removeRoute]
    returns. *)
Theorem registry_invariants st :
  Reachable st →
  NoDup (matchers st)
  ∧ (∀ name m, (getRecordMatcher name st).1 = Some m →
               m ∈ readArray (getRoutes st).1 st ∧ rec_name (record m) = Some name)
  ∧ (∀ m c, Known st m → c ∈ childrenOf st m ++ aliasesOf st m →
            uid m < uid c ∧ Known st c)
  ∧ (∀ definition parent,
       KnownOpt st parent → is_Some (addRoute definition parent None st))
  ∧ (∀ matcherRef,
       (∀ m, matcherRef = inr m → Known st m) → is_Some (removeRoute matcherRef st)).
Proof.
  intros Hinv%Reachable_Inv. split_and!.
  - eapply NoDup_fmap_1, (inv_nodup _ Hinv).
  - intros name m Hm. destruct (inv_map _ Hinv name m Hm) as (? & ? & ?). done.
  - intros m c (o & Ho & _). unfold childrenOf, aliasesOf. rewrite Ho.
    apply (inv_links _ Hinv _ _ c Ho).
  - intros definition parent Hp.
    destruct (addRoute_spec definition parent None st Hinv Hp) as (? & ? & -> & _);
      [done|by eexists].
  - intros matcherRef Hk.
    destruct (removeRoute_spec st matcherRef Hinv Hk) as (? & -> & _). by eexists.
Qed.

(** X5. A second [removeRoute] of the same name, or of the same matcher, does
    nothing. *)
Theorem removeRoute_idempotent st matcherRef :
  Reachable st →
  (∀ m, matcherRef = inr m → Known st m) →
  ∃ st', removeRoute matcherRef st = Some st'
         ∧ removeRoute matcherRef st' = Some st'.
Proof.
  intros Hinv%Reachable_Inv Hk.
  destruct (removeRoute_spec st matcherRef Hinv Hk) as (st' & E & Hinv' & R).
  exists st'. split; [done|].
  destruct matcherRef as [name|m].
  - destruct (matcherMap st !! name) as [m|] eqn:Hm.
    + destruct (inv_map _ Hinv _ _ Hm) as (Hin & Hn & Ht).
      cbn [option_list] in R.
      assert (m ∉ matchers st') as Hout.
      { intros Hin'. apply (rm_roots _ _ _ R m); [left|]. by apply list_elem_of_fmap_2. }
      destruct (rm_removed _ _ _ R m Hin Hout) as (_ & _ & Hgone).
      unfold removeRoute. by rewrite (Hgone name Hn Ht).
    + unfold removeRoute in E. rewrite Hm in E. injection E as <-.
      unfold removeRoute. by rewrite Hm.
  - assert (indexOf m (matchers st') = None) as Hidx.
    { apply indexOf_None. apply (rm_roots _ _ _ R). left. }
    unfold removeRoute, depthBound. cbn [removeMatcher]. by rewrite Hidx.
Qed.

(** X6. [removeRoute] of a matcher of the sequence deletes the name of its
    record from the name table, whichever matcher the table holds under
    that name: a later [resolve] by that name throws MATCHER_NOT_FOUND. *)
Theorem removeRoute_matcher_drops_name st m name :
  Reachable st →
  m ∈ matchers st →
  rec_name (record m) = Some name → truthyName (Some name) = true →
  ∃ st', removeRoute (inr m) st = Some st'
         ∧ (m ∉ matchers st')
         ∧ (getRecordMatcher name st').1 = None
         ∧ ∀ params currentLocation,
             resolve (mkLocationRaw (Some name) None params) currentLocation st'
             = Throws MATCHER_NOT_FOUND.
Proof.
  intros Hinv%Reachable_Inv Hin Hname Ht.
  destruct (removeRoute_spec st (inr m) Hinv) as (st' & E & Hinv' & R).
  { intros ? [= <-]. by apply (inv_known _ Hinv). }
  assert (m ∉ matchers st') as Hout.
  { intros Hin'. apply (rm_roots _ _ _ R m); [left|]. by apply list_elem_of_fmap_2. }
  destruct (rm_removed _ _ _ R m Hin Hout) as (_ & _ & Hgone).
  exists st'. split_and!; [done..|by apply (Hgone name)|].
  intros params currentLocation. apply resolve_unregistered_name; [done|].
  by apply (Hgone name).
Qed.

(** X7. After [addRoute] of a definition that has a name, under no parent or
    under a matcher that is not an alias, [getRecordMatcher] of the name
    returns the matcher created for the definition, whether the name was
    registered before or not; the matcher is in the sequence, and [resolve]
    by the name finds it. *)
Theorem addRoute_registers_name st definition parent name :
  Reachable st →
  KnownOpt st parent → (∀ p, parent = Some p → isAliasRecord p = false) →
  raw_name definition = Some name → truthyName (Some name) = true →
  ∃ new st',
    addRoute definition parent None st = Some (Some new, st')
    ∧ (getRecordMatcher name st').1 = Some new
    ∧ record new
      = setPath (joinPath parent (raw_path definition)) (normalizeRouteRecord definition)
    ∧ new ∈ matchers st'
    ∧ ∀ params currentLocation,
        Locates st' (mkLocationRaw (Some name) None params) currentLocation new
        ∧ resolve (mkLocationRaw (Some name) None params) currentLocation st'
          ≠ Throws MATCHER_NOT_FOUND.
Proof.
  intros Hinv%Reachable_Inv Hparent Hnot Hname Ht.
  destruct (addRoute_top definition parent st Hinv Hparent)
    as (st1 & st' & E & _ & _ & Hinv' & _ & _ & _ & Hmap & _ & _ & Hreg & _).
  cbn zeta in *.
  set (m := mkMatcher (length (objects st))
              (compile (joinPath parent (raw_path definition))
                 (mergeOptions globalOptions definition))
              (setPath (joinPath parent (raw_path definition))
                 (normalizeRouteRecord definition)) parent) in *.
  exists m, st'. split; [exact E|].
  assert (matcherMap st' !! name = Some m) as Hget.
  { rewrite Hmap. apply Hreg; [done..|].
    unfold m. rewrite isAliasRecord_created. cbn [rec_aliasOf setPath normalizeRouteRecord].
    rewrite bool_decide_eq_false_2 by by intros [? [=]].
    destruct parent as [p|]; [by apply Hnot|done]. }
  split_and!; [done..| |].
  - by apply (inv_map _ Hinv' name).
  - intros params currentLocation.
    assert (Locates st' (mkLocationRaw (Some name) None params) currentLocation m) as Hloc.
    { apply (locates_by_name _ _ _ _ name); [|done..].
      unfold shapeOf. cbn [loc_name]. by rewrite Ht. }
    split; [exact Hloc|].
    unfold resolve. cbn [loc_name]. rewrite Ht. cbn [mbind option_bind].
    rewrite Hget. by destruct (stringify _ _).
Qed.

(** X8. Whatever [resolve] returns with a matched chain was found in the
    ordered sequence of the registry: a matcher that was removed, or one
    that displays nothing, is never the target. The chain is empty only
    for a request by path that no matcher of the sequence matches. A
    request by name returns a location that carries that name. *)
Theorem resolve_targets_sequence st location currentLocation l :
  Reachable st →
  resolve location currentLocation st = Returns l →
  (∃ m, Locates st location currentLocation m
        ∧ m ∈ matchers st
        ∧ displaysSomething (record m) = true
        ∧ ml_matched l = record <$> reverse (ancestors m)
        ∧ last (ml_matched l) = Some (record m)
        ∧ ml_name l = rec_name (record m)
        ∧ (shapeOf location = ByName → ml_name l = loc_name location))
  ∨ (ml_matched l = [] ∧ ml_name l = None
     ∧ shapeOf location = ByPath
     ∧ ∀ path x, loc_path location = Some path → x ∈ matchers st →
                 re_test (parser x) path = false).
Proof.
  intros Hinv%Reachable_Inv.
  assert (∀ m path params,
            Locates st location currentLocation m → m ∈ matchers st →
            (shapeOf location = ByName → rec_name (record m) = loc_name location) →
            Returns (finishResolve (Some m) (rec_name (record m)) path params) = Returns l →
            ∃ m, Locates st location currentLocation m
                 ∧ m ∈ matchers st
                 ∧ displaysSomething (record m) = true
                 ∧ ml_matched l = record <$> reverse (ancestors m)
                 ∧ last (ml_matched l) = Some (record m)
                 ∧ ml_name l = rec_name (record m)
                 ∧ (shapeOf location = ByName → ml_name l = loc_name location)) as Hfin.
  { intros m path params Hloc Hin Hn [= <-]. exists m.
    cbn [finishResolve ml_matched ml_name]. rewrite matchedOf_ancestors.
    split_and!; try done; [by apply (inv_display _ Hinv)|].
    rewrite fmap_reverse. destruct m as [u ps r p]. cbn [ancestors fmap list_fmap].
    by rewrite reverse_cons, last_snoc. }
  unfold resolve.
  destruct (truthyName (loc_name location)) eqn:Ht.
  - destruct (loc_name location) as [name|] eqn:Ename; [|done]. cbn [mbind option_bind].
    destruct (matcherMap st !! name) as [m|] eqn:Hm; [|done].
    destruct (stringify _ _) as [path|]; [|done].
    intros H. left. destruct (inv_map _ Hinv _ _ Hm) as (Hin & Hn & _).
    eapply Hfin; [| | |exact H]; [|done..].
    apply (locates_by_name _ _ _ _ name); [|done..].
    unfold shapeOf. by rewrite Ename, Ht.
  - assert (shapeOf location ≠ ByName) as Hshape.
    { unfold shapeOf. rewrite Ht. by case_bool_decide. }
    destruct (loc_path location) as [path|] eqn:Epath.
    + assert (shapeOf location = ByPath) as Hs.
      { unfold shapeOf. by rewrite Ht, Epath, bool_decide_eq_true_2. }
      destruct (findMatcher path (matchers st)) as [m|] eqn:Hfind.
      * intros H. left.
        pose proof (findMatcher_Some _ _ _ Hfind) as (l1 & l2 & El & _).
        eapply Hfin; [| | |exact H].
        -- by apply (locates_by_path _ _ _ _ path).
        -- rewrite El. set_solver.
        -- done.
      * intros [= <-]. right. cbn. split_and!; [done..|].
        intros ? x [= <-]. by apply findMatcher_None.
    + assert (shapeOf location = RelativeToCurrent) as Hs.
      { unfold shapeOf. rewrite Ht, Epath, bool_decide_eq_false_2; [done|].
        by intros [? [=]]. }
      destruct (truthyName (ml_name currentLocation)) eqn:Htc.
      * destruct (ml_name currentLocation) as [name|] eqn:Ename; [|done].
        cbn [mbind option_bind].
        destruct (matcherMap st !! name) as [m|] eqn:Hm; [|done].
        destruct (stringify _ _) as [path|]; [|done].
        intros H. left. destruct (inv_map _ Hinv _ _ Hm) as (Hin & _).
        eapply Hfin; [| | |exact H]; [|done..].
        by apply (locates_current_name _ _ _ _ name).
      * destruct (findMatcher _ _) as [m|] eqn:Hfind; [|done].
        destruct (stringify _ _) as [path|]; [|done].
        intros H. left.
        pose proof (findMatcher_Some _ _ _ Hfind) as (l1 & l2 & El & _).
        eapply Hfin; [| | |exact H].
        -- by apply locates_current_path.
        -- rewrite El. set_solver.
        -- done.
Qed.

End RegistryInvariants.


(** ** Properties of the registry kept by every operation *)

Section Preservation.

Context {PM : PathMatcherModule}.

(** A property [P] of the ordered sequence and of the name table that a
    removal and an insertion keep is kept by [addRoute], hence holds of
    every reachable registry. The insertion may rely on a property [Q] of
    the matchers [addRoute] creates: the matcher of a record of
    [normalizedRecordsOf], with the joined path and the pattern compiled
    from it, an original matcher being passed along only below an alias. *)
Variable P : Registry → Prop.
Variable Q : RouteRecordMatcher → Prop.

Hypothesis P_store : ∀ st st',
  matchers st' = matchers st → matcherMap st' = matcherMap st → P st → P st'.

Hypothesis P_removal : ∀ roots st st',
  Inv st → Removal roots st st' → P st → P st'.

Hypothesis P_insert : ∀ matcher st st',
  Inv st → Known st matcher → uid matcher ∉ uid <$> matchers st →
  displaysSomething (record matcher) = true → Q matcher →
  insertMatcher matcher st = Some st' → P st → P st'.

Hypothesis Q_created : ∀ definition parent orig nr u,
  nr ∈ normalizedRecordsOf definition parent orig →
  (is_Some orig → ∃ p, parent = Some p ∧ isAliasRecord p = true) →
  Q (mkMatcher u
       (compile (joinPath parent (rec_path nr)) (mergeOptions globalOptions definition))
       (setPath (joinPath parent (rec_path nr)) nr) parent).

Lemma removeRoute_keep st matcherRef st' :
  Inv st → (∀ m, matcherRef = inr m → Known st m) →
  removeRoute matcherRef st = Some st' → P st → P st'.
Proof.
  intros Hinv Hk E. destruct (removeRoute_spec st matcherRef Hinv Hk) as (st2 & E2 & _ & R).
  rewrite E in E2. injection E2 as <-. by eapply P_removal.
Qed.

Lemma addNormalizedRecord_keep addCh definition parent isRootAdd options nr vars st r :
  ChildrenSpec addCh → ChildrenKeep P addCh →
  Inv st → KnownOpt st parent →
  KnownOpt st (originalRecord vars) → KnownOpt st (originalMatcher vars) →
  let m := mkMatcher (length (objects st))
             (compile (joinPath parent (rec_path nr)) options)
             (setPath (joinPath parent (rec_path nr)) nr) parent in
  Q m → (is_Some (originalRecord vars) → isAliasRecord m = true) →
  addNormalizedRecord addCh definition parent isRootAdd options nr vars st = Some r →
  P st → P r.2.
Proof.
  intros HC HK Hinv Hparent Horig Hom m HQ Halias E HP. revert E.
  unfold addNormalizedRecord.
  destruct (createRouteRecordMatcher_spec
              (setPath (joinPath parent (rec_path nr)) nr) parent options st Hinv Hparent)
    as (st1 & Ecreate & Hinv1 & Hext1 & Hkm1 & Hm1 & Hmap1 & Hlen1).
  change (rec_path (setPath (joinPath parent (rec_path nr)) nr))
    with (joinPath parent (rec_path nr)) in Ecreate.
  fold m in Ecreate, Hkm1. rewrite Ecreate.
  assert (uid m = length (objects st)) as Huid by done.
  assert (∀ x, x ∈ matchers st1 → uid x < uid m) as Hnew.
  { intros x. rewrite Hm1, Huid. intros Hx. by apply Known_lt, (inv_known _ Hinv). }
  assert (P st1) as HP1 by by apply (P_store st).
  set (om1 := default m (originalMatcher vars)).
  set (st1' := if sameMatcher om1 m then st1 else pushAlias om1 m st1).
  assert (Inv st1' ∧ Extends st1 st1' ∧ matchers st1' = matchers st1
          ∧ matcherMap st1' = matcherMap st1) as (Hi' & He' & Hm' & Hmap').
  { subst st1' om1. unfold sameMatcher.
    destruct (Nat.eqb_spec (uid (default m (originalMatcher vars))) (uid m)) as [E|E].
    - split_and!; try done. apply Extends_refl.
    - destruct (originalMatcher vars) as [om0|] eqn:Eom0; [|done]. cbn in E |- *.
      destruct (pushAlias_spec st1 om0 m Hinv1 Hkm1) as [Hi He]; [|done|].
      { rewrite Huid. apply Known_lt. by apply Hom. }
      by split_and!. }
  assert (P st1') as HP1' by by apply (P_store st1).
  assert (∃ om st2,
    match originalRecord vars with
    | Some o => Some (originalMatcher vars, pushAlias o m st1)
    | None =>
        match raw_name definition with
        | Some name =>
            if isRootAdd && truthyName (Some name) && negb (isAliasRecord m)
            then removeRoute (inl name) st1'
            else Some st1'
        | None => Some st1'
        end ≫= λ st0, Some (Some om1, st0)
    end = Some (om, st2)
    ∧ Inv st2 ∧ Extends st1 st2
    ∧ (∀ x, x ∈ matchers st2 → x ∈ matchers st1)
    ∧ P st2)
    as (om & st2 & Emid & Hinv2 & Hext2 & Hsub2 & HP2).
  { destruct (originalRecord vars) as [o|] eqn:Eo.
    - destruct (pushAlias_spec st1 o m Hinv1 Hkm1) as [Hi He]; [|done|].
      { rewrite Huid. apply Known_lt. by apply Horig. }
      eexists _, _. split_and!; try done. by apply (P_store st1).
    - destruct (raw_name definition) as [name|].
      2:{ exists (Some om1), st1'. split_and!; try done. by rewrite Hm'. }
      destruct (isRootAdd && truthyName (Some name) && negb (isAliasRecord m)).
      2:{ exists (Some om1), st1'. split_and!; try done. by rewrite Hm'. }
      destruct (removeRoute_spec st1' (inl name) Hi') as (st2 & E2 & Hi2 & R); [done|].
      exists (Some om1), st2. rewrite E2. split_and!; try done.
      + apply (Extends_trans st1 st1'); [done|].
        apply Extends_shrink; [apply R|]. intros x Hx.
        eapply elem_of_sublist; [exact Hx|apply R].
      + intros x Hx. rewrite <- Hm'. eapply elem_of_sublist; [exact Hx|apply R].
      + by apply (P_removal _ st1' st2 Hi' R). }
  rewrite Emid. cbn [mbind option_bind].
  destruct (HC m (originalRecord vars) st2 Hinv2) as (st3 & Ech & Hinv3 & Hext3 & _).
  { by apply (ext_known _ _ Hext2). }
  { apply (KnownOpt_Extends st); [|done]. by apply (Extends_trans st st1). }
  assert (P st3) as HP3.
  { apply (HK m (originalRecord vars) st2 st3); try done.
    - by apply (ext_known _ _ Hext2).
    - apply (KnownOpt_Extends st); [|done]. by apply (Extends_trans st st1). }
  rewrite Ech. cbn [mbind option_bind].
  assert (uid m ∉ uid <$> matchers st3) as Hfresh.
  { intros (x & E & Hx)%list_elem_of_fmap.
    destruct (ext_matchers _ _ Hext3 x Hx) as [Hin|Hge].
    - apply Hsub2 in Hin. rewrite Hm1 in Hin.
      apply (inv_known _ Hinv), Known_lt in Hin. lia.
    - pose proof (ext_length _ _ Hext2). lia. }
  assert (Known st3 m) as Hkm3.
  { apply (ext_known _ _ Hext3). by apply (ext_known _ _ Hext2). }
  destruct (displaysSomething (record m)) eqn:Hdisp.
  - destruct (insertMatcher_spec st3 m Hinv3 Hkm3 Hfresh Hdisp)
      as (st4 & l1 & l2 & Eins & _).
    rewrite Eins. cbn [mbind option_bind]. intros [= <-]. cbn [snd].
    by apply (P_insert m st3 st4).
  - cbn [mbind option_bind]. by intros [= <-].
Qed.

Lemma forEachRecord_keep addCh definition parent isRootAdd options l vars st r :
  ChildrenSpec addCh → ChildrenKeep P addCh →
  Inv st → KnownOpt st parent →
  KnownOpt st (originalRecord vars) → KnownOpt st (originalMatcher vars) →
  let mk u nr := mkMatcher u (compile (joinPath parent (rec_path nr)) options)
                   (setPath (joinPath parent (rec_path nr)) nr) parent in
  (∀ nr u, nr ∈ l → Q (mk u nr)) →
  (∀ i nr u, l !! i = Some nr → 0 < i ∨ is_Some (originalRecord vars) →
             isAliasRecord (mk u nr) = true) →
  forEachRecord (addNormalizedRecord addCh definition parent isRootAdd options) l vars st
  = Some r →
  P st → P r.2.
Proof.
  intros HC HK. revert vars st.
  induction l as [|nr l IH]; intros vars st Hinv Hparent Horig Hom mk HQ Hal.
  - cbn. by intros [= <-].
  - cbn [forEachRecord].
    destruct (addNormalizedRecord_spec addCh definition parent isRootAdd options nr vars st
                HC Hinv Hparent Horig Hom)
      as (vars1 & st1 & E1 & Hinv1 & Hext1 & Hkm1 & _ & Hor1 & Hom1 & _).
    pose proof (λ HQm Halm,
                  addNormalizedRecord_keep addCh definition parent isRootAdd options nr
                    vars st _ HC HK Hinv Hparent Horig Hom HQm Halm E1) as Hkeep.
    cbn zeta in Hkeep. specialize (Hkeep (HQ nr _ (list_elem_of_here _ _))).
    specialize (Hkeep (λ H, Hal 0 nr _ eq_refl (or_intror H))).
    rewrite E1. cbn [mbind option_bind]. intros E HP.
    apply (IH vars1 st1); try done.
    + by apply (KnownOpt_Extends st).
    + rewrite Hor1. intros x [= <-]. destruct (originalRecord vars) as [o|] eqn:Eo; cbn.
      * apply (ext_known _ _ Hext1). by apply Horig.
      * done.
    + rewrite Hom1. destruct (originalRecord vars) as [o|] eqn:Eo.
      * by apply (KnownOpt_Extends st).
      * intros x [= <-]. destruct (originalMatcher vars) as [o|] eqn:Eom; cbn.
        -- apply (ext_known _ _ Hext1). by apply Hom.
        -- done.
    + intros nr' u Hnr'. apply HQ. by right.
    + intros i nr' u Hi _. apply (Hal (S i) nr' u Hi). left. lia.
    + by apply Hkeep.
Qed.

Lemma addChildren_keep children :
  (∀ c, c ∈ children → ∀ parent orig st r,
     Inv st → KnownOpt st parent → KnownOpt st orig →
     (is_Some orig → ∃ p, parent = Some p ∧ isAliasRecord p = true) →
     addRoute c parent orig st = Some r → P st → P r.2) →
  ∀ i, ChildrenKeep P (λ matcher o, addChildren matcher o children i).
Proof.
  induction children as [|child rest IH];
    intros Hch i matcher orig st st' Hinv Hm Horig Halias.
  - rewrite addChildren_nil. by intros [= <-].
  - rewrite addChildren_cons.
    assert (KnownOpt st (o ← orig; childrenOf st o !! i)) as Hko.
    { intros x Hx. destruct orig as [o|]; [|done]. cbn in Hx.
      destruct (Horig o eq_refl) as (obj & Hobj & _).
      unfold childrenOf in Hx. rewrite Hobj in Hx.
      apply list_elem_of_lookup_2 in Hx.
      apply (inv_links _ Hinv _ _ x Hobj). apply elem_of_app. by left. }
    destruct (addRoute_spec child (Some matcher) (o ← orig; childrenOf st o !! i) st Hinv)
      as (om & st1 & E1 & Hinv1 & Hext1 & _); [by intros x [= <-]|done|].
    rewrite E1. cbn [mbind option_bind snd]. intros E HP.
    apply (IH (λ c Hc, Hch c (list_elem_of_further _ _ _ Hc)) (S i) matcher orig st1 st');
      try done.
    + by apply (ext_known _ _ Hext1).
    + by apply (KnownOpt_Extends st).
    + apply (Hch child (list_elem_of_here _ _) (Some matcher)
               (o ← orig; childrenOf st o !! i) st (om, st1)); try done.
      * by intros x [= <-].
      * intros Hsome. exists matcher. split; [done|]. apply Halias.
        destruct orig; [done|]. by destruct Hsome.
Qed.

Lemma normalizedRecordsOf_alias definition parent orig i nr :
  normalizedRecordsOf definition parent orig !! i = Some nr →
  0 < i ∨ is_Some orig → is_Some (rec_aliasOf nr).
Proof.
  unfold normalizedRecordsOf. destruct i as [|i].
  - intros [= <-] [?|[o ->]]; [lia|]. by eexists.
  - destruct (raw_alias definition) as [aliases|]; [|done].
    rewrite lookup_cons_ne_0, list_lookup_fmap by done. cbn [pred].
    destruct (aliases !! i); [|done].
    intros [= <-] _. by eexists.
Qed.

Lemma addRoute_keep definition :
  ∀ parent orig st r,
    Inv st → KnownOpt st parent → KnownOpt st orig →
    (is_Some orig → ∃ p, parent = Some p ∧ isAliasRecord p = true) →
    addRoute definition parent orig st = Some r → P st → P r.2.
Proof.
  induction definition as [definition IH] using RouteRecordRaw_children_ind.
  intros parent orig st r Hinv Hparent Horig Halias. rewrite addRoute_unfold.
  destruct (forEachRecord _ _ _ _) as [[vars' st']|] eqn:E; [|done].
  cbn [mbind option_bind]. intros [= <-] HP. cbn [snd].
  apply (forEachRecord_keep _ _ _ _ _ _ (mkVars orig None) _ (vars', st')
           (addChildren_spec _ (λ c _, addRoute_spec c) 0)
           (addChildren_keep _ IH 0) Hinv Hparent Horig) in E; try done.
  - intros nr u Hnr. by apply (Q_created definition parent orig).
  - intros i nr u Hi Hcase. rewrite isAliasRecord_created.
    cbn [rec_aliasOf setPath originalRecord] in *.
    rewrite bool_decide_eq_true_2; [done|].
    by apply (normalizedRecordsOf_alias definition parent orig i).
Qed.

Lemma Reachable_keep st : P emptyRegistry → Reachable st → P st.
Proof.
  intros H0. induction 1 as [|st definition parent om st' Hst IH Hp E
                              |st name st' Hst IH E|st m st' Hst IH Hm E].
  - done.
  - by apply (addRoute_keep definition parent None st (om, st') (Reachable_Inv _ Hst)).
  - by apply (removeRoute_keep st (inl name) st' (Reachable_Inv _ Hst)).
  - apply (removeRoute_keep st (inr m) st' (Reachable_Inv _ Hst)); [|done..].
    by intros ? [= <-].
Qed.

End Preservation.

Section NameTable.

Context {PM : PathMatcherModule}.

(** X11. Only original records are in the name table: [getRecordMatcher] never
    returns a matcher whose record, or the record of a matcher above it, is
    an alias. *)
Theorem name_table_holds_originals st name m :
  Reachable st →
  (getRecordMatcher name st).1 = Some m →
  isAliasRecord m = false
  ∧ (∀ a, a ∈ ancestors m → rec_aliasOf (record a) = None).
Proof.
  intros Hst Hm.
  assert (∀ n x, matcherMap st !! n = Some x → isAliasRecord x = false) as H.
  { revert Hst.
    apply (Reachable_keep
             (λ st, ∀ n x, matcherMap st !! n = Some x → isAliasRecord x = false)
             (λ _, True)).
    - intros s s' _ ->. done.
    - intros roots s s' _ R HP n x Hx. apply (HP n).
      by apply (lookup_weaken _ _ _ _ Hx (rm_map _ _ _ R)).
    - intros matcher s s' Hinv Hk Hfresh Hdisp _ E HP n x.
      destruct (insertMatcher_spec s matcher Hinv Hk Hfresh Hdisp)
        as (s2 & _ & _ & E2 & _ & _ & _ & _ & Hmap & _).
      rewrite E in E2. injection E2 as <-. rewrite Hmap.
      destruct (rec_name (record matcher)) as [nm|]; [|apply HP].
      destruct (truthyName (Some nm) && negb (isAliasRecord matcher)) eqn:Eg; [|apply HP].
      apply andb_true_iff in Eg as [_ Eg%negb_true_iff].
      rewrite lookup_insert. case_decide; [by intros [= <-]|apply HP].
    - done.
    - intros n x. cbn [emptyRegistry matcherMap]. by rewrite lookup_empty. }
  specialize (H name m Hm). split; [done|].
  intros a Ha. destruct (rec_aliasOf (record a)) as [r0|] eqn:Er; [|done].
  assert (isAliasRecord m = true); [|congruence].
  apply isAliasRecord_true_iff. exists a. split; [done|]. by rewrite Er.
Qed.

(** X12. What a matcher of the sequence that is an alias of a record added
    under no alias shares with its original: the record it is an alias of
    is not itself an alias, and the two records have the same name, meta,
    redirect, views and children; they differ by their path, the alias's
    one being joined to the parent's like that of any record. *)
Theorem alias_shares_original st m original :
  Reachable st →
  m ∈ matchers st →
  rec_aliasOf (record m) = Some original →
  (∀ p, parent m = Some p → isAliasRecord p = false) →
  rec_aliasOf original = None
  ∧ rec_name (record m) = rec_name original
  ∧ rec_meta (record m) = rec_meta original
  ∧ rec_redirect (record m) = rec_redirect original
  ∧ rec_components (record m) = rec_components original
  ∧ rec_children (record m) = rec_children original
  ∧ displaysSomething original = true
  ∧ ∃ alias path,
      rec_path (record m) = joinPath (parent m) alias
      ∧ rec_path original = joinPath (parent m) path.
Proof.
  intros Hst Hm Halias Hparent.
  set (Created := λ x : RouteRecordMatcher,
         ∃ definition orig nr,
           nr ∈ normalizedRecordsOf definition (parent x) orig
           ∧ record x = setPath (joinPath (parent x) (rec_path nr)) nr
           ∧ (is_Some orig → ∃ p, parent x = Some p ∧ isAliasRecord p = true)).
  assert (∀ x, x ∈ matchers st → Created x) as Hcreated.
  { revert Hst. apply (Reachable_keep (λ st, ∀ x, x ∈ matchers st → Created x) Created).
    - intros s s' -> _. done.
    - intros roots s s' _ R HP x Hx. apply HP.
      eapply elem_of_sublist; [exact Hx|apply R].
    - intros matcher s s' Hinv Hk Hfresh Hdisp HQ E HP x.
      destruct (insertMatcher_spec s matcher Hinv Hk Hfresh Hdisp)
        as (s2 & l1 & l2 & E2 & _ & Hl & Hl' & _).
      rewrite E in E2. injection E2 as <-. rewrite Hl'.
      intros [?|[-> | ?]%elem_of_cons]%elem_of_app; [|done|];
        apply HP; rewrite Hl; set_solver.
    - intros definition p orig nr u Hnr Horig. by exists definition, orig, nr.
    - by intros x ?%elem_of_nil. }
  destruct (Hcreated m Hm) as (definition & orig & nr & Hnr & Hrec & Horig).
  assert (orig = None) as ->.
  { destruct orig as [o|]; [|done].
    destruct Horig as (p & Hp & Hal); [done|]. rewrite (Hparent p Hp) in Hal. done. }
  rewrite Hrec in Halias |- *. cbn [rec_aliasOf setPath] in Halias.
  unfold normalizedRecordsOf in Hnr. cbn [fmap option_fmap option_map] in Hnr.
  apply elem_of_cons in Hnr as [-> | Hnr]; [done|].
  destruct (raw_alias definition) as [aliases|]; [|by apply elem_of_nil in Hnr].
  apply list_elem_of_fmap in Hnr as (alias & -> & Hin).
  cbn [rec_aliasOf setAliasOf setPath setComponents] in Halias. injection Halias as <-.
  cbn. split_and!; try done.
  - assert (displaysSomething (record m) = true) as Hd
      by apply (inv_display _ (Reachable_Inv _ Hst) m Hm).
    by rewrite Hrec in Hd.
  - by exists alias, (raw_path definition).
Qed.

End NameTable.

(** ** Adding a route and calling the callback it returns *)

Lemma indexOf_middle m l1 l2 :
  uid m ∉ uid <$> l1 → indexOf m (l1 ++ m :: l2) = Some (length l1).
Proof.
  induction l1 as [|x l1 IH]; cbn [indexOf app length fmap list_fmap]; unfold sameMatcher.
  - by rewrite Nat.eqb_refl.
  - intros Hx. apply not_elem_of_cons in Hx as [Hne Hx].
    destruct (Nat.eqb_spec (uid x) (uid m)) as [E|E]; [congruence|].
    by rewrite (IH Hx).
Qed.

Section Callback.

Context {PM : PathMatcherModule}.

(** X13. A definition without children and without alias, whose name is not
    registered, added under no parent: [addRoute] creates one matcher, in
    the sequence exactly when the record displays something, and the
    callback it returns undoes the call: the ordered sequence and the name
    table are what they were before. *)
Theorem addRoute_leaf_callback st definition :
  Reachable st →
  raw_children definition = [] → raw_alias definition = None →
  (∀ name, raw_name definition = Some name → matcherMap st !! name = None) →
  ∃ root st' st'',
    addRoute definition None None st = Some (Some root, st')
    ∧ record root = normalizeRouteRecord definition
    ∧ (root ∈ matchers st' ↔ displaysSomething (normalizeRouteRecord definition) = true)
    ∧ deregister (Some root) st' = Some st''
    ∧ matchers st'' = matchers st
    ∧ matcherMap st'' = matcherMap st.
Proof.
  intros Hinv%Reachable_Inv Hch Hal Hfree.
  set (r := normalizeRouteRecord definition).
  set (options := mergeOptions globalOptions definition).
  set (m := mkMatcher (length (objects st)) (compile (raw_path definition) options) r None).
  set (st1 := setObjects (objects st ++ [mkObject m [] []]) st).
  destruct (createRouteRecordMatcher_spec r None options st Hinv)
    as (st1_ & Ecreate & Hinv1 & Hext1 & Hkm1 & Hm1 & Hmap1 & Hlen1); [done|].
  assert (st1_ = st1) as -> by (by injection Ecreate as <-).
  change (compile (rec_path r) options) with (compile (raw_path definition) options) in Hkm1.
  fold m in Hkm1.
  assert (isAliasRecord m = false) as Hna by done.
  assert (uid m ∉ uid <$> matchers st1) as Hfresh.
  { intros (x & E & Hx)%list_elem_of_fmap. rewrite Hm1 in Hx.
    apply (inv_known _ Hinv), Known_lt in Hx. cbn in E. lia. }
  assert (addRoute definition None None st
          = (if displaysSomething r then insertMatcher m st1 else Some st1)
              ≫= λ st', Some (Some m, st')) as Eadd.
  { rewrite addRoute_unfold. unfold normalizedRecordsOf. rewrite Hal, Hch.
    cbn [forEachRecord fmap option_fmap option_map]. unfold addNormalizedRecord.
    cbn [joinPath originalRecord originalMatcher].
    change (createRouteRecordMatcher _ None _ st) with (m, st1).
    cbn [default]. unfold sameMatcher. rewrite Nat.eqb_refl.
    assert (match raw_name definition with
            | Some name =>
                if negb (bool_decide (is_Some (@None RouteRecordMatcher)))
                   && truthyName (Some name) && negb (isAliasRecord m)
                then removeRoute (inl name) st1 else Some st1
            | None => Some st1
            end = Some st1) as ->.
    { destruct (raw_name definition) as [name|] eqn:En; [|done].
      destruct (_ && _); [|done]. unfold removeRoute.
      change (matcherMap st1) with (matcherMap st). by rewrite (Hfree name). }
    cbn [mbind option_bind]. rewrite addChildren_nil. cbn [mbind option_bind].
    change (displaysSomething (recordOf m)) with (displaysSomething r).
    by destruct (displaysSomething r), (insertMatcher m st1). }
  assert (∀ s, objects s = objects st1 → childrenOf s m = [] ∧ aliasesOf s m = [])
    as Hnone.
  { intros s Hs. unfold childrenOf, aliasesOf. rewrite Hs.
    cbn [objects st1 setObjects uid m].
    by rewrite lookup_app_r, Nat.sub_diag by lia. }
  destruct (displaysSomething r) eqn:Hdisp.
  - destruct (insertMatcher_spec st1 m Hinv1 Hkm1 Hfresh Hdisp)
      as (st' & l1 & l2 & Eins & Hobj' & Hl & Hl' & _ & Hmap' & Hinv').
    rewrite Eins in Eadd. cbn [mbind option_bind] in Eadd.
    assert (uid m ∉ uid <$> l1) as Hl1.
    { intros Hin. apply Hfresh. rewrite Hl, fmap_app. set_solver. }
    set (sta := setMatchers (l1 ++ l2) st').
    set (stb := match rec_name r with
                | Some name =>
                    if truthyName (Some name)
                    then setMatcherMap (delete name (matcherMap sta)) sta else sta
                | None => sta
                end).
    assert (objects stb = objects st1) as Hobjb.
    { subst stb sta. destruct (rec_name r) as [name|]; [|done].
      by destruct (truthyName (Some name)). }
    exists m, st', stb. split; [exact Eadd|]. split; [done|]. split.
    { split; [done|]. intros _. rewrite Hl'. set_solver. }
    split; [|split].
    + unfold deregister, removeRoute, depthBound. cbn [removeMatcher].
      rewrite Hl', (indexOf_middle m l1 l2 Hl1).
      rewrite delete_middle. fold sta.
      change (rec_name (record m)) with (rec_name r). fold stb.
      destruct (Hnone stb Hobjb) as [-> ->]. done.
    + subst stb sta. rewrite Hm1 in Hl. rewrite Hl.
      destruct (rec_name r) as [name|]; [|done].
      by destruct (truthyName (Some name)).
    + rewrite Hmap1 in Hmap'. subst stb sta.
      change (rec_name (record m)) with (rec_name r) in Hmap'. rewrite Hna in Hmap'.
      destruct (rec_name r) as [name|] eqn:En; [|done].
      destruct (truthyName (Some name)); [|done].
      cbn [matcherMap setMatcherMap setMatchers andb negb] in Hmap' |- *.
      rewrite Hmap'. apply delete_insert_id. by apply Hfree.
  - cbn [mbind option_bind] in Eadd.
    exists m, st1, st1. split; [exact Eadd|]. split; [done|]. split.
    { split; [|done]. intros Hin. destruct Hfresh. by apply list_elem_of_fmap_2. }
    split_and!; [|done..].
    unfold deregister, removeRoute, depthBound. cbn [removeMatcher].
    by rewrite (proj2 (indexOf_None m (matchers st1)) Hfresh).
Qed.

End Callback.

(** X10. What [resolve] does not look at. A request with a name is resolved by
    name: its [path] is ignored, and of the current location only the
    params count. A request by path ignores its own [params] and the
    current location altogether. A request relative to the current
    location ignores the matched chain and the meta of the current
    location, and its path too when it has a name. *)
Theorem resolve_frame st location currentLocation :
  (∀ name path' current',
     loc_name location = Some name → truthyName (Some name) = true →
     ml_params current' = ml_params currentLocation →
     resolve (mkLocationRaw (Some name) path' (loc_params location)) current' st
     = resolve location currentLocation st)
  ∧ (∀ path name' params' current',
       truthyName (loc_name location) = false → loc_path location = Some path →
       truthyName name' = false →
       resolve (mkLocationRaw name' (Some path) params') current' st
       = resolve location currentLocation st)
  ∧ (∀ current',
       shapeOf location = RelativeToCurrent →
       ml_name current' = ml_name currentLocation →
       ml_params current' = ml_params currentLocation →
       (truthyName (ml_name currentLocation) = false →
        ml_path current' = ml_path currentLocation) →
       resolve location current' st = resolve location currentLocation st).
Proof.
  split_and!.
  - intros name path' current' Hn Ht Hp. unfold resolve. cbn [loc_name loc_params].
    by rewrite Hn, Ht, Hp.
  - intros path name' params' current' Ht Hp Ht'. unfold resolve. cbn [loc_name loc_path].
    by rewrite Ht, Ht', Hp.
  - intros current' Hs Hn Hp Hpath. unfold resolve, shapeOf in *.
    destruct (truthyName (loc_name location)); [done|].
    destruct (loc_path location); [by rewrite bool_decide_eq_true_2 in Hs|].
    rewrite Hn, Hp. destruct (truthyName (ml_name currentLocation)); [done|].
    by rewrite Hpath.
Qed.

(** ** The listeners of the history *)

Lemma teardown_listeners callback w :
  ((callback ∉ hl_listeners w) ∧ teardown callback w = w)
  ∨ ∃ l1 l2,
      hl_listeners w = l1 ++ callback :: l2 ∧ (callback ∉ l1)
      ∧ teardown callback w
        = mkHistoryListeners (l1 ++ l2) (hl_teardowns w) (hl_pauseState w)
            (hl_currentLocation w) (hl_historyState w).
Proof.
  unfold teardown.
  pose proof (findIndex_spec (Nat.eqb callback) (hl_listeners w)) as (Hb & Hnone & Hsome).
  cbv zeta in *.
  destruct (Z.ltb_spec (-1) (findIndex (Nat.eqb callback) (hl_listeners w))) as [Hfound|Hnot].
  - right. destruct Hsome as (x & Hx & Hfx & Hfirst); [lia|].
    apply Nat.eqb_eq in Hfx as <-.
    set (i := Z.to_nat (findIndex (Nat.eqb callback) (hl_listeners w))) in *.
    exists (take i (hl_listeners w)), (drop (S i) (hl_listeners w)). split_and!.
    + by rewrite <- (take_drop_middle _ _ _ Hx) at 1.
    + intros (j & Hj)%list_elem_of_lookup.
      pose proof (lookup_lt_Some _ _ _ Hj) as Hlt. rewrite length_take in Hlt.
      rewrite lookup_take_lt in Hj by lia.
      specialize (Hfirst j callback). rewrite Nat.eqb_refl in Hfirst.
      assert (true = false); [apply Hfirst; [lia|done]|done].
    + by rewrite delete_take_drop.
  - left. split; [|done]. intros Hin.
    assert (findIndex (Nat.eqb callback) (hl_listeners w) = (-1)%Z) as E by lia.
    pose proof (proj1 Hnone E callback Hin) as Hf. by rewrite Nat.eqb_refl in Hf.
Qed.

(** X20. A teardown takes out of [listeners] the first registration of its
    callback and nothing else, and leaves [teardowns] alone; when the
    callback is not registered it does nothing. So it undoes the [listen]
    that returned it when the callback was not registered before; run a
    second time, it removes the next registration of the same callback. *)
Theorem listen_teardown callback w :
  (callback ∉ hl_listeners w → teardown callback w = w)
  ∧ (∀ l1 l2, hl_listeners w = l1 ++ callback :: l2 → (callback ∉ l1) →
       hl_listeners (teardown callback w) = l1 ++ l2)
  ∧ (callback ∉ hl_listeners w →
       hl_listeners (teardown callback (listen callback w)) = hl_listeners w)
  ∧ (∀ l1 l2 l3,
       hl_listeners w = l1 ++ callback :: l2 ++ callback :: l3 →
       (callback ∉ l1) → (callback ∉ l2) →
       hl_listeners (teardown callback (teardown callback w)) = l1 ++ l2 ++ l3)
  ∧ hl_teardowns (teardown callback w) = hl_teardowns w.
Proof.
  assert (∀ w l1 l2, hl_listeners w = l1 ++ callback :: l2 → (callback ∉ l1) →
            hl_listeners (teardown callback w) = l1 ++ l2) as Hfirst.
  { intros w0 l1 l2 El Hl1.
    destruct (teardown_listeners callback w0) as [[Hout _]|(k1 & k2 & Ek & Hk1 & ->)].
    - destruct Hout. rewrite El. set_solver.
    - cbn [hl_listeners]. rewrite El in Ek.
      assert (length l1 = length k1) as Hlen.
      { destruct (Nat.lt_total (length l1) (length k1)) as [Hlt|[?|Hlt]]; [|done|].
        - destruct Hk1. apply list_elem_of_lookup. exists (length l1).
          rewrite <- (lookup_app_l _ (callback :: k2)) by done.
          rewrite <- Ek. by rewrite list_lookup_middle.
        - destruct Hl1. apply list_elem_of_lookup. exists (length k1).
          rewrite <- (lookup_app_l _ (callback :: l2)) by done.
          rewrite Ek. by rewrite list_lookup_middle. }
      apply app_inj_1 in Ek as [-> [= ->]]; done. }
  split_and!.
  - intros Hout.
    destruct (teardown_listeners callback w) as [[_ ?]|(k1 & k2 & Ek & _)]; [done|].
    destruct Hout. rewrite Ek. set_solver.
  - apply Hfirst.
  - intros Hout. rewrite (Hfirst (listen callback w) (hl_listeners w) []); [|done..].
    by rewrite app_nil_r.
  - intros l1 l2 l3 El Hl1 Hl2.
    rewrite (Hfirst (teardown callback w) (l1 ++ l2) l3).
    + by rewrite <- app_assoc.
    + rewrite (Hfirst w l1 (l2 ++ callback :: l3)); [|done..]. by rewrite <- app_assoc.
    + set_solver.
  - by destruct (teardown_listeners callback w) as [[_ ->]|(l1 & l2 & _ & _ & ->)].
Qed.

Lemma teardown_submseteq callback w :
  hl_listeners (teardown callback w) ⊆+ hl_listeners w.
Proof.
  destruct (teardown_listeners callback w) as [[_ ->]|(l1 & l2 & -> & _ & ->)]; [done|].
  cbn. apply submseteq_app; [done|]. by apply submseteq_cons.
Qed.

Lemma teardown_all teardowns : ∀ w,
  hl_listeners w ⊆+ teardowns →
  hl_listeners (fold_left (λ w callback, teardown callback w) teardowns w) = [].
Proof.
  induction teardowns as [|callback teardowns IH]; intros w Hsub; cbn [fold_left].
  - by apply submseteq_nil_r.
  - apply IH.
    destruct (teardown_listeners callback w) as [[Hout ->]|(l1 & l2 & El & _ & ->)].
    + apply submseteq_cons_r in Hsub as [?|(l' & Hl' & _)]; [done|].
      destruct Hout. rewrite Hl'. left.
    + cbn [hl_listeners]. rewrite El in Hsub.
      apply (submseteq_app_inv_l _ _ [callback]). cbn [app].
      etrans; [|exact Hsub]. apply Permutation_submseteq.
      by rewrite Permutation_middle.
Qed.

(** X21. Every listener was registered by a [listen] whose teardown [destroy]
    still holds, so after [destroy] no listener is left, whatever was
    called before: [listen], teardowns (any number of times), pauses,
    popstate events, earlier [destroy]s. This relies on [replace] leaving
    the two arrays alone. *)
Theorem destroy_removes_all replace w :
  (∀ to w, hl_listeners (replace to w) = hl_listeners w
           ∧ hl_teardowns (replace to w) = hl_teardowns w) →
  HistoryReachable replace w →
  hl_listeners w ⊆+ hl_teardowns w
  ∧ hl_listeners (destroy w) = []
  ∧ hl_teardowns (destroy w) = [].
Proof.
  intros Hreplace Hw.
  assert (hl_listeners w ⊆+ hl_teardowns w) as Hsub.
  { induction Hw as [| callback w _ IH | callback w _ IH | w _ IH | state to w _ IH
                     | w _ IH].
    - done.
    - cbn. by apply submseteq_app.
    - etrans; [apply teardown_submseteq|].
      by destruct (teardown_listeners callback w) as [[_ ->]|(l1 & l2 & _ & _ & ->)].
    - done.
    - unfold popStateHandler. destruct state as [state|].
      + by destruct (match hl_pauseState _ with Some _ => _ | None => _ end).
      + cbn [fst]. by destruct (Hreplace to w) as [-> ->].
    - unfold destroy. cbn [hl_listeners hl_teardowns].
      by rewrite teardown_all. }
  split; [done|]. split; [|done].
  unfold destroy. cbn [hl_listeners]. by apply teardown_all.
Qed.


(** ** From a definition to the view that displays it *)

Section Displayed.

Context {PM : PathMatcherModule}.

(** X19. A named definition with a single [component], added under no parent:
    whenever [resolve] by its name returns, the matched chain is the record
    of the matcher just created; the outermost view displays that
    component under the name [default]; under another name its read of
    [components] finds the member of [Object.prototype] of that name when
    there is one, and nothing otherwise; and a view nested in it finds no
    record to display. *)
Theorem route_component_displayed st definition name component :
  Reachable st →
  raw_name definition = Some name → truthyName (Some name) = true →
  raw_components definition = None → raw_component definition = Some component →
  ∃ new st',
    addRoute definition None None st = Some (Some new, st')
    ∧ ∀ params currentLocation l,
        resolve (mkLocationRaw (Some name) None params) currentLocation st' = Returns l →
        ml_matched l = [record new]
        ∧ depth 0 (ml_matched l) = 0
        ∧ viewComponent 0 (ml_matched l) "default" = Some (Some (Plain component))
        ∧ (∀ other, other ≠ "default"%string →
                    viewComponent 0 (ml_matched l) other
                    = Some (if decide (other ∈ objectPrototypeMembers)
                            then Some (PrototypeMember other) else None))
        ∧ matchedRouteRef (providedDepth 0 (ml_matched l)) (ml_matched l) = None.
Proof.
  intros Hst Hname Ht Hcs Hc.
  destruct (addRoute_top definition None st (Reachable_Inv _ Hst))
    as (st1 & st' & E & _ & _ & Hinv' & _ & _ & _ & Hmap & _ & _ & Hreg & _); [done|].
  cbn zeta in *. cbn [joinPath] in *.
  set (m := mkMatcher (length (objects st))
              (compile (raw_path definition) (mergeOptions globalOptions definition))
              (setPath (raw_path definition) (normalizeRouteRecord definition)) None) in *.
  exists m, st'. split; [exact E|].
  intros params currentLocation l.
  unfold resolve. cbn [loc_name]. rewrite Ht. cbn [mbind option_bind].
  rewrite Hmap, (Hreg name Hname Ht eq_refl).
  destruct (stringify _ _) as [path|]; [|done]. intros [= <-].
  cbn [finishResolve ml_matched matchedOf collectMatched m record].
  assert (rec_components (setPath (raw_path definition) (normalizeRouteRecord definition))
          = Some {[ "default"%string := component ]}) as Hrc.
  { cbn. by rewrite Hcs, Hc. }
  unfold viewComponent, matchedRouteRef, providedDepth, depth.
  cbn [drop skipViewless lookup list_lookup]. rewrite Hrc.
  rewrite bool_decide_eq_true_2 by by eexists.
  cbn [negb lookup list_lookup]. rewrite Hrc.
  unfold getProperty. split_and!; [done..| |done].
  intros other Hne. rewrite lookup_singleton_ne by done.
  by case_bool_decide; case_decide.
Qed.

End Displayed.

(** ** The params [resolve] discards *)

Lemma find_key_name paramName ks :
  is_Some (List.find (λ k, String.eqb (key_name k) paramName) ks)
  ↔ paramName ∈ key_name <$> ks.
Proof.
  induction ks as [|k ks IH]; cbn [List.find fmap list_fmap].
  - split; [by intros [? [=]]|by intros ?%elem_of_nil].
  - destruct (String.eqb_spec (key_name k) paramName) as [<-|Hne].
    + split; [left|by eexists].
    + rewrite IH, elem_of_cons. split; [by right|]. by intros [->|].
Qed.


Import Demo.

Local Open Scope string_scope.

Lemma registryOf_Reachable routes : Reachable (registryOf routes).
Proof.
  unfold registryOf. destruct (createRouterMatcher_Reachable routes) as (st & -> & Hst).
  exact Hst.
Qed.

Lemma registryOf_Some routes : createRouterMatcher routes = Some (registryOf routes).
Proof.
  unfold registryOf. by destruct (createRouterMatcher_Reachable routes) as (st & -> & _).
Qed.

(** The ordered sequence after two definitions: the static pattern comes
    first. *)
Example registry_order :
  sequenceOf (registryOf [usersRoute; nestedRoute])
  = [(3, "/a/b"); (0, "/users/:id"); (2, "/a")].
Proof. vm_compute. reflexivity. Qed.

(** Scenario A of the specification: a stale key is supplied with the
    request and does not reach the result. *)
Example resolve_by_name_stale_key :
  ∃ l,
    resolve (mkLocationRaw (Some (NameString "user")) None
               (Some {[ "id" := Plain (ParamString "42");
                        "stale" := Plain (ParamString "x") ]}))
            START_LOCATION (registryOf [usersRoute])
    = Returns l
    ∧ ml_path l = "/users/42"
    ∧ ml_params l = {[ "id" := Plain (ParamString "42") ]}.
Proof. eexists. split_and!; vm_compute; reflexivity. Qed.

(** A pattern that declares a param named [constructor], resolved by name
    with no params at all: the result holds the [constructor] of
    [Object.prototype] under that key. *)
Lemma resolve_by_name_params_witness :
  ∃ matcher,
    matcherMap (registryOf [memberRoute]) !! NameString "user" = Some matcher
    ∧ requiredNames matcher = ["constructor"]
    ∧ ∃ l,
        resolve (mkLocationRaw (Some (NameString "user")) None None)
                START_LOCATION (registryOf [memberRoute])
        = Returns l
        ∧ ml_params l !! "constructor" = Some (PrototypeMember "constructor").
Proof.
  assert (∃ matcher, matcherMap (registryOf [memberRoute]) !! NameString "user"
                     = Some matcher
                     ∧ requiredNames matcher = ["constructor"]) as (matcher & E & Ereq).
  { vm_compute. eexists. split; reflexivity. }
  exists matcher. split; [exact E|]. split; [exact Ereq|].
  destruct (resolve_by_name_params (registryOf [memberRoute])
              (mkLocationRaw (Some (NameString "user")) None None)
              START_LOCATION (NameString "user") matcher eq_refl eq_refl E)
    as (Hres & _ & _ & _ & Hmember & _); [reflexivity|by intros ? [=]|].
  cbv zeta in Hres, Hmember.
  assert (∃ l, resolve (mkLocationRaw (Some (NameString "user")) None None)
                 START_LOCATION (registryOf [memberRoute]) = Returns l) as [l El].
  { vm_compute. eexists. reflexivity. }
  exists l. split; [exact El|].
  rewrite El in Hres. destruct (stringify _ _) in Hres; [|discriminate Hres].
  injection Hres as ->. cbn [ml_params]. apply Hmember.
  - rewrite Ereq. left.
  - compute_done.
  - rewrite lookup_union, !restrictTo_lookup. cbn [loc_params default from_option id].
    cbn [START_LOCATION ml_params]. rewrite !lookup_empty. by repeat case_decide.
Defined.

(** The static pattern wins over the dynamic one, whatever the order of
    the definitions; a path that matches nothing is returned as it is. *)
Lemma resolve_by_path_witness :
  truthyName (loc_name (mkLocationRaw None (Some "/a/b") None)) = false
  ∧ loc_path (mkLocationRaw None (Some "/a/b") None) = Some "/a/b"
  ∧ resolved (resolve (mkLocationRaw None (Some "/a/b") None) START_LOCATION
                (registryOf [dynamicRoute; staticRoute]))
    = inr (Some (NameString "static"), "/a/b", ["/a/b"])
  ∧ resolve (mkLocationRaw None (Some "/nowhere") None) START_LOCATION
            (registryOf [dynamicRoute; staticRoute])
    = Returns {| ml_name := None; ml_path := "/nowhere"; ml_params := ∅;
                 ml_matched := []; ml_meta := ∅ |}.
Proof.
  split; [reflexivity|]. split; [reflexivity|]. split.
  - vm_compute. reflexivity.
  - destruct (resolve_by_path (registryOf [dynamicRoute; staticRoute])
                (mkLocationRaw None (Some "/nowhere") None) START_LOCATION "/nowhere"
                eq_refl eq_refl) as [_ Hnone].
    apply Hnone. intros x Hx%list_elem_of_In.
    assert (forallb (λ x, negb (re_test (parser x) "/nowhere"))
              (matchers (registryOf [dynamicRoute; staticRoute])) = true) as Hall.
    { vm_compute. reflexivity. }
    rewrite forallb_forall in Hall. apply negb_true_iff. by apply Hall.
Defined.

(** Scenario B of the specification, with meta fields on both records. *)
Lemma resolve_matched_chain_witness :
  ∃ m,
    Locates (registryOf [metaRoute]) (mkLocationRaw None (Some "/a") None) START_LOCATION m
    ∧ match resolve (mkLocationRaw None (Some "/a") None) START_LOCATION
                    (registryOf [metaRoute]) with
      | Returns l =>
          ml_matched l = record <$> reverse (ancestors m)
          ∧ ml_name l = Some (NameString "a-home")
          ∧ (rec_name <$> ml_matched l) = [None; Some (NameString "a-home")]
          ∧ ml_meta l !! "title" = Some (MetaString "Home")
          ∧ ml_meta l !! "layout" = Some (MetaString "main")
      | Throws _ => False
      end.
Proof.
  assert (∃ m, findMatcher "/a" (matchers (registryOf [metaRoute])) = Some m) as [m E].
  { vm_compute. eexists. reflexivity. }
  assert (Locates (registryOf [metaRoute]) (mkLocationRaw None (Some "/a") None)
            START_LOCATION m) as Hloc.
  { by apply (locates_by_path _ _ _ _ "/a"). }
  exists m. split; [exact Hloc|].
  pose proof (resolve_matched_chain _ _ _ _ Hloc) as H.
  assert (match resolve (mkLocationRaw None (Some "/a") None) START_LOCATION
                        (registryOf [metaRoute]) with
          | Returns l =>
              ml_name l = Some (NameString "a-home")
              ∧ (rec_name <$> ml_matched l) = [None; Some (NameString "a-home")]
              ∧ ml_meta l !! "title" = Some (MetaString "Home")
              ∧ ml_meta l !! "layout" = Some (MetaString "main")
          | Throws _ => False
          end) as H'.
  { vm_compute. repeat split. }
  destruct (resolve (mkLocationRaw None (Some "/a") None) START_LOCATION
              (registryOf [metaRoute])) as [l|e]; [|exact H'].
  split; [apply H|exact H'].
Defined.

(** C2, as stated, fails: the current location is named, its name is not
    registered, and [resolve] throws MATCHER_NOT_FOUND although a matcher
    of the sequence matches the current path. *)
Lemma resolve_not_found_counterexample :
  let st := registryOf [route "/a" None true []] in
  let currentLocation :=
    {| ml_name := Some (NameString "ghost"); ml_path := "/a"; ml_params := ∅;
       ml_matched := []; ml_meta := ∅ |} in
  resolve (mkLocationRaw None None None) currentLocation st = Throws MATCHER_NOT_FOUND
  ∧ matcherMap st !! NameString "ghost" = None
  ∧ ¬ (∀ x, x ∈ matchers st → re_test (parser x) (ml_path currentLocation) = false).
Proof.
  cbn zeta. split_and!.
  - vm_compute. reflexivity.
  - vm_compute. reflexivity.
  - intros Hnone.
    assert (existsb (λ x, re_test (parser x) "/a")
              (matchers (registryOf [route "/a" None true []])) = true) as Hex.
    { vm_compute. reflexivity. }
    apply existsb_exists in Hex as (x & Hx%list_elem_of_In & Htest).
    specialize (Hnone x Hx). cbn [ml_path] in Hnone. congruence.
Qed.

Lemma matcherAt_Known st i m :
  matcherAt st i = Some m → uid m = i → Known st m.
Proof.
  unfold matcherAt. intros H <-. destruct (objects st !! uid m) as [o|] eqn:Ho; [|done].
  exists o. split; [done|]. by injection H.
Qed.

Lemma Known_matcherAt st m :
  Known st m → matcherAt st (uid m) = Some m ∧ uid m < length (objects st).
Proof.
  intros (o & Ho & <-). split.
  - unfold matcherAt. by rewrite Ho.
  - by eapply lookup_lt_Some.
Qed.

Lemma childIds_matcherAt st i m :
  matcherAt st i = Some m → childIds st i = uid <$> childrenOf st m.
Proof. unfold childIds. by intros ->. Qed.

Lemma not_elem_of_matchers st m :
  forallb (λ x, negb (Nat.eqb (uid x) (uid m))) (matchers st) = true → m ∉ matchers st.
Proof.
  rewrite forallb_forall. intros Hall Hin%list_elem_of_In.
  specialize (Hall m Hin). by rewrite Nat.eqb_refl in Hall.
Qed.





(** A group without view is never in the sequence: removing it by
    reference, as its callback does, changes nothing. *)
Lemma removeRoute_absent_matcher_witness :
  Reachable (registryOf [nestedRoute])
  ∧ sequenceOf (registryOf [nestedRoute]) = [(2, "/a/b"); (1, "/a")]
  ∧ (∃ group,
       matcherAt (registryOf [nestedRoute]) 0 = Some group
       ∧ Known (registryOf [nestedRoute]) group
       ∧ (group ∉ matchers (registryOf [nestedRoute]))
       ∧ removeRoute (inr group) (registryOf [nestedRoute])
         = Some (registryOf [nestedRoute]))
  ∧ displaysSomething (normalizeRouteRecord nestedRoute) = false
  ∧ ∃ root st',
      addRoute nestedRoute None None (registryOf [nestedRoute]) = Some (Some root, st')
      ∧ uid root = length (objects (registryOf [nestedRoute]))
      ∧ (root ∉ matchers st')
      ∧ deregister (Some root) st' = Some st'.
Proof.
  split; [apply registryOf_Reachable|].
  split; [vm_compute; reflexivity|].
  destruct (removeRoute_absent_matcher (registryOf [nestedRoute]) (registryOf_Reachable _))
    as [Habsent Hcallback].
  split.
  - assert (∃ group, matcherAt (registryOf [nestedRoute]) 0 = Some group ∧ uid group = 0)
      as (group & Eg & Hu).
    { vm_compute. eexists. split; reflexivity. }
    assert (Known (registryOf [nestedRoute]) group) as Hk by (by eapply matcherAt_Known).
    assert (group ∉ matchers (registryOf [nestedRoute])) as Hout.
    { apply not_elem_of_matchers. rewrite Hu. vm_compute. reflexivity. }
    exists group. split_and!; [done..|]. by apply Habsent.
  - split; [reflexivity|]. apply Hcallback; [done|reflexivity].
Defined.


(** The array [getRoutes] returned on the empty registry, read after a
    route was added. *)
Lemma getRoutes_live_witness :
  Reachable (registryOf [usersRoute])
  ∧ (getRoutes (registryOf [usersRoute])).2 = registryOf [usersRoute]
  ∧ (∀ st', readArray (getRoutes (registryOf [usersRoute])).1 st' = matchers st')
  ∧ ∃ new st',
      addRoute staticRoute None None (registryOf [usersRoute]) = Some (Some new, st')
      ∧ new ∈ readArray (getRoutes (registryOf [usersRoute])).1 st'
      ∧ new ∉ readArray (getRoutes (registryOf [usersRoute])).1 (registryOf [usersRoute]).
Proof.
  split; [apply registryOf_Reachable|].
  destruct (getRoutes_live (registryOf [usersRoute]) (registryOf_Reachable _))
    as (H1 & _ & H3 & H4 & _).
  split; [exact H1|]. split; [exact H3|].
  apply H4; [done|reflexivity|reflexivity].
Defined.

(** C9, as stated, fails: the sequence obtained from [getRoutes] before an
    [addRoute] is not the same when it is read after the call. *)
Lemma getRoutes_counterexample :
  let routes := (getRoutes emptyRegistry).1 in
  uid <$> readArray routes emptyRegistry = []
  ∧ (λ st', uid <$> readArray routes st')
    <$> (snd <$> addRoute usersRoute None None emptyRegistry)
    = Some [0].
Proof. vm_compute. split; reflexivity. Qed.

(** The scores and paths of the three objects of a small registry. *)
Lemma layout_users_objects m :
  Known (registryOf [layoutRoute; usersRoute]) m →
  (uid m = 0 ∧ score (parser m) = [[80%Z]] ∧ rec_path (record m) = "/a")
  ∨ (uid m = 1 ∧ score (parser m) = [[80%Z]] ∧ rec_path (record m) = "/a")
  ∨ (uid m = 2 ∧ score (parser m) = [[80%Z]; [60%Z]]
     ∧ rec_path (record m) = "/users/:id").
Proof.
  intros [Hat Hlt]%Known_matcherAt.
  assert (length (objects (registryOf [layoutRoute; usersRoute])) = 3) as Hlen
    by (vm_compute; reflexivity).
  rewrite Hlen in Hlt.
  assert (∀ i, matcherAt (registryOf [layoutRoute; usersRoute]) i = Some m →
               (λ x, (score (parser x), rec_path (record x)))
                 <$> matcherAt (registryOf [layoutRoute; usersRoute]) i
               = Some (score (parser m), rec_path (record m))) as Hobs.
  { by intros i ->. }
  destruct (uid m) as [|[|[|n]]] eqn:Hu; [| | |lia]; apply Hobs in Hat.
  - left. split; [done|]. vm_compute in Hat. injection Hat as H1 H2.
    split; [exact (eq_sym H1)|exact (eq_sym H2)].
  - right. left. split; [done|]. vm_compute in Hat. injection Hat as H1 H2.
    split; [exact (eq_sym H1)|exact (eq_sym H2)].
  - right. right. split; [done|]. vm_compute in Hat. injection Hat as H1 H2.
    split; [exact (eq_sym H1)|exact (eq_sym H2)].
Qed.

Lemma layout_users_Coherent : Coherent (registryOf [layoutRoute; usersRoute]).
Proof.
  assert (compareScores [[80%Z]] [[80%Z]] = 0%Z) as E00 by (vm_compute; reflexivity).
  assert (compareScores [[80%Z]] [[80%Z]; [60%Z]] = 1%Z) as E01
    by (vm_compute; reflexivity).
  assert (compareScores [[80%Z]; [60%Z]] [[80%Z]] = (-1)%Z) as E10
    by (vm_compute; reflexivity).
  assert (compareScores [[80%Z]; [60%Z]] [[80%Z]; [60%Z]] = 0%Z) as E11
    by (vm_compute; reflexivity).
  split.
  - intros a b Ha%layout_users_objects Hb%layout_users_objects.
    unfold rank. cbn [comparePathParserScore module]. unfold compareScore.
    destruct Ha as [(_ & -> & _)|[(_ & -> & _)|(_ & -> & _)]],
             Hb as [(_ & -> & _)|[(_ & -> & _)|(_ & -> & _)]];
      rewrite ?E00, ?E01, ?E10, ?E11; lia.
  - intros a b c Ha%layout_users_objects Hb%layout_users_objects Hc%layout_users_objects.
    unfold rank. cbn [comparePathParserScore module]. unfold compareScore.
    destruct Ha as [(_ & -> & _)|[(_ & -> & _)|(_ & -> & _)]],
             Hb as [(_ & -> & _)|[(_ & -> & _)|(_ & -> & _)]],
             Hc as [(_ & -> & _)|[(_ & -> & _)|(_ & -> & _)]];
      rewrite ?E00, ?E01, ?E10, ?E11; lia.
  - intros a b Ha%layout_users_objects Hb%layout_users_objects Hpath _.
    unfold rank. cbn [comparePathParserScore module]. unfold compareScore.
    destruct Ha as [(_ & -> & Ea)|[(_ & -> & Ea)|(_ & -> & Ea)]],
             Hb as [(_ & -> & Eb)|[(_ & -> & Eb)|(_ & -> & Eb)]];
      rewrite ?E00, ?E01, ?E10, ?E11; try lia;
      rewrite Ea, Eb in Hpath; discriminate Hpath.
Qed.



(** The empty-path child of a group is below the group. *)
Lemma isRecordChildOf_decides_witness :
  ∃ r p,
    matcherAt (registryOf [nestedRoute]) 1 = Some r
    ∧ matcherAt (registryOf [nestedRoute]) 0 = Some p
    ∧ Inv (registryOf [nestedRoute])
    ∧ Known (registryOf [nestedRoute]) r ∧ Known (registryOf [nestedRoute]) p
    ∧ isRecordChildOf (depthBound (registryOf [nestedRoute])) (registryOf [nestedRoute]) r p
      = Some true
    ∧ Descendant (registryOf [nestedRoute]) r p.
Proof.
  assert (∃ r p, matcherAt (registryOf [nestedRoute]) 1 = Some r ∧ uid r = 1
                 ∧ matcherAt (registryOf [nestedRoute]) 0 = Some p ∧ uid p = 0)
    as (r & p & Er & Hur & Ep & Hup).
  { vm_compute. do 2 eexists. split_and!; reflexivity. }
  assert ((r' ← matcherAt (registryOf [nestedRoute]) 1;
           p' ← matcherAt (registryOf [nestedRoute]) 0;
           isRecordChildOf (depthBound (registryOf [nestedRoute]))
             (registryOf [nestedRoute]) r' p') = Some true) as Hcalc.
  { vm_compute. reflexivity. }
  rewrite Er, Ep in Hcalc. cbn [mbind option_bind] in Hcalc.
  pose proof (Reachable_Inv _ (registryOf_Reachable [nestedRoute])) as Hinv.
  assert (Known (registryOf [nestedRoute]) r) as Hr by (by eapply matcherAt_Known).
  assert (Known (registryOf [nestedRoute]) p) as Hp by (by eapply matcherAt_Known).
  destruct (isRecordChildOf_decides (registryOf [nestedRoute]) r p Hinv Hr Hp)
    as (b & Hb & Hiff & _).
  exists r, p. split_and!; [done..|].
  apply Hiff. rewrite Hcalc in Hb. by injection Hb.
Defined.

(** The invariants on a registry built from two definitions. *)
Lemma registry_invariants_witness :
  Reachable (registryOf [usersRoute; nestedRoute])
  ∧ NoDup (matchers (registryOf [usersRoute; nestedRoute]))
  ∧ sequenceOf (registryOf [usersRoute; nestedRoute])
    = [(3, "/a/b"); (0, "/users/:id"); (2, "/a")]
  ∧ is_Some (addRoute staticRoute None None (registryOf [usersRoute; nestedRoute]))
  ∧ is_Some (removeRoute (inl (NameString "user")) (registryOf [usersRoute; nestedRoute])).
Proof.
  pose proof (registryOf_Reachable [usersRoute; nestedRoute]) as Hst.
  destruct (registry_invariants _ Hst) as (Hnodup & _ & _ & Hadd & Hremove).
  split_and!; [done..|vm_compute; reflexivity| |].
  - by apply Hadd.
  - by apply Hremove.
Defined.

(** Removing the layout twice. *)
Lemma removeRoute_idempotent_witness :
  Reachable (registryOf [layoutRoute])
  ∧ ∃ st',
      removeRoute (inl (NameString "layout")) (registryOf [layoutRoute]) = Some st'
      ∧ removeRoute (inl (NameString "layout")) st' = Some st'
      ∧ sequenceOf st' = [].
Proof.
  pose proof (registryOf_Reachable [layoutRoute]) as Hst. split; [done|].
  destruct (removeRoute_idempotent (registryOf [layoutRoute]) (inl (NameString "layout")) Hst)
    as (st' & E & E'); [done|].
  exists st'. split_and!; [done..|].
  assert (sequenceOf <$> removeRoute (inl (NameString "layout")) (registryOf [layoutRoute])
          = Some []) as H by (vm_compute; reflexivity).
  rewrite E in H. by injection H.
Defined.

(** A route with an alias: removing the alias matcher takes the name of
    the original out of the name table, although the original stays in the
    sequence. *)
Lemma removeRoute_matcher_drops_name_witness :
  Reachable (registryOf [aliasedRoute])
  ∧ sequenceOf (registryOf [aliasedRoute]) = [(0, "/a"); (1, "/b")]
  ∧ nameId (registryOf [aliasedRoute]) "a" = Some 0
  ∧ ∃ m st',
      matchers (registryOf [aliasedRoute]) !! 1 = Some m
      ∧ rec_name (record m) = Some (NameString "a")
      ∧ removeRoute (inr m) (registryOf [aliasedRoute]) = Some st'
      ∧ sequenceOf st' = [(0, "/a")]
      ∧ (getRecordMatcher (NameString "a") st').1 = None
      ∧ resolve (mkLocationRaw (Some (NameString "a")) None None) START_LOCATION st'
        = Throws MATCHER_NOT_FOUND.
Proof.
  pose proof (registryOf_Reachable [aliasedRoute]) as Hst.
  split; [done|]. split; [vm_compute; reflexivity|]. split; [vm_compute; reflexivity|].
  assert (∃ m, matchers (registryOf [aliasedRoute]) !! 1 = Some m
               ∧ rec_name (record m) = Some (NameString "a")) as (m & Em & Hn).
  { vm_compute. eexists. split; reflexivity. }
  destruct (removeRoute_matcher_drops_name (registryOf [aliasedRoute]) m (NameString "a") Hst)
    as (st' & E & _ & Hmap & Hresolve); [by eapply list_elem_of_lookup_2|done|done|].
  exists m, st'. split_and!; [done..| |done|apply Hresolve].
  assert ((m' ← matchers (registryOf [aliasedRoute]) !! 1;
           sequenceOf <$> removeRoute (inr m') (registryOf [aliasedRoute]))
          = Some [(0, "/a")]) as H by (vm_compute; reflexivity).
  rewrite Em in H. cbn [mbind option_bind] in H. rewrite E in H. by injection H.
Defined.

(** A named definition added to a registry: the name finds it. *)
Lemma addRoute_registers_name_witness :
  Reachable (registryOf [usersRoute])
  ∧ ∃ new st',
      addRoute staticRoute None None (registryOf [usersRoute]) = Some (Some new, st')
      ∧ (getRecordMatcher (NameString "static") st').1 = Some new
      ∧ rec_path (record new) = "/a/b"
      ∧ new ∈ matchers st'.
Proof.
  pose proof (registryOf_Reachable [usersRoute]) as Hst. split; [done|].
  destruct (addRoute_registers_name (registryOf [usersRoute]) staticRoute None
              (NameString "static") Hst)
    as (new & st' & E & Hget & Hrec & Hin & _); [done..|].
  exists new, st'. split_and!; [done..| |done]. by rewrite Hrec.
Defined.

(** The empty-path child of a group, found by its path. *)
Lemma resolve_targets_sequence_witness :
  Reachable (registryOf [nestedRoute])
  ∧ ∃ l m,
      resolve (mkLocationRaw None (Some "/a") None) START_LOCATION (registryOf [nestedRoute])
      = Returns l
      ∧ m ∈ matchers (registryOf [nestedRoute])
      ∧ last (ml_matched l) = Some (record m)
      ∧ ml_name l = Some (NameString "a-home")
      ∧ displaysSomething (record m) = true.
Proof.
  pose proof (registryOf_Reachable [nestedRoute]) as Hst. split; [done|].
  assert (∃ l, resolve (mkLocationRaw None (Some "/a") None) START_LOCATION
                 (registryOf [nestedRoute]) = Returns l
               ∧ ml_name l = Some (NameString "a-home")
               ∧ negb (Nat.eqb (length (ml_matched l)) 0) = true) as (l & E & Hname & Hlen).
  { vm_compute. eexists. split_and!; reflexivity. }
  destruct (resolve_targets_sequence _ _ _ l Hst E)
    as [(m & _ & Hin & Hdisp & _ & Hlast & _)|(Hnil & _)].
  - exists l, m. split_and!; assumption.
  - rewrite Hnil in Hlen. discriminate Hlen.
Defined.


(** The name of a route with an alias is registered for the original. *)
Lemma name_table_holds_originals_witness :
  Reachable (registryOf [aliasedRoute])
  ∧ ∃ m,
      (getRecordMatcher (NameString "a") (registryOf [aliasedRoute])).1 = Some m
      ∧ rec_path (record m) = "/a"
      ∧ isAliasRecord m = false.
Proof.
  pose proof (registryOf_Reachable [aliasedRoute]) as Hst. split; [done|].
  assert (∃ m, (getRecordMatcher (NameString "a") (registryOf [aliasedRoute])).1 = Some m
               ∧ rec_path (record m) = "/a") as (m & Em & Hpath).
  { vm_compute. eexists. split; reflexivity. }
  exists m. split_and!; [done..|].
  by destruct (name_table_holds_originals _ _ m Hst Em).
Defined.

(** The alias of a route and the record it is an alias of. *)
Lemma alias_shares_original_witness :
  Reachable (registryOf [aliasedRoute])
  ∧ ∃ m original,
      matchers (registryOf [aliasedRoute]) !! 1 = Some m
      ∧ rec_aliasOf (record m) = Some original
      ∧ rec_path (record m) = "/b" ∧ rec_path original = "/a"
      ∧ rec_name (record m) = rec_name original
      ∧ rec_components (record m) = rec_components original.
Proof.
  pose proof (registryOf_Reachable [aliasedRoute]) as Hst. split; [done|].
  assert (∃ m original,
            matchers (registryOf [aliasedRoute]) !! 1 = Some m
            ∧ rec_aliasOf (record m) = Some original
            ∧ rec_path (record m) = "/b" ∧ rec_path original = "/a"
            ∧ parent m = None) as (m & original & Em & Hal & Hp & Hp' & Hparent).
  { vm_compute. do 2 eexists. split_and!; reflexivity. }
  destruct (alias_shares_original _ m original Hst) as (_ & Hname & _ & _ & Hcs & _);
    [by eapply list_elem_of_lookup_2|done|by rewrite Hparent|].
  exists m, original. split_and!; assumption.
Defined.

(** A leaf added to a registry, then removed by the callback. *)
Lemma addRoute_leaf_callback_witness :
  Reachable (registryOf [usersRoute])
  ∧ ∃ root st' st'',
      addRoute staticRoute None None (registryOf [usersRoute]) = Some (Some root, st')
      ∧ sequenceOf st' = [(1, "/a/b"); (0, "/users/:id")]
      ∧ deregister (Some root) st' = Some st''
      ∧ matchers st'' = matchers (registryOf [usersRoute])
      ∧ matcherMap st'' = matcherMap (registryOf [usersRoute]).
Proof.
  pose proof (registryOf_Reachable [usersRoute]) as Hst. split; [done|].
  destruct (addRoute_leaf_callback (registryOf [usersRoute]) staticRoute Hst)
    as (root & st' & st'' & E & _ & _ & Ecb & Hm & Hmap); [done..| |].
  { intros name [= <-]. vm_compute. reflexivity. }
  exists root, st', st''. split_and!; [done| |done..].
  assert (sequenceOf <$> (snd <$> addRoute staticRoute None None (registryOf [usersRoute]))
          = Some [(1, "/a/b"); (0, "/users/:id")]) as H by (vm_compute; reflexivity).
  rewrite E in H. by injection H.
Defined.

(** The view at depth 0 of the location [/a] skips the group, which has no
    view, and displays the record of the empty-path child. *)
Example depth_skips_group :
  let matched :=
    match resolve (mkLocationRaw None (Some "/a") None) START_LOCATION
                  (registryOf [nestedRoute]) with
    | Returns l => ml_matched l
    | Throws _ => []
    end in
  (rec_components <$> matched) = [None; Some {[ "default" := ComponentRef 0 ]}]
  ∧ depth 0 matched = 1
  ∧ viewComponent 0 matched "default" = Some (Some (Plain (ComponentRef 0)))
  ∧ depth (providedDepth 0 matched) matched = 2
  ∧ (rec_path <$> matchedRouteRef 2 matched) = None.
Proof. vm_compute. split_and!; reflexivity. Qed.

(** A param the object holds, a member it inherits, and [__proto__]. *)
Lemma paramsFromLocation_spec_witness :
  let params : MatcherParams := {[ "id" := Plain (ParamString "1") ]} in
  let names := ["id"; "constructor"; "__proto__"; "tab"] in
  params !! "__proto__" = None
  ∧ paramsFromLocation params names !! "id" = Some (Plain (ParamString "1"))
  ∧ paramsFromLocation params names !! "constructor" = Some (PrototypeMember "constructor")
  ∧ paramsFromLocation params names !! "tab" = None
  ∧ paramsFromLocation params names !! "__proto__" = None.
Proof.
  intros params names.
  assert (params !! "__proto__" = None) as Hproto by reflexivity.
  destruct (paramsFromLocation_spec params names Hproto) as (Hlookup & Hnone & _).
  split_and!; [exact Hproto|by rewrite Hlookup..|exact Hnone].
Defined.

(** What [paramsFromLocation] copies from an empty object and from an
    object that holds the key itself. *)
Example paramsFromLocation_members :
  paramsFromLocation ∅ ["constructor"; "id"; "__proto__"]
  = {[ "constructor" := PrototypeMember "constructor" ]}
  ∧ paramsFromLocation {[ "constructor" := Plain (ParamString "x");
                          "id" := Plain (ParamString "1") ]}
      ["constructor"; "toString"]
    = {[ "constructor" := Plain (ParamString "x");
         "toString" := PrototypeMember "toString" ]}.
Proof. split; vm_compute; reflexivity. Qed.

(** A child carries the name of the root: removing its parent by name
    deletes that name from the table, and the root stays in the sequence. *)
Example removeRoute_shared_name :
  let st := registryOf [route "/a" (Some "a") true
                          [route "x" (Some "x") true [route "y" (Some "a") true []]]] in
  let after := removeRoute (inl (NameString "x")) st in
  sequenceOf st = [(2, "/a/x/y"); (1, "/a/x"); (0, "/a")]
  ∧ nameId st "a" = Some 0 ∧ nameId st "x" = Some 1
  ∧ sequenceOf <$> after = Some [(0, "/a")]
  ∧ (λ st', nameId st' "a") <$> after = Some None
  ∧ (λ st', nameId st' "x") <$> after = Some None.
Proof. vm_compute. split_and!; reflexivity. Qed.

(** Params of a link against the current params. *)
Example includesParams_examples :
  includesParams {[ "id" := ParamString "1"; "tab" := ParamArray ["a"; "b"] ]}
                 {[ "tab" := ParamArray ["a"; "b"] ]} = true
  ∧ includesParams {[ "id" := ParamString "1"; "tab" := ParamArray ["a"; "b"] ]}
                   {[ "tab" := ParamArray ["a"] ]} = false
  ∧ includesParams {[ "id" := ParamString "1" ]} {[ "id" := ParamArray [] ]} = false
  ∧ includesParams ∅ ∅ = true.
Proof. vm_compute. split_and!; reflexivity. Qed.

(** Two listeners, one removed by its teardown, then [destroy]. *)
Lemma destroy_removes_all_witness :
  let replace := λ to w,
    mkHistoryListeners (hl_listeners w) (hl_teardowns w) (hl_pauseState w) to
      (hl_historyState w) in
  let w := teardown 1 (listen 2 (listen 1 (useHistoryListeners "/" None))) in
  HistoryReachable replace w
  ∧ hl_listeners w = [2] ∧ hl_teardowns w = [1; 2]
  ∧ hl_listeners (destroy w) = [] ∧ hl_teardowns (destroy w) = [].
Proof.
  intros replace w.
  assert (HistoryReachable replace w) as Hw.
  { apply hr_teardown, hr_listen, hr_listen, hr_start. }
  destruct (destroy_removes_all replace w) as (_ & Hl & Ht); [done|done|].
  split_and!; [done|reflexivity|reflexivity|done..].
Defined.

(** A pause, a popstate event that is skipped, and one that is not. *)
Example pauseListeners_example :
  let replace := λ (to : string) (w : HistoryListeners), w in
  let w := listen 7 (useHistoryListeners "/a" (Some (mkStateEntry None "/a" None 3 false))) in
  let skipped := popStateHandler replace (Some (mkStateEntry None "/b" None 1 false)) "/b"
                   (pauseListeners w) in
  skipped.2 = []
  ∧ hl_currentLocation skipped.1 = "/b"
  ∧ (popStateHandler replace (Some (mkStateEntry None "/a" None 3 false)) "/a" skipped.1).2
    = [mkListenerCall 7 "/a" "/b" 2 DirectionForward]
  ∧ (popStateHandler replace (Some (mkStateEntry None "/b" None 1 false)) "/b" w).2
    = [mkListenerCall 7 "/b" "/a" (-2) DirectionBack].
Proof. vm_compute. split_and!; reflexivity. Qed.

(** The route [static] of the examples, displayed by the default view. *)
Lemma route_component_displayed_witness :
  Reachable (registryOf [usersRoute])
  ∧ ∃ new st' l,
      addRoute staticRoute None None (registryOf [usersRoute]) = Some (Some new, st')
      ∧ resolve (mkLocationRaw (Some (NameString "static")) None None) START_LOCATION st'
        = Returns l
      ∧ ml_path l = "/a/b"
      ∧ viewComponent 0 (ml_matched l) "default" = Some (Some (Plain (ComponentRef 0)))
      ∧ viewComponent 0 (ml_matched l) "sidebar" = Some None
      ∧ viewComponent 0 (ml_matched l) "constructor"
        = Some (Some (PrototypeMember "constructor")).
Proof.
  pose proof (registryOf_Reachable [usersRoute]) as Hst. split; [done|].
  destruct (route_component_displayed (registryOf [usersRoute]) staticRoute
              (NameString "static") (ComponentRef 0) Hst)
    as (new & st' & E & Hview); [reflexivity..|].
  assert (∃ l, (st1 ← snd <$> addRoute staticRoute None None (registryOf [usersRoute]);
                Some (resolve (mkLocationRaw (Some (NameString "static")) None None)
                        START_LOCATION st1))
               = Some (Returns l)
               ∧ ml_path l = "/a/b") as (l & El & Hpath).
  { vm_compute. eexists. split; reflexivity. }
  rewrite E in El. cbn [fmap option_fmap option_map mbind option_bind snd] in El.
  injection El as El.
  destruct (Hview None START_LOCATION l El) as (_ & _ & Hdefault & Hother & _).
  exists new, st', l. split_and!; [assumption..| |].
  - by rewrite (Hother "sidebar").
  - by rewrite (Hother "constructor").
Defined.

